(** * YGM work queue and distributed alias table

    A shallow embedding of
      - include/ygm/container/detail/work_queue_policy.hpp
      - include/ygm/container/work_queue.hpp
      - include/ygm/random/alias_table.hpp
      - include/ygm/detail/logger.hpp
    together with the properties of the repository's specification that
    concern them.

    Layout: the definitions come first (modules [Outcome], [Policy],
    [WorkQueue], [Double], [AliasTable], [Logger]), the theorems follow
    (modules [PolicyFacts], [WorkQueueFacts], [AliasTableFacts],
    [PolicyContents], [WorkQueueAccounting], [AliasTableBuild],
    [LoggerFacts]). *)

From Stdlib Require Import ZArith QArith Qround Qabs Lqa Lia List Bool.
From Stdlib Require Import Sorting.Permutation Sorting.Sorted.
From Stdlib Require Import Floats.SpecFloat.
From Stdlib Require Strings.String.
From stdpp Require Import base option list gmap.
From Equations Require Import Equations.
Import ListNotations.

(* ===================================================================== *)
(** * Part I: definitions                                                 *)
(* ===================================================================== *)

(** ** Outcomes of a call

    A call either returns, trips a [YGM_ASSERT_RELEASE] (which aborts the
    program in release builds too), runs into undefined behaviour
    ([top()] of an empty container, a handle to an object that is gone),
    or is still inside one of its loops when the fuel of the model runs
    out. *)
Module Outcome.

Inductive outcome (A : Type) : Type :=
| Done (a : A)
| AssertFail
| Undefined
| OutOfFuel.

Arguments Done {A} a.
Arguments AssertFail {A}.
Arguments Undefined {A}.
Arguments OutOfFuel {A}.

Definition bind {A B : Type} (c : outcome A) (k : A -> outcome B) : outcome B :=
  match c with
  | Done a => k a
  | AssertFail => AssertFail
  | Undefined => Undefined
  | OutOfFuel => OutOfFuel
  end.

(** [YGM_ASSERT_RELEASE(b)] *)
Definition assert_release (b : bool) : outcome unit :=
  if b then Done tt else AssertFail.

End Outcome.
Import Outcome.

Notation "'do' x <- c ; k" := (Outcome.bind c (fun x => k))
  (at level 10, x name, c at level 100, k at level 200).

(** ** Queue policies (work_queue_policy.hpp)

    The three policy structs share one static interface over their
    [queue_type].  The standard containers behind them are modelled by
    lists: [std::queue] with its front at the head of the list,
    [std::stack] with its top at the head, and [std::priority_queue] by
    the list of its elements kept in non-increasing order of the
    comparator, so that [top] is an element no other element exceeds (the
    layout of the heap inside the vector is not modelled; among
    equivalent elements the earlier inserted one is served first). *)
Module Policy.

Class QueuePolicy (Item : Type) : Type := {
  queue_type : Type;
  (** [queue_type{}] *)
  new_queue : queue_type;
  push : queue_type -> Item -> queue_type;
  (** [None]: [top()]/[front()] of an empty container is undefined *)
  top : queue_type -> option Item;
  pop : queue_type -> queue_type;
  empty : queue_type -> bool;
  size : queue_type -> nat
}.

Definition is_nil {A : Type} (l : list A) : bool :=
  match l with [] => true | _ :: _ => false end.

(** [std::queue<Item>]: [push] appends at the back, [front]/[pop] work at
    the front. *)
Definition fifo_policy (Item : Type) : QueuePolicy Item := {|
  queue_type := list Item;
  new_queue := [];
  push := fun q item => q ++ [item];
  top := fun q => head q;
  pop := fun q => tail q;
  empty := fun q => is_nil q;
  size := fun q => length q
|}.

(** [std::stack<Item>]: [push], [top] and [pop] all work at the same end. *)
Definition lifo_policy (Item : Type) : QueuePolicy Item := {|
  queue_type := list Item;
  new_queue := [];
  push := fun q item => item :: q;
  top := fun q => head q;
  pop := fun q => tail q;
  empty := fun q => is_nil q;
  size := fun q => length q
|}.

(** [std::priority_queue<Item, std::vector<Item>, Comp>]: [comp a b] reads
    "a is ordered before b"; the container serves the element that is
    last in that order first. *)
Fixpoint pq_insert {Item : Type} (comp : Item -> Item -> bool)
  (item : Item) (q : list Item) : list Item :=
  match q with
  | [] => [item]
  | y :: q' => if comp y item then item :: y :: q'
               else y :: pq_insert comp item q'
  end.

Definition priority_policy (Item : Type) (comp : Item -> Item -> bool)
  : QueuePolicy Item := {|
  queue_type := list Item;
  new_queue := [];
  push := fun q item => pq_insert comp item q;
  top := fun q => head q;
  pop := fun q => tail q;
  empty := fun q => is_nil q;
  size := fun q => length q
|}.

End Policy.

(** ** The work queue (work_queue.hpp)

    One rank is modelled.  The objects of type [work_queue] that live on
    the rank are kept in a store indexed by their address ([this]); the
    communicator they all refer to ([m_comm]) is the shared list of
    pending pre-barrier callbacks.  A callback registered by
    [register_processing_callback] captures [this], so it is recorded as
    the address of the object it will drain.

    The work function receives the handle [pthis] and the item.  What it
    can do to its own queue through the handle is to insert: it is
    modelled by the list of items it passes to [local_insert], in order.
    Every application of a work function is appended to the log
    [applied] of the rank. *)
Module WorkQueue.
Import Policy.

Section WithPolicy.
Context {Item : Type} {QP : QueuePolicy Item}.

Definition WorkLambda : Type := Item -> list Item.

Record work_queue : Type := {
  m_local_queue : queue_type;
  m_work_lambda : WorkLambda;
  m_callback_registered : bool
}.

Record rank_state : Type := {
  objects : gmap nat work_queue;
  pre_barrier_callbacks : list nat;
  applied : list (nat * Item)
}.

Definition initial_state : rank_state :=
  {| objects := ∅; pre_barrier_callbacks := []; applied := [] |}.

Definition set_object (this : nat) (wq : work_queue) (st : rank_state)
  : rank_state :=
  {| objects := <[this := wq]> (objects st);
     pre_barrier_callbacks := pre_barrier_callbacks st;
     applied := applied st |}.

Definition with_queue (wq : work_queue) (q : queue_type) : work_queue :=
  {| m_local_queue := q;
     m_work_lambda := m_work_lambda wq;
     m_callback_registered := m_callback_registered wq |}.

Definition with_flag (wq : work_queue) (b : bool) : work_queue :=
  {| m_local_queue := m_local_queue wq;
     m_work_lambda := m_work_lambda wq;
     m_callback_registered := b |}.

(** [work_queue(ygm::comm&, WorkLambda&&)] at address [this]. *)
Definition construct (this : nat) (work_fn : WorkLambda) (st : rank_state)
  : outcome rank_state :=
  match objects st !! this with
  | Some _ => Undefined
  | None =>
      Done (set_object this
              {| m_local_queue := new_queue;
                 m_work_lambda := work_fn;
                 m_callback_registered := false |} st)
  end.

(** [register_processing_callback]: hands the lambda that captures [this]
    to [m_comm.register_pre_barrier_callback] and sets the flag. *)
Definition register_processing_callback (this : nat) (st : rank_state)
  : outcome rank_state :=
  match objects st !! this with
  | None => Undefined
  | Some wq =>
      Done {| objects := <[this := with_flag wq true]> (objects st);
              pre_barrier_callbacks := pre_barrier_callbacks st ++ [this];
              applied := applied st |}
  end.

Definition local_has_work (wq : work_queue) : bool :=
  negb (empty (m_local_queue wq)).

Definition local_size (wq : work_queue) : nat :=
  size (m_local_queue wq).

Definition local_insert (this : nat) (item : Item) (st : rank_state)
  : outcome rank_state :=
  match objects st !! this with
  | None => Undefined
  | Some wq =>
      let st1 := set_object this (with_queue wq (push (m_local_queue wq) item)) st in
      if negb (m_callback_registered wq)
      then register_processing_callback this st1
      else Done st1
  end.

(** The inserts a work function performs through its handle. *)
Fixpoint insert_all (this : nat) (items : list Item) (st : rank_state)
  : outcome rank_state :=
  match items with
  | [] => Done st
  | item :: rest => do st1 <- local_insert this item st; insert_all this rest st1
  end.

(** [local_process_all]: one unit of fuel per iteration of the [while]. *)
Fixpoint local_process_all (fuel : nat) (this : nat) (st : rank_state)
  : outcome rank_state :=
  match fuel with
  | O => OutOfFuel
  | S fuel' =>
      match objects st !! this with
      | None => Undefined
      | Some wq =>
          if empty (m_local_queue wq) then Done st
          else
            match top (m_local_queue wq) with
            | None => Undefined
            | Some item =>
                let st1 :=
                  {| objects := <[this := with_queue wq (pop (m_local_queue wq))]> (objects st);
                     pre_barrier_callbacks := pre_barrier_callbacks st;
                     applied := applied st ++ [(this, item)] |} in
                do st2 <- insert_all this (m_work_lambda wq item) st1;
                local_process_all fuel' this st2
            end
      end
  end.

(** [local_clear]: [m_local_queue = queue_type{}]. *)
Definition local_clear (this : nat) (st : rank_state) : outcome rank_state :=
  match objects st !! this with
  | None => Undefined
  | Some wq => Done (set_object this (with_queue wq new_queue) st)
  end.

(** The lambda built in [register_processing_callback]. *)
Definition process_all_lambda (fuel : nat) (this : nat) (st : rank_state)
  : outcome rank_state :=
  do st1 <- local_process_all fuel this st;
  match objects st1 !! this with
  | None => Undefined
  | Some wq => Done (set_object this (with_flag wq false) st1)
  end.

(** Modelled from the spec: [ygm::comm::barrier], whose source
    (ygm/comm.hpp) is not part of the repository's files here.  The spec
    describes it as the collective that, before it tests for quiescence,
    invokes the registered pre-barrier callbacks, a callback being
    installed "to run during the next barrier", and that repeats this
    until no rank registers new work.  On one rank: take the pending
    callbacks one by one, oldest first, run each once, and return when
    none is pending. *)
Fixpoint barrier (fuel : nat) (st : rank_state) : outcome rank_state :=
  match fuel with
  | O => OutOfFuel
  | S fuel' =>
      match pre_barrier_callbacks st with
      | [] => Done st
      | this :: rest =>
          do st1 <- process_all_lambda fuel' this
                      {| objects := objects st;
                         pre_barrier_callbacks := rest;
                         applied := applied st |};
          barrier fuel' st1
      end
  end.

(** [clear]: [local_clear] followed by a barrier. *)
Definition clear (fuel : nat) (this : nat) (st : rank_state)
  : outcome rank_state :=
  do st1 <- local_clear this st; barrier fuel st1.

(** [~work_queue]: a barrier, then the release assertion
    [local_size() == 0]; after it the object is gone. *)
Definition destroy (fuel : nat) (this : nat) (st : rank_state)
  : outcome rank_state :=
  do st1 <- barrier fuel st;
  match objects st1 !! this with
  | None => Undefined
  | Some wq =>
      do _ <- assert_release (Nat.eqb (local_size wq) 0);
      Done {| objects := delete this (objects st1);
              pre_barrier_callbacks := pre_barrier_callbacks st1;
              applied := applied st1 |}
  end.

(** What [std::move] leaves behind in [other.m_local_queue]: the standard
    only promises a valid container; the three containers used here are
    left empty, which is what the repository's tests assert
    ([wq1.local_size() == 0] after the move). *)
Definition moved_from (other : work_queue) : work_queue :=
  {| m_local_queue := new_queue;
     m_work_lambda := m_work_lambda other;
     m_callback_registered := false |}.

(** [work_queue(self_type&& other)], the new object being built at
    address [this]. *)
Definition move_construct (this other : nat) (st : rank_state)
  : outcome rank_state :=
  match objects st !! this, objects st !! other with
  | None, Some o =>
      let wq := {| m_local_queue := m_local_queue o;
                   m_work_lambda := m_work_lambda o;
                   m_callback_registered := false |} in
      let st1 := set_object this wq (set_object other (moved_from o) st) in
      if local_has_work wq then register_processing_callback this st1
      else Done st1
  | _, _ => Undefined
  end.

(** [operator=(self_type&& other)]. *)
Definition move_assign (this other : nat) (st : rank_state)
  : outcome rank_state :=
  if Nat.eqb this other then
    match objects st !! this with
    | None => Undefined
    | Some _ => Done st
    end
  else
    match objects st !! this, objects st !! other with
    | Some t, Some o =>
        let wq := {| m_local_queue := m_local_queue o;
                     m_work_lambda := m_work_lambda t;
                     m_callback_registered := false |} in
        let st1 := set_object this wq (set_object other (moved_from o) st) in
        if local_has_work wq then register_processing_callback this st1
        else Done st1
    | _, _ => Undefined
    end.

(** The public operations, as a client of the class issues them. *)
Inductive operation : Type :=
| OpConstruct (this : nat) (work_fn : WorkLambda)
| OpMoveConstruct (this other : nat)
| OpMoveAssign (this other : nat)
| OpLocalInsert (this : nat) (item : Item)
| OpLocalProcessAll (this : nat)
| OpLocalClear (this : nat)
| OpClear (this : nat)
| OpBarrier
| OpDestroy (this : nat).

Definition run (fuel : nat) (o : operation) (st : rank_state)
  : outcome rank_state :=
  match o with
  | OpConstruct this work_fn => construct this work_fn st
  | OpMoveConstruct this other => move_construct this other st
  | OpMoveAssign this other => move_assign this other st
  | OpLocalInsert this item => local_insert this item st
  | OpLocalProcessAll this => local_process_all fuel this st
  | OpLocalClear this => local_clear this st
  | OpClear this => clear fuel this st
  | OpBarrier => barrier fuel st
  | OpDestroy this => destroy fuel this st
  end.

(** The states a program can reach from the start through public
    operations that return. *)
Inductive reachable : rank_state -> Prop :=
| reach_init : reachable initial_state
| reach_step st st' fuel o :
    reachable st -> run fuel o st = Done st' -> reachable st'.

End WithPolicy.

Arguments work_queue Item {QP}.
Arguments rank_state Item {QP}.
Arguments operation Item : clear implicits.

End WorkQueue.

(** ** The arithmetic of [double]

    alias_table.hpp computes with [double].  The operations it uses are
    collected in one interface with two implementations: exact rational
    arithmetic, which is the arithmetic the balancing argument of the
    specification is written in, and IEEE 754 binary64 with rounding to
    nearest even, which is what the program runs on. *)
Module Double.

Class Arith (D : Type) : Type := {
  (** the literal [0.0] *)
  zero : D;
  add : D -> D -> D;
  sub : D -> D -> D;
  div : D -> D -> D;
  (** [std::fmod] *)
  fmod : D -> D -> D;
  (** [std::abs] *)
  abs : D -> D;
  (** [x < y], [x <= y], [x == y] *)
  ltb : D -> D -> bool;
  leb : D -> D -> bool;
  eqb : D -> D -> bool;
  (** conversion of an integer ([comm.size()], [vector::size()]) *)
  of_nat : nat -> D;
  (** conversion to [int]: truncation toward zero, undefined when the
      truncated value is not an [int] *)
  to_int : D -> option Z;
  (** the literal [1e-6] *)
  tolerance : D
}.

(** The values of [int]. *)
Definition int_min : Z := (- 2 ^ 31)%Z.
Definition int_max : Z := (2 ^ 31 - 1)%Z.

Definition int_of_Z (z : Z) : option Z :=
  if ((int_min <=? z) && (z <=? int_max))%Z then Some z else None.

(** *** Exact arithmetic *)

Definition Qtrunc (q : Q) : Z :=
  if Qle_bool 0 q then Qfloor q else Qceiling q.

Definition Qfmod (x y : Q) : Q :=
  (x - inject_Z (Qtrunc (x / y)) * y)%Q.

Definition exact : Arith Q := {|
  zero := 0%Q;
  add := Qplus;
  sub := Qminus;
  div := Qdiv;
  fmod := Qfmod;
  abs := Qabs;
  ltb := fun x y => negb (Qle_bool y x);
  leb := Qle_bool;
  eqb := Qeq_bool;
  of_nat := fun n => inject_Z (Z.of_nat n);
  to_int := fun q => int_of_Z (Qtrunc q);
  tolerance := (1 # 1000000)%Q
|}.

(** *** IEEE 754 binary64 *)

Definition prec : Z := 53.
Definition emax : Z := 1024.

Definition b64_of_Z (z : Z) : spec_float :=
  binary_normalize prec emax z 0 false.



(** [std::fmod] is exact: the result has the sign of [x] and the
    magnitude [|x| - k*|y|] for the integer [k] that brings it below
    [|y|]. *)
Definition b64_fmod (x y : spec_float) : spec_float :=
  match x, y with
  | S754_nan, _ | _, S754_nan => S754_nan
  | S754_infinity _, _ => S754_nan
  | _, S754_zero _ => S754_nan
  | S754_zero s, _ => S754_zero s
  | S754_finite _ _ _, S754_infinity _ => x
  | S754_finite sx mx ex, S754_finite _ my ey =>
      let e := Z.min ex ey in
      let r := ((Zpos mx * 2 ^ (ex - e)) mod (Zpos my * 2 ^ (ey - e)))%Z in
      binary_normalize prec emax (if sx then (- r)%Z else r) e sx
  end.

Definition b64_to_int (x : spec_float) : option Z :=
  match x with
  | S754_zero _ => Some 0%Z
  | S754_finite s m e =>
      let mag := if (0 <=? e)%Z then (Zpos m * 2 ^ e)%Z
                 else (Zpos m / 2 ^ (- e))%Z in
      int_of_Z (if s then (- mag)%Z else mag)
  | _ => None
  end.

Definition binary64 : Arith spec_float := {|
  zero := S754_zero false;
  add := SFadd prec emax;
  sub := SFsub prec emax;
  div := SFdiv prec emax;
  fmod := b64_fmod;
  abs := SFabs;
  ltb := SFltb;
  leb := SFleb;
  eqb := SFeqb;
  of_nat := fun n => b64_of_Z (Z.of_nat n);
  to_int := b64_to_int;
  tolerance := SFdiv prec emax (b64_of_Z 1) (b64_of_Z 1000000)
|}.

End Double.

(** ** The alias table (alias_table.hpp) *)
Module AliasTable.
Import Policy Double.

(** The collectives of ygm/detail/collective.hpp are not among the
    repository's files here.  A prefix sum can hand rank [r] the sum over
    the ranks before it or the sum up to and including it; both are
    modelled, and [balance_weight] takes the kind as a parameter. *)
Inductive scan : Type := Exclusive | Inclusive.

Section WithArith.
Context {Item : Type} {D : Type} {AR : Arith D}.

Record item : Type := { id : Item; weight : D }.

Record table_item : Type := { p : D; a : Item; b : Item }.

(** The loop [local_weight += itm.weight] that opens [balance_weight],
    [is_balanced] and [build_local_alias_table]. *)
Definition local_weight (items : list item) : D :=
  fold_left (fun acc itm => add acc (weight itm)) items zero.

(** Modelled from the spec: [ygm::sum(x, comm)], the total of the ranks'
    values (spec section 6: "sum(x, comm) -> same_type"); the values are
    added in rank order. *)
Definition ygm_sum (xs : list D) : D := fold_left add xs zero.

(** Modelled from the spec: [ygm::prefix_sum(x, comm)] on rank [r].  The
    spec calls it inclusive in sections 2, 4.3 and 6 ([Inclusive]: the sum
    over the ranks [s <= r]) and uses it in section 4.3 as the start
    [P_{r-1}] of the rank's interval ([Exclusive]: the sum over the ranks
    [s < r]). *)
Definition ygm_prefix_sum (k : scan) (xs : list D) (r : nat) : D :=
  ygm_sum (firstn (match k with Exclusive => r | Inclusive => S r end) xs).

(** Modelled from the spec: [ygm::is_same(x, comm, eq)], "the collective
    all-equal predicate". *)
Definition ygm_is_same (equal : D -> D -> bool) (xs : list D) : bool :=
  forallb (fun x => forallb (fun y => equal x y) xs) xs.

(** *** balance_weight *)

(** The variables of the walk over [m_local_items].  [m_local_items]
    holds the items from index [i] on (the loop re-reads the size in each
    iteration, so items pushed to the back are visited too); [sent] lists
    the [m_comm.async] calls made so far, oldest first, each with its
    destination rank and payload. *)
Record walk : Type := {
  m_local_items : list item;
  curr_weight : D;
  dest_rank : Z;
  items_to_send : list item;
  sent : list (Z * list item)
}.

(** [int dest_rank = prfx_sum_weight / target_weight] *)
Definition initial_dest_rank (prfx_sum_weight target_weight : D) : option Z :=
  to_int (div prfx_sum_weight target_weight).

(** The test [curr_weight + local_item.weight >= target_weight]. *)
Definition fills (target_weight curr : D) (local_item : item) : bool :=
  leb target_weight (add curr (weight local_item)).

(** One iteration of the [for] loop, [local_item] being
    [m_local_items[i]] and [rest] the items after it. *)
Definition walk_step (nranks : Z) (target_weight : D)
  (local_item : item) (rest : list item) (w : walk) : walk :=
  if fills target_weight (curr_weight w) local_item then
    let remaining_weight :=
      sub (add (curr_weight w) (weight local_item)) target_weight in
    let weight_to_send := sub (weight local_item) remaining_weight in
    let item_to_send := {| id := id local_item; weight := weight_to_send |} in
    let batch := items_to_send w ++ [item_to_send] in
    let sent' :=
      if (dest_rank w <? nranks)%Z then sent w ++ [(dest_rank w, batch)]
      else sent w in
    let spans := leb target_weight remaining_weight in
    let items' :=
      if spans
      then rest ++ [{| id := id local_item; weight := remaining_weight |}]
      else rest in
    let curr' := if spans then zero else remaining_weight in
    {| m_local_items := items';
       curr_weight := curr';
       dest_rank := (dest_rank w + 1)%Z;
       items_to_send :=
         if negb (eqb curr' zero)
         then [{| id := id local_item; weight := curr' |}]
         else [];
       sent := sent' |}
  else
    {| m_local_items := rest;
       curr_weight := add (curr_weight w) (weight local_item);
       dest_rank := dest_rank w;
       items_to_send := items_to_send w ++ [local_item];
       sent := sent w |}.

(** The [for] loop, one unit of fuel per iteration. *)
Fixpoint walk_loop (fuel : nat) (nranks : Z) (target_weight : D) (w : walk)
  : outcome walk :=
  match m_local_items w with
  | [] => Done w
  | local_item :: rest =>
      match fuel with
      | O => OutOfFuel
      | S fuel' =>
          walk_loop fuel' nranks target_weight
            (walk_step nranks target_weight local_item rest w)
      end
  end.

(** The send after the loop:
    [if (items_to_send.size() > 0 && dest_rank < m_comm.size())]. *)
Definition flush (nranks : Z) (w : walk) : list (Z * list item) :=
  if negb (is_nil (items_to_send w)) && (dest_rank w <? nranks)%Z
  then sent w ++ [(dest_rank w, items_to_send w)]
  else sent w.

(** The part of [balance_weight] a rank runs between the collectives and
    the closing barrier: the messages it sends. *)
Definition balance_rank (fuel : nat) (nranks : Z)
  (prfx_sum_weight target_weight : D) (items : list item)
  : outcome (list (Z * list item)) :=
  match initial_dest_rank prfx_sum_weight target_weight with
  | None => Undefined
  | Some d =>
      do w <- walk_loop fuel nranks target_weight
                {| m_local_items := items;
                   curr_weight := fmod prfx_sum_weight target_weight;
                   dest_rank := d;
                   items_to_send := [];
                   sent := [] |};
      Done (flush nranks w)
  end.

(** What the handler of the async call appends to [new_local_items] on
    rank [d], for the messages of one sender. *)
Definition received_from (d : nat) (msgs : list (Z * list item)) : list item :=
  concat (map snd (List.filter (fun m => (fst m =? Z.of_nat d)%Z) msgs)).

(** [new_local_items] on rank [d] after the barrier.  Messages of one
    sender arrive in the order sent; the order between senders is not
    fixed by the communicator, the model takes them by sender rank. *)
Definition deliver (outboxes : list (list (Z * list item))) (d : nat)
  : list item :=
  concat (map (received_from d) outboxes).

Fixpoint run_ranks (fuel : nat) (k : scan) (locals : list D)
  (target_weight : D) (nranks : nat) (r : nat) (inputs : list (list item))
  : outcome (list (list (Z * list item))) :=
  match inputs with
  | [] => Done []
  | items :: more =>
      do out <- balance_rank fuel (Z.of_nat nranks)
                  (ygm_prefix_sum k locals r) target_weight items;
      do outs <- run_ranks fuel k locals target_weight nranks (S r) more;
      Done (out :: outs)
  end.

(** The lambda [equal] of [is_balanced]. *)
Definition equal (x y : D) : bool := ltb (abs (sub x y)) tolerance.

(** [is_balanced(target)] on one rank, up to the collective: the release
    assertion on [dif]. *)
Definition is_balanced_local (target : D) (items : list item) : bool :=
  ltb (abs (sub target (local_weight items))) tolerance.

(** [balance_weight] on all ranks: [inputs] lists [m_local_items] by
    rank, the result lists the new [m_local_items] by rank.  An assertion
    that fails on any rank aborts the program. *)
Definition balance_weight (k : scan) (fuel : nat) (inputs : list (list item))
  : outcome (list (list item)) :=
  let nranks := length inputs in
  let locals := map local_weight inputs in
  let global_weight := ygm_sum locals in
  let target_weight := div global_weight (of_nat nranks) in
  do outboxes <- run_ranks fuel k locals target_weight nranks 0 inputs;
  let new_items := map (deliver outboxes) (seq 0 nranks) in
  do _ <- assert_release (forallb (fun items => negb (is_nil items)) new_items);
  do _ <- assert_release (forallb (is_balanced_local target_weight) new_items);
  do _ <- assert_release (ygm_is_same equal (map local_weight new_items));
  Done new_items.

(** *** build_local_alias_table *)

(** The classification loop.  The two vectors are kept as stacks, their
    back at the head of the list. *)
Definition classify (avg_weight : D) (items : list item)
  : list item * list item :=
  fold_left
    (fun '(light_items, heavy_items) itm =>
       if ltb (weight itm) avg_weight
       then (itm :: light_items, heavy_items)
       else (light_items, itm :: heavy_items))
    items ([], []).

(** The first [while] loop; it returns the table and what is left of the
    two vectors. *)
Equations? pair_up (avg_weight : D) (light_items heavy_items : list item)
  (table : list table_item) : list table_item * list item * list item
  by wf (length light_items + length heavy_items) lt :=
  pair_up avg_weight (l :: light') (h :: heavy') table
    with ltb (sub (add (weight h) (weight l)) avg_weight) avg_weight => {
    | true :=
        pair_up avg_weight
          ({| id := id h;
              weight := sub (add (weight h) (weight l)) avg_weight |} :: light')
          heavy'
          (table ++ [{| p := weight l; a := id l; b := id h |}]);
    | false :=
        pair_up avg_weight light'
          ({| id := id h;
              weight := sub (add (weight h) (weight l)) avg_weight |} :: heavy')
          (table ++ [{| p := weight l; a := id l; b := id h |}]) };
  pair_up avg_weight light_items heavy_items table :=
    (table, light_items, heavy_items).
Proof. all: simpl; lia. Qed.

(** The two flushing loops: one bucket [{avg_weight, id, Item()}] per
    item left. *)
Definition flush_items (default_item : Item) (avg_weight : D)
  (items : list item) : list table_item :=
  map (fun itm => {| p := avg_weight; a := id itm; b := default_item |}) items.

Definition average (items : list item) : D :=
  div (local_weight items) (of_nat (length items)).

(** [build_local_alias_table]: [m_local_alias_table], which is empty
    before the call. *)
Definition build_local_alias_table (default_item : Item) (items : list item)
  : list table_item :=
  let avg_weight := average items in
  let '(light_items, heavy_items) := classify avg_weight items in
  let '(table, light_items, heavy_items) :=
    pair_up avg_weight light_items heavy_items [] in
  table ++ flush_items default_item avg_weight heavy_items
        ++ flush_items default_item avg_weight light_items.

(** *** async_sample *)

(** The members [sample_wrapper] reads. *)
Record alias_table : Type := {
  m_local_alias_table : list table_item;
  m_avg_weight : D
}.

Section WithRng.
(** The random engine and the two distributions are the standard
    library's; a call of a distribution on the engine is a function of
    the engine's state that returns the draw and the next state. *)
Context {Rng : Type}.
Context (m_num_items_uniform_dist : nat -> Rng -> nat * Rng).
Context (m_bucket_weight_dist : D -> Rng -> D * Rng).

(** The lambda [sample_wrapper]: the id it hands to the visitor, and the
    engine after it.  The index distribution was built over
    [0 .. size-1], the weight distribution over [0, avg_weight). *)
Definition sample_wrapper (t : alias_table) (m_rng : Rng)
  : option (Item * Rng) :=
  let '(i, rng1) :=
    m_num_items_uniform_dist (length (m_local_alias_table t)) m_rng in
  match nth_error (m_local_alias_table t) i with
  | None => None
  | Some tbl_itm =>
      if ltb (p tbl_itm) (m_avg_weight t) then
        let '(f, rng2) := m_bucket_weight_dist (m_avg_weight t) rng1 in
        if ltb (p tbl_itm) f then Some (b tbl_itm, rng2)
        else Some (a tbl_itm, rng2)
      else Some (a tbl_itm, rng1)
  end.

(** [m_rank_dist], built over [0 .. comm.size()-1], as a function of the
    number of ranks. *)
Context (m_rank_dist : nat -> Rng -> nat * Rng).

(** [async_sample] called on rank [r].  The caller draws the destination
    rank from its own engine; the message handler runs [sample_wrapper] on
    the destination rank, with that rank's table and engine ([ptr_a_tbl]
    is the destination's [pthis]).  [ranks] lists the members of every
    rank; the result is the id handed to the visitor and the ranks
    afterwards.  [None]: a rank or a bucket that does not exist.
    [m_comm.async] (ygm/comm.hpp, not among the files) is taken as the
    spec describes it: the function runs once, on the destination rank. *)
Definition async_sample (ranks : list (alias_table * Rng)) (r : nat)
  : option (Item * list (alias_table * Rng)) :=
  match ranks !! r with
  | None => None
  | Some (t, m_rng) =>
      let '(dest, rng1) := m_rank_dist (length ranks) m_rng in
      let ranks1 := <[r := (t, rng1)]> ranks in
      match ranks1 !! dest with
      | None => None
      | Some (ptr_a_tbl, rng_d) =>
          match sample_wrapper ptr_a_tbl rng_d with
          | None => None
          | Some (s, rng2) => Some (s, <[dest := (ptr_a_tbl, rng2)]> ranks1)
          end
      end
  end.

End WithRng.

(** *** build_alias_table *)

(** The members [build_local_alias_table] leaves behind for
    [sample_wrapper]: the table, and [m_avg_weight = avg_weight]. *)
Definition built_table (default_item : Item) (items : list item)
  : alias_table :=
  {| m_local_alias_table := build_local_alias_table default_item items;
     m_avg_weight := average items |}.

(** [build_alias_table] on all ranks: [balance_weight], then
    [build_local_alias_table] on every rank's new [m_local_items], which
    are cleared afterwards.  The result lists the ranks' members. *)
Definition build_alias_table (k : scan) (fuel : nat) (default_item : Item)
  (inputs : list (list item)) : outcome (list alias_table) :=
  do balanced <- balance_weight k fuel inputs;
  Done (map (built_table default_item) balanced).

End WithArith.

Arguments item Item D : clear implicits.
Arguments table_item Item D : clear implicits.
Arguments walk Item D : clear implicits.
Arguments alias_table Item D : clear implicits.

End AliasTable.

(** ** The logger (detail/logger.hpp)

    The logger writes through spdlog, which is not part of the
    repository: what the class hands to spdlog and to the file system is
    recorded as a list of events.  The formatting of a message (the
    pattern, the flag that prints the rank) is spdlog's and is not
    modelled; [m_cout_logger] and [m_cerr_logger] never change after the
    constructor and appear as the sinks they write to. *)
Module Logger.
Import Stdlib.Strings.String.

Inductive log_level : Type := off | critical | error | warn | info | debug.

(** The values of the enumerators, [off = 0] to [debug = 5]. *)
Definition level_value (level : log_level) : nat :=
  match level with
  | off => 0 | critical => 1 | error => 2 | warn => 3 | info => 4 | debug => 5
  end.

Inductive logger_target : Type := file | stdout | stderr.

(** [spdlog::level::level_enum] *)
Module spdlog.
Inductive level_enum : Type :=
  trace | debug | info | warn | err | critical | off.
End spdlog.

Definition ygm_level_to_spdlog_level : list spdlog.level_enum :=
  [spdlog.off; spdlog.critical; spdlog.err; spdlog.warn; spdlog.info;
   spdlog.debug].

Inductive sink : Type :=
| file_sink (path : string)
| stdout_sink
| stderr_sink.

Section WithMessages.
Context {Msg : Type}.

Inductive event : Type :=
| create_directories (dir : string)
  (** [make_shared<rank_file_sink_t>(m_path.c_str(), false)]: the file
      is opened for appending *)
| open_file (path : string)
  (** a call of [spdlog::logger::log] on the logger of the sink *)
| logged (s : sink) (level : spdlog.level_enum) (msg : Msg)
| flushed (path : string).

(** [m_file_logger_ptr] is empty or holds the logger of the file it was
    opened on. *)
Record logger : Type := {
  m_logger_target : logger_target;
  m_file_logger_ptr : option string;
  m_log_level : log_level;
  m_path : string
}.

(** The file system, as it answers during one call of a member function.
    Three calls reach it, and each can throw instead of returning. *)
Record file_system : Type := {
  (** [std::filesystem::is_directory(p)]; [None]: it throws
      [filesystem_error] *)
  is_directory : string -> option bool;
  (** whether [std::filesystem::create_directories(p)] returns; otherwise
      it throws [filesystem_error] *)
  can_create_directories : string -> bool;
  (** whether the constructor of [basic_file_sink_st] opens the file;
      otherwise it throws [spdlog_ex] *)
  can_open : string -> bool
}.

(** [path::parent_path], a function of the path as it is written. *)
Context (parent_path : string -> string).

(** How a member function ends: it returns, or an exception of the file
    system leaves it ([thrown], with the logger as the exception finds it
    and the events before it), or it indexes
    [ygm_level_to_spdlog_level] out of range ([undefined]). *)
Inductive result : Type :=
| returned (lg : logger) (events : list event)
| thrown (lg : logger) (events : list event)
| undefined.

(** [logger(rank, path)]; [m_path += "/ygm_logs"] appends to the path as
    it is written.  [None]: [is_directory] throws and no logger is
    built. *)
Definition new_logger (fs : file_system) (path : string) : option logger :=
  match is_directory fs path with
  | None => None
  | Some dir =>
      Some {| m_logger_target := file;
              m_file_logger_ptr := None;
              m_log_level := off;
              m_path := if dir then (path ++ "/ygm_logs")%string else path |}
  end.

(** [logger(rank)] *)
Definition default_logger (fs : file_system) : option logger :=
  new_logger fs "./log/"%string.

Definition set_path (p : string) (lg : logger) : logger :=
  {| m_logger_target := m_logger_target lg;
     m_file_logger_ptr := None;
     m_log_level := m_log_level lg;
     m_path := p |}.

Definition get_path (lg : logger) : string := m_path lg.

Definition set_log_level (level : log_level) (lg : logger) : logger :=
  {| m_logger_target := m_logger_target lg;
     m_file_logger_ptr := m_file_logger_ptr lg;
     m_log_level := level;
     m_path := m_path lg |}.

Definition get_log_level (lg : logger) : log_level := m_log_level lg.

Definition set_logger_target (target : logger_target) (lg : logger) : logger :=
  {| m_logger_target := target;
     m_file_logger_ptr := m_file_logger_ptr lg;
     m_log_level := m_log_level lg;
     m_path := m_path lg |}.

Definition get_logger_target (lg : logger) : logger_target :=
  m_logger_target lg.

(** The call [->log(ygm_level_to_spdlog_level[level], args...)] on the
    logger of the sink [s], after the events [before]. *)
Definition spdlog_log (s : sink) (level : log_level) (msg : Msg)
  (lg : logger) (before : list event) : result :=
  match nth_error ygm_level_to_spdlog_level (level_value level) with
  | None => undefined
  | Some lvl => returned lg (before ++ [logged s lvl msg])
  end.

(** [log_impl].  For the file target without an open file logger the
    directories are created and the file is opened first; when either
    throws, [m_file_logger_ptr] is still empty and nothing has been
    logged. *)
Definition log_impl (fs : file_system) (t : logger_target) (level : log_level)
  (msg : Msg) (lg : logger) : result :=
  if (level_value (m_log_level lg) <? level_value level)%nat
  then returned lg []
  else
    match t with
    | file =>
        match m_file_logger_ptr lg with
        | Some path => spdlog_log (file_sink path) level msg lg []
        | None =>
            if negb (can_create_directories fs (parent_path (m_path lg)))
            then thrown lg []
            else if negb (can_open fs (m_path lg))
            then thrown lg [create_directories (parent_path (m_path lg))]
            else
              spdlog_log (file_sink (m_path lg)) level msg
                {| m_logger_target := m_logger_target lg;
                   m_file_logger_ptr := Some (m_path lg);
                   m_log_level := m_log_level lg;
                   m_path := m_path lg |}
                [create_directories (parent_path (m_path lg));
                 open_file (m_path lg)]
        end
    | stdout => spdlog_log stdout_sink level msg lg []
    | stderr => spdlog_log stderr_sink level msg lg []
    end.

(** [log(targets, level, args...)]: an exception ends the loop. *)
Fixpoint log_to (fs : file_system) (targets : list logger_target)
  (level : log_level) (msg : Msg) (lg : logger) : result :=
  match targets with
  | [] => returned lg []
  | target :: rest =>
      match log_impl fs target level msg lg with
      | returned lg1 events1 =>
          match log_to fs rest level msg lg1 with
          | returned lg2 events2 => returned lg2 (events1 ++ events2)
          | thrown lg2 events2 => thrown lg2 (events1 ++ events2)
          | undefined => undefined
          end
      | thrown lg1 events1 => thrown lg1 events1
      | undefined => undefined
      end
  end.

(** [log(level, args...)] *)
Definition log (fs : file_system) (level : log_level) (msg : Msg)
  (lg : logger) : result :=
  log_to fs [m_logger_target lg] level msg lg.

Definition flush (lg : logger) : list event :=
  match m_file_logger_ptr lg with
  | Some path => [flushed path]
  | None => []
  end.

(** The member functions that change the logger or produce events, as a
    client calls them. *)
Inductive call : Type :=
| call_set_path (p : string)
| call_set_log_level (level : log_level)
| call_set_logger_target (target : logger_target)
| call_log_to (targets : list logger_target) (level : log_level) (msg : Msg)
| call_log (level : log_level) (msg : Msg)
| call_flush.

Definition run (fs : file_system) (c : call) (lg : logger) : result :=
  match c with
  | call_set_path p => returned (set_path p lg) []
  | call_set_log_level level => returned (set_log_level level lg) []
  | call_set_logger_target target => returned (set_logger_target target lg) []
  | call_log_to targets level msg => log_to fs targets level msg lg
  | call_log level msg => log fs level msg lg
  | call_flush => returned lg (flush lg)
  end.

(** The loggers a program can get to from a constructor; a program may
    catch the exception of a call and go on with the logger. *)
Inductive reachable : logger -> Prop :=
| reach_new fs path lg : new_logger fs path = Some lg -> reachable lg
| reach_call fs lg c lg' events :
    reachable lg -> run fs c lg = returned lg' events -> reachable lg'
| reach_catch fs lg c lg' events :
    reachable lg -> run fs c lg = thrown lg' events -> reachable lg'.

End WithMessages.

Arguments event Msg : clear implicits.
Arguments call Msg : clear implicits.
Arguments result Msg : clear implicits.

End Logger.

(* ===================================================================== *)
(** * Part II: properties                                                 *)
(* ===================================================================== *)

(** ** Queue policies *)
Module PolicyFacts.
Import Policy.

(** What the work queue relies on from a policy. *)
Class Lawful {Item : Type} (QP : QueuePolicy Item) : Prop := {
  empty_new_queue : empty new_queue = true;
  empty_push : forall q item, empty (push q item) = false;
  empty_size : forall q, empty q = true <-> size q = 0%nat;
  top_nonempty : forall q, empty q = false -> is_Some (top q);
  size_pop : forall q, empty q = false -> size q = S (size (pop q))
}.

Lemma is_nil_length {A : Type} (l : list A) :
  is_nil l = true <-> length l = 0%nat.
Proof. destruct l; simpl; split; intros; congruence. Qed.

Lemma head_nonempty {A : Type} (l : list A) :
  is_nil l = false -> is_Some (head l).
Proof. destruct l; simpl; [discriminate | eauto]. Qed.

Lemma tail_length {A : Type} (l : list A) :
  is_nil l = false -> length l = S (length (tail l)).
Proof. destruct l; simpl; [discriminate | reflexivity]. Qed.

Lemma pq_insert_nonempty {Item : Type} comp (item : Item) q :
  is_nil (pq_insert comp item q) = false.
Proof. destruct q as [|y q]; simpl; [|destruct (comp y item)]; reflexivity. Qed.

#[global] Instance fifo_lawful (Item : Type) : Lawful (fifo_policy Item).
Proof.
  split; simpl.
  - reflexivity.
  - intros q item. destruct q; reflexivity.
  - apply is_nil_length.
  - apply head_nonempty.
  - apply tail_length.
Qed.

#[global] Instance lifo_lawful (Item : Type) : Lawful (lifo_policy Item).
Proof.
  split; simpl.
  - reflexivity.
  - reflexivity.
  - apply is_nil_length.
  - apply head_nonempty.
  - apply tail_length.
Qed.

#[global] Instance priority_lawful (Item : Type) comp :
  Lawful (priority_policy Item comp).
Proof.
  split; simpl.
  - reflexivity.
  - intros q item. apply pq_insert_nonempty.
  - apply is_nil_length.
  - apply head_nonempty.
  - apply tail_length.
Qed.

(** The contents of a container after a run of [push]es. *)
Section Contents.
Context {Item : Type}.

Lemma fifo_contents (items q : list Item) :
  fold_left (fun q item => q ++ [item]) items q = q ++ items.
Proof.
  revert q. induction items as [|x items IH]; intros q; simpl.
  - symmetry. apply app_nil_r.
  - rewrite IH, <- app_assoc. reflexivity.
Qed.

Lemma lifo_contents (items q : list Item) :
  fold_left (fun q item => item :: q) items q = rev items ++ q.
Proof.
  revert q. induction items as [|x items IH]; intros q; simpl.
  - reflexivity.
  - rewrite IH, <- app_assoc. reflexivity.
Qed.

Variable comp : Item -> Item -> bool.

(** [x] is served no later than [y]: [x] is not ordered before [y]. *)
Definition not_before (x y : Item) : Prop := comp x y = false.

Hypothesis comp_asym : forall x y, comp x y = true -> comp y x = false.
Hypothesis comp_negtrans :
  forall x y z, comp x y = false -> comp y z = false -> comp x z = false.

Lemma pq_insert_perm item q : Permutation (pq_insert comp item q) (item :: q).
Proof.
  induction q as [|y q IH]; simpl.
  - reflexivity.
  - destruct (comp y item).
    + reflexivity.
    + rewrite IH. apply perm_swap.
Qed.

Lemma pq_insert_sorted item q :
  StronglySorted not_before q ->
  StronglySorted not_before (pq_insert comp item q).
Proof using comp_asym comp_negtrans.
  induction 1 as [|y q Hq IH Hy]; simpl.
  - repeat constructor.
  - destruct (comp y item) eqn:E.
    + constructor; [constructor; assumption|].
      constructor.
      * apply comp_asym, E.
      * rewrite Forall_forall in *. intros z Hz.
        apply (comp_negtrans _ y); [apply comp_asym, E | apply Hy, Hz].
    + constructor; [assumption|].
      rewrite Forall_forall in *. intros z Hz.
      rewrite pq_insert_perm, elem_of_cons in Hz.
      destruct Hz as [-> | Hz]; [exact E | apply Hy, Hz].
Qed.

Lemma priority_contents (items q : list Item) :
  StronglySorted not_before q ->
  let q' := fold_left (fun q item => pq_insert comp item q) items q in
  Permutation q' (items ++ q) /\ StronglySorted not_before q'.
Proof using comp_asym comp_negtrans.
  revert q. induction items as [|x items IH]; intros q Hq; simpl.
  - split; [reflexivity | assumption].
  - destruct (IH (pq_insert comp x q) (pq_insert_sorted x q Hq)) as [HP HS].
    split; [|exact HS].
    rewrite HP. rewrite pq_insert_perm. symmetry. apply Permutation_middle.
Qed.

End Contents.
End PolicyFacts.

(** ** The work queue *)
Module WorkQueueFacts.
Import Policy PolicyFacts WorkQueue.

(** Case analysis on whether a looked-up address is the one just
    written. *)
Ltac by_object id this :=
  destruct (decide (id = this)) as [->|?];
  [rewrite ?lookup_insert_eq, ?lookup_delete_eq
  |rewrite ?lookup_insert_ne, ?lookup_delete_ne by congruence].

Ltac by_object_in H id this :=
  destruct (decide (id = this)) as [->|?];
  [rewrite ?lookup_insert_eq, ?lookup_delete_eq in H
  |rewrite ?lookup_insert_ne, ?lookup_delete_ne in H by congruence].

Section WithPolicy.
Context {Item : Type} {QP : QueuePolicy Item}.
Implicit Types (st : rank_state Item) (wq : work_queue Item).

(** *** The effect of the inserting operations, in closed form *)

Lemma local_insert_eq this item st wq :
  objects st !! this = Some wq ->
  local_insert this item st =
  Done {| objects :=
            <[this := {| m_local_queue := push (m_local_queue wq) item;
                         m_work_lambda := m_work_lambda wq;
                         m_callback_registered := true |}]> (objects st);
          pre_barrier_callbacks :=
            pre_barrier_callbacks st
              ++ (if m_callback_registered wq then [] else [this]);
          applied := applied st |}.
Proof.
  intros H. unfold local_insert. rewrite H.
  destruct wq as [q f [|]]; simpl.
  - unfold set_object, with_queue. simpl. rewrite app_nil_r. reflexivity.
  - unfold register_processing_callback, set_object, with_queue, with_flag.
    simpl. rewrite lookup_insert_eq. simpl. rewrite insert_insert_eq.
    reflexivity.
Qed.

Lemma insert_all_eq this items st wq :
  objects st !! this = Some wq ->
  insert_all this items st =
  Done {| objects :=
            <[this := {| m_local_queue := fold_left push items (m_local_queue wq);
                         m_work_lambda := m_work_lambda wq;
                         m_callback_registered :=
                           m_callback_registered wq || negb (is_nil items) |}]>
              (objects st);
          pre_barrier_callbacks :=
            pre_barrier_callbacks st
              ++ (if m_callback_registered wq || is_nil items then [] else [this]);
          applied := applied st |}.
Proof.
  revert st wq. induction items as [|x items IH]; intros st wq H; simpl.
  - rewrite orb_false_r, orb_true_r, app_nil_r.
    destruct st as [objs cbs log], wq as [q f r]. simpl in *.
    rewrite (insert_id _ _ _ H). reflexivity.
  - rewrite (local_insert_eq _ _ _ _ H). simpl.
    erewrite IH by (simpl; apply lookup_insert_eq). simpl.
    rewrite insert_insert_eq, orb_false_r, orb_true_r, app_nil_r.
    reflexivity.
Qed.

(** *** The invariants of a rank *)

(** A queue that holds work has its flag set. *)
Definition armed_if_work st : Prop :=
  forall this wq, objects st !! this = Some wq ->
    local_has_work wq = true -> m_callback_registered wq = true.

(** A set flag means a callback of the object is pending in the
    communicator. *)
Definition armed_is_pending st : Prop :=
  forall this wq, objects st !! this = Some wq ->
    m_callback_registered wq = true -> this ∈ pre_barrier_callbacks st.

(** A pending callback refers to an object that still exists. *)
Definition pending_alive st : Prop :=
  forall this, this ∈ pre_barrier_callbacks st -> is_Some (objects st !! this).

(** What an operation on the object [this] may change: nothing about the
    other objects, and the pending callbacks only by appending [this]. *)
Record touches_only (this : nat) st st' : Prop := {
  others_kept : forall other, other <> this ->
    objects st' !! other = objects st !! other;
  pending_kept : forall x, x ∈ pre_barrier_callbacks st ->
    x ∈ pre_barrier_callbacks st';
  pending_new : forall x, x ∈ pre_barrier_callbacks st' ->
    x ∈ pre_barrier_callbacks st \/ x = this;
  this_kept : forall wq, objects st !! this = Some wq ->
    exists wq', objects st' !! this = Some wq' /\
      m_work_lambda wq' = m_work_lambda wq /\
      (m_callback_registered wq = true -> m_callback_registered wq' = true) /\
      (m_callback_registered wq' = true ->
         m_callback_registered wq = true \/ this ∈ pre_barrier_callbacks st')
}.

Lemma touches_only_refl this st : touches_only this st st.
Proof. split; auto. intros wq H. exists wq. auto. Qed.

Lemma touches_only_trans this st1 st2 st3 :
  is_Some (objects st1 !! this) ->
  touches_only this st1 st2 -> touches_only this st2 st3 ->
  touches_only this st1 st3.
Proof.
  intros [wq1 H1] [A1 B1 C1 D1] [A2 B2 C2 D2]. split.
  - intros other Hne. rewrite A2, A1; auto.
  - auto.
  - intros x Hx. destruct (C2 x Hx) as [Hx'|]; auto.
  - intros wq Hwq. destruct (D1 wq Hwq) as (wq2 & L2 & E2 & F2 & G2).
    destruct (D2 wq2 L2) as (wq3 & L3 & E3 & F3 & G3).
    exists wq3. repeat split; [assumption | congruence | auto |].
    intros H3. destruct (G3 H3) as [H2|]; [|auto].
    destruct (G2 H2); auto.
Qed.

Lemma insert_all_touches this items st st' :
  insert_all this items st = Done st' -> touches_only this st st'.
Proof.
  destruct (objects st !! this) as [wq|] eqn:L.
  - rewrite (insert_all_eq _ _ _ _ L). intros [= <-]. split; simpl.
    + intros other Hne. apply lookup_insert_ne. congruence.
    + intros x Hx. apply elem_of_app. auto.
    + intros x Hx. apply elem_of_app in Hx as [Hx|Hx]; [auto|].
      destruct (_ || _); [inversion Hx|].
      apply list_elem_of_singleton in Hx. auto.
    + intros wq0 Hwq0. rewrite L in Hwq0. injection Hwq0 as <-.
      eexists. rewrite lookup_insert_eq.
      split; [reflexivity|]. simpl. repeat split.
      * intros ->. reflexivity.
      * destruct (m_callback_registered wq); [auto|]. simpl.
        destruct (is_nil items); [discriminate|].
        intros _. right. apply elem_of_app. right. constructor.
  - destruct items as [|x items]; simpl.
    + intros [= <-]. apply touches_only_refl.
    + unfold local_insert. rewrite L. discriminate.
Qed.

Lemma insert_all_alive this items st st' :
  insert_all this items st = Done st' ->
  is_Some (objects st !! this) -> is_Some (objects st' !! this).
Proof.
  intros H [wq L]. destruct (this_kept _ _ _ (insert_all_touches _ _ _ _ H) wq L)
    as (wq' & L' & _). eauto.
Qed.

(** *** The drain *)

(** [local_process_all] touches only its own object and leaves its queue
    empty: the loop exits only when the policy reports empty. *)
Lemma local_process_all_spec fuel this st st' :
  local_process_all fuel this st = Done st' ->
  touches_only this st st' /\
  is_Some (objects st !! this) /\
  exists wq', objects st' !! this = Some wq' /\
    empty (m_local_queue wq') = true.
Proof.
  revert st. induction fuel as [|fuel IH]; intros st; simpl; [discriminate|].
  destruct (objects st !! this) as [wq|] eqn:L; [|discriminate].
  destruct (empty (m_local_queue wq)) eqn:E.
  - intros [= <-]. split; [apply touches_only_refl | eauto].
  - destruct (top (m_local_queue wq)) as [item|]; [|discriminate].
    set (st1 := {| objects := _ |}).
    destruct (insert_all this (m_work_lambda wq item) st1) as [st2| | |] eqn:I;
      simpl; try discriminate.
    intros H. destruct (IH _ H) as (T2 & _ & Q). split; [|split; [eauto|exact Q]].
    assert (T01 : touches_only this st st1).
    { split; subst st1; simpl; auto.
      - intros other Hne. apply lookup_insert_ne. congruence.
      - intros wq0 Hwq0. rewrite L in Hwq0. injection Hwq0 as <-.
        eexists. rewrite lookup_insert_eq. split; [reflexivity|].
        simpl. auto. }
    assert (A1 : is_Some (objects st1 !! this)).
    { subst st1. simpl. rewrite lookup_insert_eq. eauto. }
    apply (touches_only_trans _ _ st1); [eauto | exact T01 |].
    apply (touches_only_trans _ _ st2); [exact A1 | | exact T2].
    eapply insert_all_touches, I.
Qed.

Lemma local_process_all_step fuel this st wq item :
  objects st !! this = Some wq ->
  empty (m_local_queue wq) = false ->
  top (m_local_queue wq) = Some item ->
  local_process_all (S fuel) this st =
  do st2 <- insert_all this (m_work_lambda wq item)
              {| objects := <[this := with_queue wq (pop (m_local_queue wq))]> (objects st);
                 pre_barrier_callbacks := pre_barrier_callbacks st;
                 applied := applied st ++ [(this, item)] |};
  local_process_all fuel this st2.
Proof. intros L E T. simpl. rewrite L, E, T. reflexivity. Qed.

Lemma local_process_all_done fuel this st wq :
  objects st !! this = Some wq ->
  empty (m_local_queue wq) = true ->
  local_process_all (S fuel) this st = Done st.
Proof. intros L E. simpl. rewrite L, E. reflexivity. Qed.

(** The registered callback: after it the object's queue is empty and
    its flag is clear. *)
Lemma process_all_lambda_spec fuel this st st' :
  process_all_lambda fuel this st = Done st' ->
  (forall other, other <> this -> objects st' !! other = objects st !! other) /\
  (forall x, x ∈ pre_barrier_callbacks st -> x ∈ pre_barrier_callbacks st') /\
  (forall x, x ∈ pre_barrier_callbacks st' ->
     x ∈ pre_barrier_callbacks st \/ x = this) /\
  exists wq', objects st' !! this = Some wq' /\
    empty (m_local_queue wq') = true /\ m_callback_registered wq' = false.
Proof.
  unfold process_all_lambda.
  destruct (local_process_all fuel this st) as [st1| | |] eqn:P; simpl;
    try discriminate.
  destruct (local_process_all_spec _ _ _ _ P) as ([A B C _] & _ & wq1 & L1 & E1).
  rewrite L1. intros [= <-]. simpl. repeat split; auto.
  - intros other Hne. rewrite lookup_insert_ne by congruence. auto.
  - eexists. rewrite lookup_insert_eq. split; [reflexivity|]. simpl. auto.
Qed.


(** *** The barrier *)

Lemma barrier_no_pending fuel st st' :
  barrier fuel st = Done st' -> pre_barrier_callbacks st' = [].
Proof.
  revert st. induction fuel as [|fuel IH]; intros st; simpl; [discriminate|].
  destruct (pre_barrier_callbacks st) as [|this rest] eqn:C.
  - intros [= <-]. exact C.
  - destruct (process_all_lambda fuel this _) as [st1| | |]; simpl;
      try discriminate.
    apply IH.
Qed.

Lemma no_work_of_empty wq :
  empty (m_local_queue wq) = true -> local_has_work wq = true -> False.
Proof. unfold local_has_work. intros ->. discriminate. Qed.

Lemma barrier_armed_if_work fuel st st' :
  armed_if_work st -> barrier fuel st = Done st' -> armed_if_work st'.
Proof.
  revert st. induction fuel as [|fuel IH]; intros st I; simpl; [discriminate|].
  destruct (pre_barrier_callbacks st) as [|this rest] eqn:C.
  - intros [= <-]. exact I.
  - destruct (process_all_lambda fuel this _) as [st1| | |] eqn:P; simpl;
      try discriminate.
    apply IH.
    destruct (process_all_lambda_spec _ _ _ _ P) as (A & _ & _ & wq' & L' & E' & _).
    simpl in A. intros id wq L W.
    destruct (decide (id = this)) as [->|Hne].
    + rewrite L' in L. injection L as <-.
      destruct (no_work_of_empty _ E' W).
    + rewrite A in L by assumption. eapply I; eauto.
Qed.

Definition pending_consistent st : Prop :=
  armed_is_pending st /\ pending_alive st.

Lemma barrier_pending_consistent fuel st st' :
  pending_consistent st -> barrier fuel st = Done st' -> pending_consistent st'.
Proof.
  revert st. induction fuel as [|fuel IH]; intros st [J K]; simpl; [discriminate|].
  destruct (pre_barrier_callbacks st) as [|this rest] eqn:C.
  - intros [= <-]. split; assumption.
  - destruct (process_all_lambda fuel this _) as [st1| | |] eqn:P; simpl;
      try discriminate.
    apply IH.
    destruct (process_all_lambda_spec _ _ _ _ P) as (A & B & B' & wq' & L' & _ & F').
    simpl in A, B, B'. split.
    + intros id wq L R.
      destruct (decide (id = this)) as [->|Hne].
      * rewrite L' in L. injection L as <-. congruence.
      * rewrite A in L by assumption. apply B.
        specialize (J id wq L R).
        rewrite C in J. apply elem_of_cons in J as [?|?]; [contradiction|assumption].
    + intros x Hx. destruct (decide (x = this)) as [->|Hne]; [eauto|].
      rewrite A by assumption. apply K. rewrite C.
      destruct (B' x Hx); [|contradiction]. apply elem_of_cons. auto.
Qed.

(** After a barrier that returns, no queue of the rank holds work and no
    flag is set. *)
Lemma barrier_drains fuel st st' this wq :
  armed_if_work st -> pending_consistent st ->
  barrier fuel st = Done st' ->
  objects st' !! this = Some wq ->
  empty (m_local_queue wq) = true /\ m_callback_registered wq = false.
Proof.
  intros I JK B L.
  pose proof (barrier_no_pending _ _ _ B) as N.
  pose proof (barrier_armed_if_work _ _ _ I B) as I'.
  destruct (barrier_pending_consistent _ _ _ JK B) as [J' _].
  assert (F : m_callback_registered wq = false).
  { destruct (m_callback_registered wq) eqn:R; [|reflexivity].
    specialize (J' this wq L R).
    rewrite N in J'. inversion J'. }
  split; [|exact F].
  specialize (I' this wq L). unfold local_has_work in I'.
  destruct (empty (m_local_queue wq)); [reflexivity|].
  simpl in I'. rewrite I' in F by reflexivity. discriminate.
Qed.


(** The only release assertion of the class is the destructor's: the
    inserts, the drain and the barrier never report one. *)
Lemma insert_all_no_assert this items st :
  insert_all this items st <> AssertFail.
Proof.
  revert st. induction items as [|x items IH]; intros st; simpl; [discriminate|].
  unfold local_insert. destruct (objects st !! this) as [wq|]; [|discriminate].
  destruct (negb (m_callback_registered wq)); simpl.
  - unfold register_processing_callback.
    destruct (objects _ !! this); simpl; [apply IH | discriminate].
  - apply IH.
Qed.

Lemma local_process_all_no_assert fuel this st :
  local_process_all fuel this st <> AssertFail.
Proof.
  revert st. induction fuel as [|fuel IH]; intros st; simpl; [discriminate|].
  destruct (objects st !! this) as [wq|]; [|discriminate].
  destruct (empty (m_local_queue wq)); [discriminate|].
  destruct (top (m_local_queue wq)) as [item|]; [|discriminate].
  destruct (insert_all this _ _) as [st2| | |] eqn:I; simpl;
    try discriminate; [apply IH|].
  destruct (insert_all_no_assert _ _ _ I).
Qed.

Lemma barrier_no_assert fuel st : barrier fuel st <> AssertFail.
Proof.
  revert st. induction fuel as [|fuel IH]; intros st; simpl; [discriminate|].
  destruct (pre_barrier_callbacks st) as [|this rest]; [discriminate|].
  unfold process_all_lambda.
  destruct (local_process_all fuel this _) as [st1| | |] eqn:P; simpl;
    try discriminate.
  - destruct (objects st1 !! this); simpl; [apply IH | discriminate].
  - destruct (local_process_all_no_assert _ _ _ P).
Qed.

(** *** Every public operation keeps the invariants *)

Lemma construct_armed_if_work `{!Lawful QP} this work_fn st st' :
  armed_if_work st -> construct this work_fn st = Done st' -> armed_if_work st'.
Proof.
  intros I. unfold construct.
  destruct (objects st !! this) eqn:L; [discriminate|]. intros [= <-].
  intros id wq Hl W. simpl in Hl. by_object_in Hl id this.
  - injection Hl as <-. unfold local_has_work in W. simpl in W.
    rewrite empty_new_queue in W. discriminate.
  - eapply I; eauto.
Qed.

Lemma local_insert_armed_if_work this item st st' :
  armed_if_work st -> local_insert this item st = Done st' -> armed_if_work st'.
Proof.
  intros I. destruct (objects st !! this) as [wq0|] eqn:L.
  - rewrite (local_insert_eq _ _ _ _ L). intros [= <-].
    intros id wq Hl W. simpl in Hl. by_object_in Hl id this.
    + injection Hl as <-. reflexivity.
    + eapply I; eauto.
  - unfold local_insert. rewrite L. discriminate.
Qed.

Lemma local_process_all_armed_if_work fuel this st st' :
  armed_if_work st -> local_process_all fuel this st = Done st' ->
  armed_if_work st'.
Proof.
  intros I H.
  destruct (local_process_all_spec _ _ _ _ H) as ([A _ _ _] & _ & wq' & L' & E').
  intros id wq Hl W. destruct (decide (id = this)) as [->|Hne].
  - rewrite L' in Hl. injection Hl as <-. destruct (no_work_of_empty _ E' W).
  - rewrite A in Hl by assumption. eapply I; eauto.
Qed.

Lemma local_clear_armed_if_work `{!Lawful QP} this st st' :
  armed_if_work st -> local_clear this st = Done st' -> armed_if_work st'.
Proof.
  intros I. unfold local_clear.
  destruct (objects st !! this) as [wq0|] eqn:L; [|discriminate].
  intros [= <-]. intros id wq Hl W. simpl in Hl. by_object_in Hl id this.
  - injection Hl as <-. unfold local_has_work in W. simpl in W.
    rewrite empty_new_queue in W. discriminate.
  - eapply I; eauto.
Qed.

(** The two moves share their tail: the destination [wq] is stored, the
    source is left as [moved_from], and the callback is registered if
    the destination has work. *)
Definition finish_move (this other : nat) (wq o : work_queue Item) st
  : outcome (rank_state Item) :=
  let st1 := set_object this wq (set_object other (moved_from o) st) in
  if local_has_work wq then register_processing_callback this st1
  else Done st1.

Lemma finish_move_eq this other wq o st :
  finish_move this other wq o st =
  Done {| objects :=
            <[this := with_flag wq (m_callback_registered wq || local_has_work wq)]>
              (<[other := moved_from o]> (objects st));
          pre_barrier_callbacks :=
            pre_barrier_callbacks st ++ (if local_has_work wq then [this] else []);
          applied := applied st |}.
Proof.
  unfold finish_move. destruct (local_has_work wq) eqn:W.
  - unfold register_processing_callback, set_object. simpl.
    rewrite lookup_insert_eq, insert_insert_eq, orb_true_r. reflexivity.
  - unfold set_object. simpl. rewrite app_nil_r, orb_false_r.
    destruct wq. reflexivity.
Qed.

Lemma finish_move_armed_if_work `{!Lawful QP} this other wq o st st' :
  armed_if_work st -> finish_move this other wq o st = Done st' ->
  armed_if_work st'.
Proof.
  intros I. rewrite finish_move_eq. intros [= <-].
  intros id wq' Hl W. simpl in Hl. by_object_in Hl id this.
  - injection Hl as <-. unfold local_has_work in *. simpl in *.
    rewrite W. apply orb_true_r.
  - by_object_in Hl id other.
    + injection Hl as <-. unfold local_has_work in W. simpl in W.
      rewrite empty_new_queue in W. discriminate.
    + eapply I; eauto.
Qed.

Lemma move_construct_finish this other st st' :
  move_construct this other st = Done st' ->
  exists o, objects st !! this = None /\ objects st !! other = Some o /\
    finish_move this other
      {| m_local_queue := m_local_queue o;
         m_work_lambda := m_work_lambda o;
         m_callback_registered := false |} o st = Done st'.
Proof.
  unfold move_construct.
  destruct (objects st !! this); [discriminate|].
  destruct (objects st !! other) as [o|]; [|discriminate].
  intros H. exists o. auto.
Qed.

Lemma move_assign_finish this other st st' :
  move_assign this other st = Done st' ->
  (this = other /\ st' = st /\ is_Some (objects st !! this)) \/
  exists t o, this <> other /\
    objects st !! this = Some t /\ objects st !! other = Some o /\
    finish_move this other
      {| m_local_queue := m_local_queue o;
         m_work_lambda := m_work_lambda t;
         m_callback_registered := false |} o st = Done st'.
Proof.
  unfold move_assign. destruct (Nat.eqb_spec this other) as [E|Hne].
  - destruct (objects st !! this) eqn:L; [|discriminate].
    intros [= <-]. left. eauto.
  - destruct (objects st !! this) as [t|]; [|discriminate].
    destruct (objects st !! other) as [o|]; [|discriminate].
    intros H. right. exists t, o. auto.
Qed.

Lemma destroy_inv fuel this st st' :
  destroy fuel this st = Done st' ->
  exists st1 wq, barrier fuel st = Done st1 /\
    objects st1 !! this = Some wq /\ local_size wq = 0%nat /\
    objects st' = delete this (objects st1) /\
    pre_barrier_callbacks st' = pre_barrier_callbacks st1.
Proof.
  unfold destroy. destruct (barrier fuel st) as [st1| | |]; simpl;
    try discriminate.
  destruct (objects st1 !! this) as [wq|] eqn:L; [|discriminate].
  destruct (Nat.eqb_spec (local_size wq) 0) as [Z|]; simpl; [|discriminate].
  intros [= <-]. exists st1, wq. auto.
Qed.

Lemma run_armed_if_work `{!Lawful QP} fuel o st st' :
  armed_if_work st -> run fuel o st = Done st' -> armed_if_work st'.
Proof.
  intros I. destruct o; simpl.
  - apply construct_armed_if_work, I.
  - intros H. destruct (move_construct_finish _ _ _ _ H) as (o & _ & _ & F).
    eapply finish_move_armed_if_work; eauto.
  - intros H. destruct (move_assign_finish _ _ _ _ H)
      as [(_ & -> & _) | (t & o & _ & _ & _ & F)]; [exact I|].
    eapply finish_move_armed_if_work; eauto.
  - apply local_insert_armed_if_work, I.
  - apply local_process_all_armed_if_work, I.
  - apply local_clear_armed_if_work, I.
  - unfold clear. destruct (local_clear this st) as [st1| | |] eqn:C; simpl;
      try discriminate.
    apply barrier_armed_if_work. eapply local_clear_armed_if_work; eauto.
  - apply barrier_armed_if_work, I.
  - intros H. destruct (destroy_inv _ _ _ _ H) as (st1 & wq & B & _ & _ & O & _).
    pose proof (barrier_armed_if_work _ _ _ I B) as I1.
    intros id wq' Hl W. rewrite O in Hl. by_object_in Hl id this.
    + discriminate.
    + eapply I1; eauto.
Qed.


Lemma construct_pending_consistent this work_fn st st' :
  pending_consistent st -> construct this work_fn st = Done st' ->
  pending_consistent st'.
Proof.
  intros [J K]. unfold construct.
  destruct (objects st !! this) eqn:L; [discriminate|]. intros [= <-]. split.
  - intros id wq Hl R. simpl in *. by_object_in Hl id this.
    + injection Hl as <-. discriminate.
    + eapply J; eauto.
  - intros x Hx. simpl in *. by_object x this; eauto.
Qed.

Lemma local_insert_pending_consistent this item st st' :
  pending_consistent st -> local_insert this item st = Done st' ->
  pending_consistent st'.
Proof.
  intros [J K]. destruct (objects st !! this) as [wq0|] eqn:L.
  - rewrite (local_insert_eq _ _ _ _ L). intros [= <-]. split.
    + intros id wq Hl R. simpl in *. apply elem_of_app.
      by_object_in Hl id this.
      * destruct (m_callback_registered wq0) eqn:R0.
        -- left. eapply J; eauto.
        -- right. constructor.
      * left. eapply J; eauto.
    + intros x Hx. simpl in *. by_object x this; [eauto|].
      apply elem_of_app in Hx as [Hx|Hx]; [auto|].
      destruct (m_callback_registered wq0); [inversion Hx|].
      apply list_elem_of_singleton in Hx. contradiction.
  - unfold local_insert. rewrite L. discriminate.
Qed.

Lemma touches_only_pending_consistent this st st' :
  is_Some (objects st !! this) -> touches_only this st st' ->
  pending_consistent st -> pending_consistent st'.
Proof.
  intros [wq0 L0] [A B C D] [J K].
  destruct (D wq0 L0) as (wq' & L' & _ & _ & G). split.
  - intros id wq Hl R. destruct (decide (id = this)) as [->|Hne].
    + rewrite L' in Hl. injection Hl as <-.
      destruct (G R) as [R0|]; [|assumption]. apply B. eapply J; eauto.
    + rewrite A in Hl by assumption. apply B. eapply J; eauto.
  - intros x Hx. destruct (decide (x = this)) as [->|Hne]; [eauto|].
    rewrite A by assumption. destruct (C x Hx); [auto|contradiction].
Qed.

Lemma local_clear_pending_consistent this st st' :
  pending_consistent st -> local_clear this st = Done st' ->
  pending_consistent st'.
Proof.
  intros [J K]. unfold local_clear.
  destruct (objects st !! this) as [wq0|] eqn:L; [|discriminate].
  intros [= <-]. split.
  - intros id wq Hl R. simpl in *. by_object_in Hl id this.
    + injection Hl as <-. eapply J; eauto.
    + eapply J; eauto.
  - intros x Hx. simpl in *. by_object x this; eauto.
Qed.

Lemma finish_move_pending_consistent this other wq o st st' :
  m_callback_registered wq = false ->
  pending_consistent st -> finish_move this other wq o st = Done st' ->
  pending_consistent st'.
Proof.
  intros F [J K]. rewrite finish_move_eq. intros [= <-]. split.
  - intros id wq' Hl R. simpl in *. apply elem_of_app.
    by_object_in Hl id this.
    + injection Hl as <-. simpl in R. rewrite F in R. simpl in R. rewrite R.
      right. constructor.
    + by_object_in Hl id other.
      * injection Hl as <-. discriminate.
      * left. eapply J; eauto.
  - intros x Hx. simpl in *. by_object x this; [eauto|].
    by_object x other; [eauto|].
    apply elem_of_app in Hx as [Hx|Hx]; [auto|].
    destruct (local_has_work wq); [|inversion Hx].
    apply list_elem_of_singleton in Hx. contradiction.
Qed.

Lemma run_pending_consistent fuel o st st' :
  pending_consistent st -> run fuel o st = Done st' -> pending_consistent st'.
Proof.
  intros JK. destruct o; simpl.
  - apply construct_pending_consistent, JK.
  - intros H. destruct (move_construct_finish _ _ _ _ H) as (o & _ & _ & F).
    eapply finish_move_pending_consistent; [| |exact F]; [reflexivity|exact JK].
  - intros H. destruct (move_assign_finish _ _ _ _ H)
      as [(_ & -> & _) | (t & o & _ & _ & _ & F)]; [exact JK|].
    eapply finish_move_pending_consistent; [| |exact F]; [reflexivity|exact JK].
  - apply local_insert_pending_consistent, JK.
  - intros H. destruct (local_process_all_spec _ _ _ _ H) as (T & A & _).
    eapply touches_only_pending_consistent; eauto.
  - apply local_clear_pending_consistent, JK.
  - unfold clear. destruct (local_clear this st) as [st1| | |] eqn:C; simpl;
      try discriminate.
    apply barrier_pending_consistent. eapply local_clear_pending_consistent; eauto.
  - apply barrier_pending_consistent, JK.
  - intros H. destruct (destroy_inv _ _ _ _ H) as (st1 & wq & B & _ & _ & O & P).
    destruct (barrier_pending_consistent _ _ _ JK B) as [J1 _].
    pose proof (barrier_no_pending _ _ _ B) as N. split.
    + intros id wq' Hl R. rewrite O in Hl. rewrite P. by_object_in Hl id this.
      * discriminate.
      * eapply J1; eauto.
    + intros x Hx. rewrite P, N in Hx. inversion Hx.
Qed.

Lemma reachable_invariants `{!Lawful QP} st :
  reachable st -> armed_if_work st /\ pending_consistent st.
Proof.
  induction 1 as [|st st' fuel o _ [I JK] R].
  - split; [|split]; intros id; simpl.
    + intros wq L. rewrite lookup_empty in L. discriminate.
    + intros wq L. rewrite lookup_empty in L. discriminate.
    + intros Hx. inversion Hx.
  - split.
    + eapply run_armed_if_work; eauto.
    + eapply run_pending_consistent; eauto.
Qed.

End WithPolicy.

(** *** Draining a list-backed container

    The three policies keep their elements in a list and serve its head;
    they differ in where [push] puts an element. *)
Section Drain.
Context {Item : Type}.

Definition list_backed (pushf : list Item -> Item -> list Item)
  : QueuePolicy Item := {|
  queue_type := list Item;
  new_queue := [];
  push := pushf;
  top := fun q => head q;
  pop := fun q => tail q;
  empty := fun q => is_nil q;
  size := fun q => length q
|}.

(** A work function that inserts nothing is applied to the elements in
    the order in which the list holds them. *)
Lemma drain_list_backed pushf this (q : list Item) f r
  (st : rank_state Item (QP := list_backed pushf)) :
  (forall x, f x = []) ->
  objects st !! this = Some (Build_work_queue (QP := list_backed pushf) q f r) ->
  local_process_all (S (length q)) this st =
  Done {| objects :=
            <[this := Build_work_queue (QP := list_backed pushf) [] f r]>
              (objects st);
          pre_barrier_callbacks := pre_barrier_callbacks st;
          applied := applied st ++ map (pair this) q |}.
Proof.
  intros Hf. revert st. induction q as [|x q IH]; intros st L.
  - rewrite (local_process_all_done _ _ _ _ L eq_refl).
    simpl. rewrite app_nil_r, (insert_id _ _ _ L).
    destruct st. reflexivity.
  - cbn [length].
    rewrite (local_process_all_step _ _ _ _ x L eq_refl eq_refl).
    cbn [m_work_lambda]. rewrite Hf. cbn [insert_all Outcome.bind].
    rewrite IH by (cbn; apply lookup_insert_eq).
    cbn. rewrite insert_insert_eq, <- app_assoc. reflexivity.
Qed.

(** Construct a queue at [this], insert [items] one by one, drain. *)
Definition insert_then_drain (fuel : nat) (QP : QueuePolicy Item) (this : nat)
  (work_fn : Item -> list Item) (items : list Item)
  : outcome (rank_state Item) :=
  do st1 <- construct this work_fn initial_state;
  do st2 <- insert_all this items st1;
  local_process_all fuel this st2.

(** The queue that the drain of [insert_then_drain] starts from. *)
Lemma insert_then_drain_eq fuel (QP : QueuePolicy Item) this f (items : list Item) :
  insert_then_drain fuel QP this f items =
  match insert_all this items
          (set_object this (Build_work_queue new_queue f false) initial_state) with
  | Done st2 => local_process_all fuel this st2
  | AssertFail => AssertFail
  | Undefined => Undefined
  | OutOfFuel => OutOfFuel
  end.
Proof.
  unfold insert_then_drain, construct. cbn [objects initial_state].
  rewrite lookup_empty. cbn [Outcome.bind].
  destruct (insert_all _ _ _); reflexivity.
Qed.

Lemma insert_then_drain_list_backed pushf this f (items : list Item) :
  (forall x, f x = []) ->
  length (fold_left pushf items []) = length items ->
  exists st,
    insert_then_drain (S (length items)) (list_backed pushf) this f items
      = Done st /\
    applied st = map (pair this) (fold_left pushf items []).
Proof.
  intros Hf Hlen. unfold insert_then_drain, construct.
  cbn [objects initial_state]. rewrite lookup_empty. cbn [Outcome.bind].
  erewrite insert_all_eq by (cbn; apply lookup_insert_eq).
  cbn [Outcome.bind m_local_queue m_work_lambda m_callback_registered
       new_queue push list_backed].
  rewrite <- Hlen.
  erewrite drain_list_backed; [|exact Hf|cbn; apply lookup_insert_eq].
  eexists. split; [reflexivity|]. reflexivity.
Qed.


(** The contents of the three containers after the inserts. *)
Lemma fifo_drain this f (items : list Item) :
  (forall x, f x = []) ->
  exists st,
    insert_then_drain (S (length items)) (fifo_policy Item) this f items
      = Done st /\
    applied st = map (pair this) items.
Proof.
  intros Hf.
  destruct (insert_then_drain_list_backed (fun q x => q ++ [x]) this f items Hf)
    as (st & H & A).
  - rewrite fifo_contents. reflexivity.
  - exists st. split; [exact H|]. etransitivity; [exact A|].
    rewrite fifo_contents. reflexivity.
Qed.

Lemma lifo_drain this f (items : list Item) :
  (forall x, f x = []) ->
  exists st,
    insert_then_drain (S (length items)) (lifo_policy Item) this f items
      = Done st /\
    applied st = map (pair this) (rev items).
Proof.
  intros Hf.
  destruct (insert_then_drain_list_backed (fun q x => x :: q) this f items Hf)
    as (st & H & A).
  - rewrite lifo_contents, app_nil_r. apply length_rev.
  - exists st. split; [exact H|]. etransitivity; [exact A|].
    rewrite lifo_contents, app_nil_r. reflexivity.
Qed.

Lemma priority_drain comp this f (items : list Item) :
  (forall x y, comp x y = true -> comp y x = false) ->
  (forall x y z, comp x y = false -> comp y z = false -> comp x z = false) ->
  (forall x, f x = []) ->
  exists st served,
    insert_then_drain (S (length items)) (priority_policy Item comp) this f items
      = Done st /\
    applied st = map (pair this) served /\
    Permutation served items /\
    StronglySorted (not_before comp) served.
Proof.
  intros Ha Ht Hf.
  destruct (priority_contents comp Ha Ht items [] (SSorted_nil _)) as [HP HS].
  rewrite app_nil_r in HP.
  destruct (insert_then_drain_list_backed
              (fun q x => pq_insert comp x q) this f items Hf) as (st & H & A).
  - apply Permutation_length, HP.
  - exists st, (fold_left (fun q x => pq_insert comp x q) items []).
    split; [exact H|]. split; [exact A|]. split; [exact HP | exact HS].
Qed.

End Drain.

Section Lifecycle.
Context {Item : Type} {QP : QueuePolicy Item} {QL : Lawful QP}.
Implicit Types (st : rank_state Item) (wq : work_queue Item).

Lemma reachable_barrier_drains st fuel st' this wq :
  reachable st ->
  barrier fuel st = Done st' ->
  objects st' !! this = Some wq ->
  empty (m_local_queue wq) = true /\ local_size wq = 0%nat /\
  m_callback_registered wq = false.
Proof.
  intros R B L. destruct (reachable_invariants st R) as [I JK].
  destruct (barrier_drains _ _ _ _ _ I JK B L) as [E F].
  split; [exact E|]. split; [|exact F]. apply empty_size, E.
Qed.

(** C7: after a barrier that completes, every work queue of the rank has
    an empty local container and [m_callback_registered == false],
    whatever the work functions inserted during the drain. *)
Theorem barrier_leaves_queues_empty st fuel st' this wq :
  reachable st ->
  barrier fuel st = Done st' ->
  objects st' !! this = Some wq ->
  empty (m_local_queue wq) = true /\ local_size wq = 0%nat /\
  m_callback_registered wq = false.
Proof. apply reachable_barrier_drains. Qed.

(** The two moves, on distinct objects: what they transfer and what they
    leave behind.  [keeps_lambda_of] names the object whose work function
    the destination holds afterwards. *)
Definition moved (this other : nat) (keeps_lambda_of : work_queue Item)
  (o : work_queue Item) st st' : Prop :=
  exists wq src,
    objects st' !! this = Some wq /\
    objects st' !! other = Some src /\
    m_local_queue wq = m_local_queue o /\
    m_work_lambda wq = m_work_lambda keeps_lambda_of /\
    m_callback_registered wq = local_has_work o /\
    pre_barrier_callbacks st' =
      pre_barrier_callbacks st ++ (if local_has_work o then [this] else []) /\
    empty (m_local_queue src) = true /\
    m_callback_registered src = false.

Lemma finish_move_moved this other t o st st' :
  this <> other ->
  finish_move this other
    {| m_local_queue := m_local_queue o;
       m_work_lambda := m_work_lambda t;
       m_callback_registered := false |} o st = Done st' ->
  moved this other t o st st'.
Proof using QL.
  intros Hne. rewrite finish_move_eq. intros [= <-].
  eexists _, _. simpl.
  rewrite lookup_insert_eq, lookup_insert_ne, lookup_insert_eq by congruence.
  split; [reflexivity|]. split; [reflexivity|]. simpl.
  repeat split. apply empty_new_queue.
Qed.

(** C9 (as the code has it): the move constructor transfers the container
    and the work function; the move assignment between two distinct
    objects transfers the container only, the destination keeps its own
    work function.  Both register the destination's callback exactly when
    the transferred container holds work, and leave the source with an
    empty container and a clear flag. *)
Theorem moves_transfer_container this other st st' :
  (move_construct this other st = Done st' ->
   exists o, objects st !! other = Some o /\ moved this other o o st st') /\
  (this <> other -> move_assign this other st = Done st' ->
   exists t o, objects st !! this = Some t /\ objects st !! other = Some o /\
     moved this other t o st st').
Proof using QL.
  split.
  - intros H. destruct (move_construct_finish _ _ _ _ H) as (o & N & L & F).
    exists o. split; [exact L|].
    apply (finish_move_moved this other o o); [congruence | exact F].
  - intros Hne H. destruct (move_assign_finish _ _ _ _ H)
      as [(E & _) | (t & o & _ & Lt & Lo & F)]; [contradiction|].
    exists t, o. split; [exact Lt|]. split; [exact Lo|].
    apply finish_move_moved; assumption.
Qed.

Lemma barrier_keeps_objects this fuel : forall st st1 wq,
  barrier fuel st = Done st1 -> objects st !! this = Some wq ->
  is_Some (objects st1 !! this).
Proof.
  induction fuel as [|fuel IH]; intros st st1 wq; simpl; [discriminate|].
  destruct (pre_barrier_callbacks st) as [|c rest].
  - intros [= <-]. eauto.
  - destruct (process_all_lambda fuel c _) as [st2| | |] eqn:P; simpl;
      try discriminate.
    intros B L.
    destruct (process_all_lambda_spec _ _ _ _ P) as (A & _ & _ & wq' & L' & _).
    simpl in A. destruct (decide (this = c)) as [->|Hne].
    + eapply IH; eauto.
    + rewrite <- A in L by assumption. eapply IH; eauto.
Qed.

Lemma destroy_no_assert fuel this st :
  reachable st -> destroy fuel this st <> AssertFail.
Proof.
  intros R. unfold destroy.
  destruct (barrier fuel st) as [st1| | |] eqn:B; simpl; try discriminate.
  - destruct (objects st1 !! this) as [wq|] eqn:L; [|discriminate].
    destruct (reachable_barrier_drains st fuel st1 this wq R B L) as (_ & Z & _).
    rewrite Z. discriminate.
  - destruct (barrier_no_assert _ _ B).
Qed.

Lemma destroy_returns fuel this st st1 :
  reachable st -> barrier fuel st = Done st1 ->
  is_Some (objects st !! this) ->
  exists st', destroy fuel this st = Done st'.
Proof.
  intros R B [wq0 L0]. unfold destroy. rewrite B. simpl.
  destruct (barrier_keeps_objects this fuel st st1 wq0 B L0) as [wq L].
  destruct (reachable_barrier_drains st fuel st1 this wq R B L) as (_ & Z & _).
  rewrite L, Z. simpl. eauto.
Qed.

(** *** Termination when no work function inserts *)

Definition quiet st : Prop :=
  forall this wq, objects st !! this = Some wq ->
    forall x, m_work_lambda wq x = [].

Definition sizes_below (bound : nat) st : Prop :=
  forall this wq, objects st !! this = Some wq -> (local_size wq <= bound)%nat.

Lemma local_process_all_quiet this fuel : forall st wq,
  objects st !! this = Some wq ->
  (forall x, m_work_lambda wq x = []) ->
  (size (m_local_queue wq) < fuel)%nat ->
  exists q' log,
    local_process_all fuel this st =
    Done {| objects := <[this := with_queue wq q']> (objects st);
            pre_barrier_callbacks := pre_barrier_callbacks st;
            applied := log |} /\
    size q' = 0%nat.
Proof.
  induction fuel as [|fuel IH]; intros st wq L Hf Hs; [lia|].
  destruct (empty (m_local_queue wq)) eqn:E.
  - rewrite (local_process_all_done _ _ _ _ L E).
    exists (m_local_queue wq), (applied st). split.
    + destruct st as [objs cbs log], wq as [q f r]. simpl in *.
      unfold with_queue. simpl. rewrite (insert_id _ _ _ L). reflexivity.
    + apply empty_size, E.
  - destruct (top_nonempty _ E) as [item Ht].
    rewrite (local_process_all_step _ _ _ _ item L E Ht), Hf.
    cbn [insert_all Outcome.bind].
    pose proof (size_pop _ E) as Hp.
    match goal with
    | |- context [local_process_all fuel this ?s] =>
        destruct (IH s (with_queue wq (pop (m_local_queue wq))))
          as (q' & log & Hr & Hz)
    end.
    + simpl. apply lookup_insert_eq.
    + exact Hf.
    + simpl. lia.
    + rewrite Hr. exists q', log. split; [|exact Hz].
      simpl. rewrite insert_insert_eq. reflexivity.
Qed.

Lemma barrier_quiet fuel : forall st (bound : nat),
  quiet st -> sizes_below bound st -> pending_alive st ->
  (length (pre_barrier_callbacks st) + bound < fuel)%nat ->
  exists st', barrier fuel st = Done st'.
Proof.
  induction fuel as [|fuel IH]; intros st bound Q S K F; [lia|].
  simpl. destruct (pre_barrier_callbacks st) as [|this rest] eqn:C; [eauto|].
  destruct (K this) as [wq L]; [rewrite C; constructor|].
  simpl in F. unfold process_all_lambda.
  match goal with
  | |- context [local_process_all fuel this ?s] =>
      destruct (local_process_all_quiet this fuel s wq)
        as (q' & log & Hr & Hz)
  end.
  - simpl. exact L.
  - exact (Q this wq L).
  - specialize (S this wq L). unfold local_size in S. lia.
  - rewrite Hr. cbn [Outcome.bind objects]. rewrite lookup_insert_eq.
    cbn [Outcome.bind]. apply (IH _ bound).
    + intros id wq' Hl. simpl in Hl. rewrite insert_insert_eq in Hl.
      by_object_in Hl id this; [injection Hl as <-; exact (Q this wq L)|].
      exact (Q id wq' Hl).
    + intros id wq' Hl. simpl in Hl. rewrite insert_insert_eq in Hl.
      by_object_in Hl id this.
      * injection Hl as <-. unfold local_size. simpl. lia.
      * exact (S id wq' Hl).
    + intros x Hx. simpl in *. by_object x this; [eauto|].
      apply K. rewrite C. apply elem_of_cons. auto.
    + simpl. lia.
Qed.

End Lifecycle.


(** *** Concrete runs *)

(** A work function that re-enters: visiting [x < 3] inserts [x + 1]. *)
Definition count_to_three (x : nat) : list nat :=
  if (x <? 3)%nat then [S x] else [].

(** One FIFO queue at address 1, after [local_insert(0)]. *)
Definition one_queue : rank_state nat (QP := fifo_policy nat) :=
  {| objects := {[ 1%nat := Build_work_queue (QP := fifo_policy nat)
                              [0%nat] count_to_three true ]};
     pre_barrier_callbacks := [1%nat];
     applied := [] |}.

(** The same queue right after its construction. *)
Definition new_queue_at_1 : rank_state nat (QP := fifo_policy nat) :=
  {| objects := {[ 1%nat := Build_work_queue (QP := fifo_policy nat)
                              [] count_to_three false ]};
     pre_barrier_callbacks := [];
     applied := [] |}.

Lemma one_queue_reachable : reachable one_queue.
Proof.
  apply (reach_step new_queue_at_1 one_queue 0 (OpLocalInsert 1 0)).
  - apply (reach_step initial_state new_queue_at_1 0
             (OpConstruct 1 count_to_three)).
    + apply reach_init.
    + reflexivity.
  - reflexivity.
Qed.

Lemma barrier_leaves_queues_empty_witness :
  exists st' wq,
    barrier 10 one_queue = Done st' /\
    applied st' = [(1, 0); (1, 1); (1, 2); (1, 3)]%nat /\
    objects st' !! 1%nat = Some wq /\
    empty (m_local_queue wq) = true /\ local_size wq = 0%nat /\
    m_callback_registered wq = false.
Proof.
  eexists _, _.
  split; [reflexivity|]. split; [reflexivity|]. split; [reflexivity|].
  eapply (barrier_leaves_queues_empty one_queue 10 _ 1%nat _ one_queue_reachable);
    reflexivity.
Defined.


(** Two FIFO queues: the one at address 1 is empty and re-enters, the one
    at address 2 holds the item 0 and inserts nothing. *)
Definition two_queues : rank_state nat (QP := fifo_policy nat) :=
  {| objects :=
       {[ 1%nat := Build_work_queue (QP := fifo_policy nat)
                     [] count_to_three false;
          2%nat := Build_work_queue (QP := fifo_policy nat)
                     [0%nat] (fun _ => []) true ]};
     pre_barrier_callbacks := [2%nat];
     applied := [] |}.

(** C9 fails for the move assignment: after [wq1 = std::move(wq2)] the
    destination holds the source's item but still its own work function
    (at 0 it inserts 1, the source's inserts nothing), and the next
    barrier applies that one: 0, 1, 2, 3 are visited, not 0 alone. *)
Lemma move_assign_keeps_own_lambda :
  exists st' wq o st'',
    move_assign 1 2 two_queues = Done st' /\
    objects st' !! 1%nat = Some wq /\
    objects two_queues !! 2%nat = Some o /\
    m_local_queue wq = m_local_queue o /\
    m_work_lambda o 0%nat = [] /\
    m_work_lambda wq 0%nat = [1%nat] /\
    barrier 10 st' = Done st'' /\
    applied st'' = [(1, 0); (1, 1); (1, 2); (1, 3)]%nat.
Proof.
  eexists _, _, _, _. repeat (split; [reflexivity|]). reflexivity.
Qed.

Lemma moves_transfer_container_witness :
  (exists st' o, move_construct 3 2 two_queues = Done st' /\
     objects two_queues !! 2%nat = Some o /\ moved 3 2 o o two_queues st') /\
  (exists st' t o, move_assign 1 2 two_queues = Done st' /\
     objects two_queues !! 1%nat = Some t /\
     objects two_queues !! 2%nat = Some o /\ moved 1 2 t o two_queues st').
Proof.
  split.
  - eexists _, _. split; [reflexivity|].
    destruct (proj1 (moves_transfer_container (QL := fifo_lawful nat)
                       3 2 two_queues _) eq_refl) as (o & L & M).
    injection L as <-. split; [reflexivity | exact M].
  - eexists _, _, _. split; [reflexivity|].
    destruct (proj2 (moves_transfer_container (QL := fifo_lawful nat)
                       1 2 two_queues _) ltac:(discriminate) eq_refl)
      as (t & o & Lt & Lo & M).
    injection Lt as <-. injection Lo as <-.
    split; [reflexivity|]. split; [reflexivity | exact M].
Defined.

(** One FIFO queue at address 1 that holds 0 and 1 and whose work
    function inserts nothing. *)
Definition plain_queue (q : list nat) (armed : bool)
  : rank_state nat (QP := fifo_policy nat) :=
  {| objects := {[ 1%nat := Build_work_queue (QP := fifo_policy nat)
                              q (fun _ => []) armed ]};
     pre_barrier_callbacks := if armed then [1%nat] else [];
     applied := [] |}.

Lemma plain_queue_reachable : reachable (plain_queue [0; 1]%nat true).
Proof.
  apply (reach_step (plain_queue [0%nat] true) _ 0 (OpLocalInsert 1 1));
    [|reflexivity].
  apply (reach_step (plain_queue [] false) _ 0 (OpLocalInsert 1 0));
    [|reflexivity].
  apply (reach_step initial_state _ 0 (OpConstruct 1 (fun _ => [])));
    [apply reach_init | reflexivity].
Qed.

Lemma plain_queue_quiet q armed :
  quiet (plain_queue q armed) /\ sizes_below (length q) (plain_queue q armed).
Proof.
  split; intros this wq L; simpl in L;
    apply lookup_singleton_Some in L as [_ <-]; reflexivity.
Qed.

End WorkQueueFacts.

(** ** The alias table *)
Module AliasTableFacts.
Import Policy Double AliasTable.

(** *** Facts that hold in any arithmetic *)
Section AnyArith.
Context {Item : Type} {D : Type} {AR : Arith D}.
Implicit Types (w : walk Item D) (items : list (item Item D)).

(** Every message is addressed below [nranks]. *)
Definition addressed_below (nranks : Z) (m : Z * list (item Item D)) : Prop :=
  (fst m < nranks)%Z.

Lemma walk_step_addressed nranks target local_item rest w :
  Forall (addressed_below nranks) (sent w) ->
  Forall (addressed_below nranks)
    (sent (walk_step nranks target local_item rest w)).
Proof.
  intros H. unfold walk_step. destruct (fills _ _ _); simpl; [|exact H].
  destruct (Z.ltb_spec (dest_rank w) nranks); [|exact H].
  apply Forall_app. split; [exact H|]. constructor; [assumption|constructor].
Qed.

Lemma walk_loop_addressed fuel nranks target w w' :
  Forall (addressed_below nranks) (sent w) ->
  walk_loop fuel nranks target w = Done w' ->
  Forall (addressed_below nranks) (sent w').
Proof.
  revert w. induction fuel as [|fuel IH]; intros w H; simpl;
    destruct (m_local_items w) as [|local_item rest];
    try discriminate; try (intros [= <-]; exact H).
  apply IH, walk_step_addressed, H.
Qed.

Lemma flush_addressed nranks w :
  Forall (addressed_below nranks) (sent w) ->
  Forall (addressed_below nranks) (flush nranks w).
Proof.
  intros H. unfold flush. destruct (negb _); simpl; [|exact H].
  destruct (Z.ltb_spec (dest_rank w) nranks); [|exact H].
  apply Forall_app. split; [exact H|]. constructor; [assumption|constructor].
Qed.

(** Past the last rank nothing is sent: the batch is dropped. *)
Lemma walk_step_dropped nranks target local_item rest w :
  (nranks <= dest_rank w)%Z ->
  sent (walk_step nranks target local_item rest w) = sent w.
Proof.
  intros H. unfold walk_step. destruct (fills _ _ _); simpl; [|reflexivity].
  destruct (Z.ltb_spec (dest_rank w) nranks); [lia | reflexivity].
Qed.

Lemma flush_dropped nranks w :
  (nranks <= dest_rank w)%Z -> flush nranks w = sent w.
Proof.
  intros H. unfold flush.
  destruct (Z.ltb_spec (dest_rank w) nranks); [lia|].
  rewrite andb_false_r. reflexivity.
Qed.

Lemma walk_loop_dropped fuel nranks target : forall w w',
  (nranks <= dest_rank w)%Z ->
  walk_loop fuel nranks target w = Done w' ->
  sent w' = sent w /\ (nranks <= dest_rank w')%Z.
Proof.
  induction fuel as [|fuel IH]; intros w w' H; simpl;
    destruct (m_local_items w) as [|local_item rest];
    try discriminate; try (intros [= <-]; split; [reflexivity | exact H]).
  intros L. apply IH in L.
  - rewrite walk_step_dropped in L by exact H. exact L.
  - unfold walk_step. destruct (fills _ _ _); simpl; lia.
Qed.

(** The destination only moves forward, by one per filled rank. *)
Lemma walk_step_dest_rank nranks target local_item rest w :
  dest_rank (walk_step nranks target local_item rest w) =
  if fills target (curr_weight w) local_item
  then (dest_rank w + 1)%Z else dest_rank w.
Proof. unfold walk_step. destruct (fills _ _ _); reflexivity. Qed.

(** *** build_local_alias_table *)

Lemma classify_length_acc avg_weight items acc :
  let r := fold_left
    (fun '(light_items, heavy_items) itm =>
       if ltb (weight itm) avg_weight
       then (itm :: light_items, heavy_items)
       else (light_items, itm :: heavy_items)) items acc in
  (length (fst r) + length (snd r) =
   length (fst acc) + length (snd acc) + length items)%nat.
Proof.
  revert acc. induction items as [|itm items IH]; intros [l h]; simpl.
  - lia.
  - destruct (ltb (weight itm) avg_weight); rewrite IH; simpl; lia.
Qed.

Lemma classify_length avg_weight items :
  (length (fst (classify avg_weight items))
   + length (snd (classify avg_weight items)) = length items)%nat.
Proof. unfold classify. rewrite classify_length_acc. reflexivity. Qed.

(** Each round of the pairing loop emits one bucket and takes one item
    out of the two vectors. *)
Lemma pair_up_length avg_weight (light_items heavy_items : list (item Item D))
  (table : list (table_item Item D)) :
  let '(table', light', heavy') :=
    pair_up avg_weight light_items heavy_items table in
  (length table' + length light' + length heavy' =
   length table + length light_items + length heavy_items)%nat.
Proof.
  funelim (pair_up avg_weight light_items heavy_items table);
    simp pair_up; simpl; try lia.
  - destruct (pair_up _ _ _ _) as [[t' l'] h'].
    rewrite length_app in H. simpl in *. lia.
  - destruct (pair_up _ _ _ _) as [[t' l'] h'].
    rewrite length_app in H. simpl in *. lia.
Qed.

(** C6: after the Vose construction the local alias table has as many
    buckets as the rank has items, however the items fall into heavy and
    light. *)
Theorem alias_table_length (default_item : Item) items :
  length (build_local_alias_table default_item items) = length items.
Proof.
  unfold build_local_alias_table.
  pose proof (classify_length (average items) items) as C.
  destruct (classify (average items) items) as [light heavy].
  pose proof (pair_up_length (average items) light heavy []) as P.
  destruct (pair_up (average items) light heavy []) as [[table l'] h'].
  unfold flush_items. rewrite !length_app, !length_map.
  simpl in *. lia.
Qed.


(** *** async_sample *)

(** Equal numbers are not ordered: the one fact about the comparisons
    that the sampler needs. *)
Class Ordered : Prop := {
  eqb_not_ltb : forall x y : D, eqb x y = true -> ltb x y = false
}.

(** C5: after a bucket [(p, a, b)] is drawn, if [p < avg_weight] a number
    [f] is drawn from the weight distribution and [b] is selected exactly
    when [f > p], [a] otherwise; if [p == avg_weight] then [a] is
    selected, and no number is drawn. *)
Theorem sample_selects `{!Ordered} {Rng : Type}
  (index_dist : nat -> Rng -> nat * Rng) (weight_dist : D -> Rng -> D * Rng)
  (t : alias_table Item D) (m_rng rng1 rng2 : Rng) (i : nat)
  (bucket : table_item Item D) (f : D) :
  index_dist (length (m_local_alias_table t)) m_rng = (i, rng1) ->
  nth_error (m_local_alias_table t) i = Some bucket ->
  weight_dist (m_avg_weight t) rng1 = (f, rng2) ->
  (ltb (p bucket) (m_avg_weight t) = true ->
   sample_wrapper index_dist weight_dist t m_rng =
   Some (if ltb (p bucket) f then b bucket else a bucket, rng2)) /\
  (eqb (p bucket) (m_avg_weight t) = true ->
   sample_wrapper index_dist weight_dist t m_rng = Some (a bucket, rng1)).
Proof.
  intros Hi Hb Hf. unfold sample_wrapper. rewrite Hi, Hb. split.
  - intros ->. rewrite Hf. destruct (ltb (p bucket) f); reflexivity.
  - intros E. rewrite (eqb_not_ltb _ _ E). reflexivity.
Qed.

End AnyArith.

#[global] Instance exact_ordered : Ordered (AR := exact).
Proof.
  split. simpl. intros x y E. apply Qeq_bool_iff in E.
  apply negb_false_iff, Qle_bool_iff. rewrite E. apply Qle_refl.
Qed.

#[global] Instance binary64_ordered : Ordered (AR := binary64).
Proof.
  split. simpl. unfold SFeqb, SFltb. intros x y.
  destruct (SFcompare x y) as [[]|]; congruence.
Qed.

(** A table of two buckets over the average weight 1: a bucket
    [(1/2, 10, 20)] and a boundary bucket [(1, 30, 0)].  The engine is a
    counter; the index distribution returns it modulo the size, the
    weight distribution returns 3/4. *)
Definition two_buckets : alias_table nat Q :=
  {| m_local_alias_table :=
       [ {| p := 1 # 2; a := 10%nat; b := 20%nat |};
         {| p := 1%Q; a := 30%nat; b := 0%nat |} ];
     m_avg_weight := 1%Q |}.

Definition counter_index (n : nat) (rng : nat) : nat * nat :=
  ((rng mod n)%nat, S rng).

Definition constant_weight (avg_weight : Q) (rng : nat) : Q * nat :=
  (3 # 4, S rng).

Lemma sample_selects_witness :
  sample_wrapper (AR := exact) counter_index constant_weight two_buckets 0%nat
    = Some (20%nat, 2%nat) /\
  sample_wrapper (AR := exact) counter_index constant_weight two_buckets 1%nat
    = Some (30%nat, 2%nat).
Proof.
  split.
  - apply (proj1 (sample_selects (AR := exact) counter_index constant_weight
             two_buckets 0%nat 1%nat 2%nat 0%nat
             {| p := 1 # 2; a := 10%nat; b := 20%nat |} (3 # 4)
             eq_refl eq_refl eq_refl)).
    reflexivity.
  - apply (proj2 (sample_selects (AR := exact) counter_index constant_weight
             two_buckets 1%nat 2%nat 3%nat 1%nat
             {| p := 1%Q; a := 30%nat; b := 0%nat |} (3 # 4)
             eq_refl eq_refl eq_refl)).
    reflexivity.
Defined.


(** *** Exact arithmetic: sums of weights *)
Section ExactSums.
Context {Item : Type} `{EqDecision Item}.
#[local] Existing Instance exact.
Local Open Scope Q_scope.
Implicit Types (items : list (item Item Q)) (msgs : list (Z * list (item Item Q))).

Definition total items : Q :=
  fold_right (fun itm acc => weight itm + acc) 0 items.

Definition nonneg items : Prop := Forall (fun itm => 0 <= weight itm) items.

(** The weight the fragments of [items] carry for the id [x]. *)
Definition weight_of (x : Item) items : Q :=
  total (List.filter (fun itm => bool_decide (id itm = x)) items).

Definition payload msgs : list (item Item Q) := concat (map snd msgs).

(** The weight addressed to rank [d]. *)
Definition sent_to (d : Z) msgs : Q :=
  total (payload (List.filter (fun m => (fst m =? d)%Z) msgs)).

Lemma total_app items1 items2 :
  total (items1 ++ items2) == total items1 + total items2.
Proof. induction items1 as [|x l IH]; simpl; [|rewrite IH]; ring. Qed.

Lemma fold_left_total items (acc : Q) :
  fold_left (fun acc itm => acc + weight itm) items acc == acc + total items.
Proof.
  revert acc. induction items as [|x l IH]; intros acc; simpl.
  - ring.
  - rewrite IH. ring.
Qed.

Lemma local_weight_total items : local_weight items == total items.
Proof. unfold local_weight. simpl. rewrite fold_left_total. ring. Qed.

Lemma total_nonneg items : nonneg items -> 0 <= total items.
Proof. induction 1 as [|x l Hx _ IH]; simpl; lra. Qed.

Lemma nonneg_app items1 items2 :
  nonneg items1 -> nonneg items2 -> nonneg (items1 ++ items2).
Proof. intros. apply Forall_app. auto. Qed.

Lemma weight_of_cons x itm items :
  weight_of x (itm :: items) ==
  (if bool_decide (id itm = x) then weight itm else 0) + weight_of x items.
Proof.
  unfold weight_of. simpl. destruct (bool_decide (id itm = x)); simpl; ring.
Qed.

Lemma weight_of_nil x : weight_of x [] = 0.
Proof. reflexivity. Qed.

Lemma payload_one (d : Z) (batch : list (item Item Q)) :
  payload [(d, batch)] = batch.
Proof. unfold payload. simpl. apply app_nil_r. Qed.

Lemma weight_of_app x items1 items2 :
  weight_of x (items1 ++ items2) == weight_of x items1 + weight_of x items2.
Proof.
  unfold weight_of. rewrite List.filter_app. apply total_app.
Qed.

Lemma weight_of_bounds x items :
  nonneg items -> 0 <= weight_of x items <= total items.
Proof.
  induction 1 as [|itm l Hx _ IH]; simpl.
  - unfold weight_of. simpl. lra.
  - rewrite weight_of_cons. destruct (bool_decide (id itm = x)); lra.
Qed.

Lemma payload_app msgs1 msgs2 :
  payload (msgs1 ++ msgs2) = payload msgs1 ++ payload msgs2.
Proof. unfold payload. rewrite map_app, concat_app. reflexivity. Qed.

Lemma sent_to_app d msgs1 msgs2 :
  sent_to d (msgs1 ++ msgs2) == sent_to d msgs1 + sent_to d msgs2.
Proof.
  unfold sent_to. rewrite List.filter_app, payload_app. apply total_app.
Qed.

Lemma sent_to_one d d' (batch : list (item Item Q)) :
  sent_to d [(d', batch)] == if (d' =? d)%Z then total batch else 0.
Proof.
  unfold sent_to, payload. simpl. destruct (d' =? d)%Z; simpl.
  - rewrite app_nil_r. reflexivity.
  - reflexivity.
Qed.

Lemma sent_to_none d msgs :
  Forall (fun m => fst m <> d) msgs -> sent_to d msgs == 0.
Proof.
  induction 1 as [|[d' b] l Hx _ IH]; [reflexivity|].
  change ((d', b) :: l) with ([(d', b)] ++ l).
  rewrite sent_to_app, sent_to_one, IH. simpl in Hx.
  destruct (Z.eqb_spec d' d); [contradiction | ring].
Qed.

(** *** Exact arithmetic: quotient and remainder of the prefix *)

Lemma Qtrunc_fmod (P T : Q) :
  0 <= P -> 0 < T ->
  (0 <= Qtrunc (P / T))%Z /\
  inject_Z (Qtrunc (P / T)) * T + Qfmod P T == P /\
  0 <= Qfmod P T < T.
Proof.
  intros HP HT.
  assert (HX : 0 <= P / T) by (apply Qle_shift_div_l; lra).
  unfold Qfmod, Qtrunc. apply Qle_bool_iff in HX as HB. rewrite HB.
  pose proof (Qfloor_le (P / T)) as L.
  pose proof (Qlt_floor (P / T)) as U.
  rewrite inject_Z_plus in U. change (inject_Z 1) with 1 in U.
  assert (E : P / T * T == P) by (field; lra).
  set (f := inject_Z (Qfloor (P / T))) in *.
  assert (L' : f * T <= P / T * T) by (apply Qmult_le_compat_r; lra).
  assert (U' : P / T * T < (f + 1) * T) by (apply Qmult_lt_compat_r; lra).
  split; [|split].
  - assert (0 <= Qfloor (P / T))%Z; [|assumption].
    apply Qfloor_resp_le in HX. exact HX.
  - ring.
  - lra.
Qed.

End ExactSums.


(** *** Exact arithmetic: the walk of one rank

    The rank's items [items0] occupy the interval of global weight that
    starts at its prefix [d0 * T + c0] and ends at [E], and [E] does not
    exceed the total [nranks * T]. *)
Section ExactWalk.
Context {Item : Type} `{EqDecision Item}.
#[local] Existing Instance exact.
Local Open Scope Q_scope.

Variables (nranks : Z) (T : Q) (d0 : Z) (c0 : Q) (E : Q).
Variable items0 : list (item Item Q).
Hypothesis T_pos : 0 < T.
Hypothesis c0_range : 0 <= c0 < T.
Hypothesis E_fits : E <= inject_Z nranks * T.

(** What the first destination rank already holds from earlier ranks. *)
Definition carried (d : Z) : Q := if (d =? d0)%Z then c0 else 0.

Record walk_inv (w : walk Item Q) : Prop := {
  inv_curr : 0 <= curr_weight w < T;
  inv_todo : nonneg (m_local_items w);
  inv_pending : nonneg (items_to_send w);
  inv_offset :
    inject_Z (dest_rank w) * T + curr_weight w + total (m_local_items w) == E;
  inv_dest : (d0 <= dest_rank w)%Z;
  inv_pending_total :
    total (items_to_send w) == curr_weight w - carried (dest_rank w);
  inv_sent_range : Forall (fun m => (d0 <= fst m < dest_rank w)%Z) (sent w);
  inv_sent_to : forall d, (d0 <= d < dest_rank w)%Z ->
    sent_to d (sent w) == T - carried d;
  inv_weight_of : forall x,
    weight_of x (payload (sent w)) + weight_of x (items_to_send w)
      + weight_of x (m_local_items w) == weight_of x items0
}.

Lemma Qeq_bool_false (x y : Q) : Qeq_bool x y = false -> ~ x == y.
Proof. intros H E'. apply Qeq_bool_iff in E'. congruence. Qed.

Lemma Qle_bool_false (x y : Q) : Qle_bool x y = false -> y < x.
Proof.
  intros H. apply Qnot_le_lt. intros L. apply Qle_bool_iff in L. congruence.
Qed.

Lemma carried_next d : (d0 <= d)%Z -> carried (d + 1) = 0.
Proof. intros H. unfold carried. destruct (Z.eqb_spec (d + 1) d0); [lia|reflexivity]. Qed.

Lemma sent_range_next (d : Z) msgs batch :
  Forall (fun m : Z * list (item Item Q) => (d0 <= fst m < d)%Z) msgs ->
  (d0 <= d)%Z ->
  Forall (fun m : Z * list (item Item Q) => (d0 <= fst m < d + 1)%Z)
    (msgs ++ [(d, batch)]).
Proof.
  intros H Hd. apply Forall_app. split.
  - eapply Forall_impl; [exact H|]. simpl. intros m ?. lia.
  - constructor; [simpl; lia | constructor].
Qed.

Lemma sent_to_next (d dest : Z) msgs batch :
  Forall (fun m : Z * list (item Item Q) => (d0 <= fst m < dest)%Z) msgs ->
  (forall d, (d0 <= d < dest)%Z -> sent_to d msgs == T - carried d) ->
  total batch == T - carried dest ->
  (d0 <= d < dest + 1)%Z ->
  sent_to d (msgs ++ [(dest, batch)]) == T - carried d.
Proof.
  intros Hr Hs Hb Hd. rewrite sent_to_app, sent_to_one.
  destruct (Z.eqb_spec dest d) as [->|Hne].
  - rewrite sent_to_none, Hb; [ring|].
    eapply Forall_impl; [exact Hr|]. simpl. intros m ?. lia.
  - rewrite Hs by lia. ring.
Qed.

Lemma walk_step_inv w local_item rest :
  walk_inv w -> m_local_items w = local_item :: rest ->
  walk_inv (walk_step nranks T local_item rest w).
Proof.
  intros [Hc Ht Hp Ho Hd Hpt Hsr Hst Hw] Hm. rewrite Hm in *.
  apply Forall_cons in Ht as [Hw0 Hrest].
  pose proof (total_nonneg _ Hrest) as Hr0. simpl in Ho.
  unfold walk_step, fills. cbn [leb add sub eqb zero exact].
  destruct (Qle_bool T (curr_weight w + weight local_item)) eqn:F.
  - apply Qle_bool_iff in F.
    assert (G : (dest_rank w < nranks)%Z).
    { assert (inject_Z (dest_rank w) + 1 <= inject_Z nranks) by nra.
      assert (dest_rank w + 1 <= nranks)%Z; [|lia].
      rewrite Zle_Qle, inject_Z_plus. assumption. }
    apply Z.ltb_lt in G. rewrite G.
    set (rem := curr_weight w + weight local_item - T) in *.
    assert (R0 : 0 <= rem) by (unfold rem; lra).
    assert (B : total (items_to_send w ++
                  [{| id := id local_item; weight := weight local_item - rem |}])
                == T - carried (dest_rank w)).
    { rewrite total_app, Hpt. simpl. unfold rem. ring. }
    destruct (Qle_bool T rem) eqn:S.
    + apply Qle_bool_iff in S. change (Qeq_bool 0 0) with true.
      split; cbn [m_local_items curr_weight dest_rank items_to_send sent negb].
      * lra.
      * apply nonneg_app; [assumption|]. repeat constructor. exact R0.
      * constructor.
      * rewrite total_app, inject_Z_plus. simpl. unfold rem in *.
        change (inject_Z 1) with 1. lra.
      * lia.
      * rewrite carried_next by assumption. simpl. ring.
      * apply sent_range_next; assumption.
      * intros d Hd'. apply sent_to_next; assumption.
      * intros x. specialize (Hw x).
        rewrite payload_app, payload_one in *.
        rewrite ?weight_of_app, ?weight_of_cons, ?weight_of_nil in *.
        simpl in *. destruct (bool_decide (id local_item = x)); lra.
    + apply Qle_bool_false in S.
      destruct (Qeq_bool rem 0) eqn:Z0.
      * apply Qeq_bool_iff in Z0.
        split; cbn [m_local_items curr_weight dest_rank items_to_send sent negb].
        -- lra.
        -- assumption.
        -- constructor.
        -- rewrite inject_Z_plus. change (inject_Z 1) with 1.
           unfold rem in *. lra.
        -- lia.
        -- rewrite carried_next by assumption. simpl. lra.
        -- apply sent_range_next; assumption.
        -- intros d Hd'. apply sent_to_next; assumption.
        -- intros x. specialize (Hw x).
           rewrite payload_app, payload_one in *.
           rewrite ?weight_of_app, ?weight_of_cons, ?weight_of_nil in *.
           simpl in *. destruct (bool_decide (id local_item = x)); lra.
      * apply Qeq_bool_false in Z0.
        split; cbn [m_local_items curr_weight dest_rank items_to_send sent negb].
        -- lra.
        -- assumption.
        -- repeat constructor. exact R0.
        -- rewrite inject_Z_plus. change (inject_Z 1) with 1.
           unfold rem in *. lra.
        -- lia.
        -- rewrite carried_next by assumption. simpl. ring.
        -- apply sent_range_next; assumption.
        -- intros d Hd'. apply sent_to_next; assumption.
        -- intros x. specialize (Hw x).
           rewrite payload_app, payload_one in *.
           rewrite ?weight_of_app, ?weight_of_cons, ?weight_of_nil in *.
           simpl in *. destruct (bool_decide (id local_item = x)); lra.
  - apply Qle_bool_false in F.
    split; cbn [m_local_items curr_weight dest_rank items_to_send sent].
    + lra.
    + assumption.
    + apply nonneg_app; [assumption|]. repeat constructor. exact Hw0.
    + lra.
    + assumption.
    + rewrite total_app, Hpt. simpl. ring.
    + assumption.
    + assumption.
    + intros x. specialize (Hw x).
      rewrite ?weight_of_app, ?weight_of_cons, ?weight_of_nil in *.
      simpl in *. lra.
Qed.


(** A step either moves one item into the batch, or fills a rank and
    shortens what is left of the interval by [T]. *)
Lemma walk_step_progress (w : walk Item Q) (local_item : item Item Q) rest :
  let w' := walk_step nranks T local_item rest w in
  if fills T (curr_weight w) local_item then
    (length (m_local_items w') <= S (length rest))%nat /\
    curr_weight w' + total (m_local_items w') ==
      curr_weight w + weight local_item + total rest - T
  else
    m_local_items w' = rest /\
    curr_weight w' = curr_weight w + weight local_item.
Proof.
  unfold walk_step. destruct (fills T (curr_weight w) local_item); simpl.
  - destruct (Qle_bool T _); simpl.
    + rewrite length_app, total_app. simpl. split; [lia | ring].
    + split; [lia | ring].
  - split; reflexivity.
Qed.

(** The loop ends, with the invariant, once the fuel covers the items
    and the ranks the interval can still fill. *)
Lemma walk_loop_inv fuel : forall w (k : nat),
  walk_inv w ->
  curr_weight w + total (m_local_items w) < (inject_Z (Z.of_nat k) + 1) * T ->
  (length (m_local_items w) + k <= fuel)%nat ->
  exists w', walk_loop fuel nranks T w = Done w' /\
    walk_inv w' /\ m_local_items w' = [].
Proof.
  induction fuel as [|fuel IH]; intros w k I B F.
  - destruct (m_local_items w) as [|local_item rest] eqn:M; simpl in F; [|lia].
    exists w. simpl. rewrite M. auto.
  - simpl. destruct (m_local_items w) as [|local_item rest] eqn:M.
    + exists w. auto.
    + pose proof (walk_step_inv w local_item rest I M) as I'.
      pose proof (walk_step_progress w local_item rest) as P.
      simpl in B, F. cbv zeta in P.
      destruct (fills T (curr_weight w) local_item) eqn:Fl.
      * destruct P as [PL PR].
        unfold fills in Fl. simpl in Fl. apply Qle_bool_iff in Fl.
        pose proof (total_nonneg rest) as Hr.
        destruct I as [_ Ht _ _ _ _ _ _ _]. rewrite M in Ht.
        apply Forall_cons in Ht as [_ Ht]. specialize (Hr Ht).
        destruct k as [|k].
        { change (inject_Z (Z.of_nat 0)) with 0 in B. lra. }
        apply (IH _ k I'); [|lia].
        rewrite PR. rewrite Nat2Z.inj_succ in B. unfold Z.succ in B.
        rewrite inject_Z_plus in B. change (inject_Z 1) with 1 in B. lra.
      * destruct P as [PL PR]. apply (IH _ k I').
        -- rewrite PL, PR. lra.
        -- rewrite PL. lia.
Qed.

(** Cutting a position of the weight line to the interval [0, T]. *)
Definition clamp (x : Q) : Q :=
  if Qle_bool x 0 then 0 else if Qle_bool T x then T else x.

Lemma clamp_low x : x <= 0 -> clamp x == 0.
Proof. intros H. unfold clamp. apply Qle_bool_iff in H. rewrite H. reflexivity. Qed.

Lemma clamp_high x : T <= x -> clamp x == T.
Proof.
  intros H. unfold clamp. destruct (Qle_bool x 0) eqn:L.
  - apply Qle_bool_iff in L. lra.
  - apply Qle_bool_iff in H. rewrite H. reflexivity.
Qed.

Lemma clamp_mid x : 0 <= x <= T -> clamp x == x.
Proof.
  intros H. unfold clamp. destruct (Qle_bool x 0) eqn:L.
  - apply Qle_bool_iff in L. lra.
  - destruct (Qle_bool T x) eqn:U; [|reflexivity].
    apply Qle_bool_iff in U. lra.
Qed.

Lemma inject_Z_lt_succ (a b : Z) : (a < b)%Z -> inject_Z a + 1 <= inject_Z b.
Proof.
  intros H. change 1 with (inject_Z 1). rewrite <- inject_Z_plus, <- Zle_Qle.
  lia.
Qed.

(** What the rank has sent when it is done: to every rank the part of
    its interval that lies in that rank's slice, and of every id the
    weight it held. *)
Lemma flush_exact w :
  walk_inv w -> m_local_items w = [] ->
  Forall (fun m => (d0 <= fst m < nranks)%Z) (flush nranks w) /\
  (forall d, (d < nranks)%Z ->
     sent_to d (flush nranks w) ==
     clamp (E - inject_Z d * T)
       - clamp (inject_Z d0 * T + c0 - inject_Z d * T)) /\
  (forall x, weight_of x (payload (flush nranks w)) == weight_of x items0).
Proof.
  intros [Hc _ Hp Ho Hd Hpt Hsr Hst Hw] M. rewrite M in *. simpl in Ho.
  pose proof (total_nonneg _ Hp) as Hp0.
  assert (Hdn : (dest_rank w <= nranks)%Z).
  { assert (inject_Z (dest_rank w) <= inject_Z nranks) by nra.
    rewrite Zle_Qle. assumption. }
  assert (Hsent : Forall (fun m : Z * list (item Item Q) =>
                    (d0 <= fst m < nranks)%Z) (sent w)).
  { eapply Forall_impl; [exact Hsr|]. simpl. intros m ?. lia. }
  (* the weight addressed to [dest_rank w] by the closing send *)
  assert (Hlast : forall d, (d < nranks)%Z ->
            sent_to d (flush nranks w) ==
            sent_to d (sent w)
              + (if (dest_rank w =? d)%Z then total (items_to_send w) else 0)).
  { intros d Hdlt. unfold flush.
    destruct (items_to_send w) as [|itm pending] eqn:Pe; simpl.
    - destruct (dest_rank w =? d)%Z; ring.
    - destruct (Z.ltb_spec (dest_rank w) nranks) as [Hlt|Hge]; simpl.
      + rewrite sent_to_app, sent_to_one. reflexivity.
      + destruct (Z.eqb_spec (dest_rank w) d); [lia | ring]. }
  split; [|split].
  - unfold flush. destruct (negb _); simpl; [|exact Hsent].
    destruct (Z.ltb_spec (dest_rank w) nranks); [|exact Hsent].
    apply Forall_app. split; [exact Hsent|].
    constructor; [simpl; lia | constructor].
  - intros d Hdlt. rewrite (Hlast d Hdlt).
    destruct (Z_lt_le_dec d d0) as [Lt0|Ge0].
    + (* before the rank's first destination *)
      pose proof (inject_Z_lt_succ _ _ Lt0) as Q1.
      assert (Q2 : inject_Z d0 <= inject_Z (dest_rank w)) by (rewrite <- Zle_Qle; lia).
      rewrite sent_to_none.
      2:{ eapply Forall_impl; [exact Hsr|]. simpl. intros m ?. lia. }
      destruct (Z.eqb_spec (dest_rank w) d); [lia|].
      rewrite !clamp_high by nra. ring.
    + destruct (Z_lt_le_dec d (dest_rank w)) as [Lt1|Ge1].
      * (* a rank the walk has filled *)
        pose proof (inject_Z_lt_succ _ _ Lt1) as Q1.
        rewrite Hst by lia.
        destruct (Z.eqb_spec (dest_rank w) d); [lia|].
        rewrite clamp_high by nra.
        unfold carried. destruct (Z.eqb_spec d d0) as [->|Hne].
        -- rewrite clamp_mid by lra. ring.
        -- assert (Lt2 : (d0 < d)%Z) by lia.
           pose proof (inject_Z_lt_succ _ _ Lt2) as Q2.
           rewrite clamp_low by nra. ring.
      * rewrite sent_to_none.
        2:{ eapply Forall_impl; [exact Hsr|]. simpl. intros m ?. lia. }
        destruct (Z.eqb_spec (dest_rank w) d) as [Eq|Hne].
        -- (* the rank the walk stopped in *)
           subst d. rewrite Hpt. rewrite (clamp_mid (E - _)) by lra.
           unfold carried. destruct (Z.eqb_spec (dest_rank w) d0) as [Eq|Hne].
           ++ rewrite Eq in *. rewrite clamp_mid by lra. lra.
           ++ assert (Lt2 : (d0 < dest_rank w)%Z) by lia.
              pose proof (inject_Z_lt_succ _ _ Lt2) as Q2.
              rewrite clamp_low by nra. lra.
        -- (* a rank past it *)
           assert (Lt2 : (dest_rank w < d)%Z) by lia.
           pose proof (inject_Z_lt_succ _ _ Lt2) as Q2.
           assert (Q3 : inject_Z d0 <= inject_Z (dest_rank w))
             by (rewrite <- Zle_Qle; lia).
           assert (Q4 : inject_Z d0 * T + c0 <= E).
           { unfold carried in Hpt.
             destruct (Z.eqb_spec (dest_rank w) d0) as [Eq|Neq].
             - rewrite Eq in *. lra.
             - assert (Lt3 : (d0 < dest_rank w)%Z) by lia.
               pose proof (inject_Z_lt_succ _ _ Lt3). nra. }
           rewrite !clamp_low by nra. ring.
  - intros x. specialize (Hw x). rewrite weight_of_nil in Hw.
    unfold flush. destruct (items_to_send w) as [|itm pending] eqn:Pe; simpl.
    + rewrite weight_of_nil in Hw. lra.
    + destruct (Z.ltb_spec (dest_rank w) nranks) as [Hlt|Hge]; simpl.
      * rewrite payload_app, payload_one, weight_of_app. lra.
      * (* nothing is left to send past the last rank *)
        assert (Eq : dest_rank w = nranks) by lia. rewrite Eq in *.
        assert (C0 : curr_weight w == 0) by lra.
        assert (P0 : total (itm :: pending) == 0).
        { unfold carried in Hpt. destruct (nranks =? d0)%Z; lra. }
        pose proof (weight_of_bounds x _ Hp). lra.
Qed.

End ExactWalk.


(** *** Exact arithmetic: one rank *)
Section ExactRank.
Context {Item : Type} `{EqDecision Item}.
#[local] Existing Instance exact.
Local Open Scope Q_scope.
Implicit Types (items : list (item Item Q)).

Lemma clamp_wd (T x y : Q) : 0 < T -> x == y -> clamp T x == clamp T y.
Proof.
  intros HT Exy. destruct (Qlt_le_dec 0 x) as [Pos|Neg].
  - destruct (Qlt_le_dec x T) as [Lt|Ge].
    + rewrite !clamp_mid by lra. exact Exy.
    + rewrite !clamp_high by lra. reflexivity.
  - rewrite !clamp_low by lra. reflexivity.
Qed.

(** A rank whose interval [P, P + total items] lies within [0, nranks * T]
    sends to every rank the part of the interval in that rank's slice,
    addresses existing ranks only, and sends all the weight of every
    id. *)
Lemma int_of_Z_range (z : Z) :
  (0 <= z <= int_max)%Z -> int_of_Z z = Some z.
Proof.
  intros [L U]. unfold int_of_Z.
  destruct (Z.leb_spec int_min z) as [_|Lt]; [|unfold int_min in Lt; lia].
  destruct (Z.leb_spec z int_max) as [_|Gt]; [reflexivity | lia].
Qed.

Lemma balance_rank_exact fuel (nranks : Z) (P T : Q) items :
  0 < T -> 0 <= P -> nonneg items ->
  P + total items <= inject_Z nranks * T ->
  (nranks <= int_max)%Z ->
  (length items + Z.to_nat nranks <= fuel)%nat ->
  exists out, balance_rank fuel nranks P T items = Done out /\
    Forall (fun m => (0 <= fst m < nranks)%Z) out /\
    (forall d, (d < nranks)%Z ->
       sent_to d out ==
       clamp T (P + total items - inject_Z d * T)
         - clamp T (P - inject_Z d * T)) /\
    (forall x, weight_of x (payload out) == weight_of x items).
Proof.
  intros HT HP Hnn Hfit Hint Hfuel.
  destruct (Qtrunc_fmod P T HP HT) as (D0 & EQ & C0).
  pose proof (total_nonneg _ Hnn) as Ht0.
  unfold balance_rank, initial_dest_rank. cbn [to_int div fmod exact].
  set (d0 := Qtrunc (P / T)) in *. set (c0 := Qfmod P T) in *.
  assert (Hdn : (d0 <= nranks)%Z).
  { rewrite Zle_Qle. nra. }
  rewrite int_of_Z_range by lia.
  set (w0 := {| m_local_items := items; curr_weight := c0; dest_rank := d0;
                items_to_send := []; sent := [] |}).
  assert (Hn0 : (0 <= nranks)%Z).
  { rewrite Zle_Qle. change (inject_Z 0) with 0. nra. }
  assert (Hd0 : 0 <= inject_Z d0).
  { change 0 with (inject_Z 0). rewrite <- Zle_Qle. exact D0. }
  assert (I0 : walk_inv T d0 c0 (P + total items) items w0).
  { split; simpl.
    - exact C0.
    - exact Hnn.
    - constructor.
    - lra.
    - lia.
    - unfold carried. rewrite Z.eqb_refl. change (total []) with 0. ring.
    - constructor.
    - intros d Hd. lia.
    - intros x. unfold payload. simpl. rewrite !weight_of_nil. ring. }
  destruct (walk_loop_inv nranks T d0 c0 (P + total items) items HT Hfit
              fuel w0 (Z.to_nat nranks) I0) as (w' & L & I' & M).
  - simpl. rewrite Z2Nat.id by exact Hn0. nra.
  - simpl. exact Hfuel.
  - rewrite L. simpl. eexists. split; [reflexivity|].
    destruct (flush_exact nranks T d0 c0 (P + total items) items HT C0 Hfit
                w' I' M) as (R & S & W).
    split; [|split].
    + eapply Forall_impl; [exact R|]. simpl. intros m ?. lia.
    + intros d Hd. rewrite (S d Hd).
      rewrite (clamp_wd T (inject_Z d0 * T + c0 - inject_Z d * T)
                 (P - inject_Z d * T) HT); [reflexivity | lra].
    + exact W.
Qed.

End ExactRank.


(** *** Exact arithmetic: all ranks *)
Section ExactRanks.
Context {Item : Type} `{EqDecision Item}.
#[local] Existing Instance exact.
Local Open Scope Q_scope.
Implicit Types (items : list (item Item Q)) (inputs : list (list (item Item Q))).
Implicit Types (outs : list (list (Z * list (item Item Q)))).

Definition sum_list {A : Type} (g : A -> Q) (l : list A) : Q :=
  fold_right (fun a acc => g a + acc) 0 l.

Lemma nonneg_concat inputs : Forall nonneg inputs -> nonneg (concat inputs).
Proof.
  induction 1 as [|items l Hi _ IH]; simpl; [constructor|].
  apply nonneg_app; assumption.
Qed.

Lemma fold_left_locals inputs (acc : Q) :
  fold_left Qplus (map local_weight inputs) acc == acc + total (concat inputs).
Proof.
  revert acc. induction inputs as [|items l IH]; intros acc; simpl.
  - ring.
  - rewrite IH, total_app, local_weight_total. ring.
Qed.

Lemma ygm_sum_locals inputs :
  ygm_sum (map local_weight inputs) == total (concat inputs).
Proof. unfold ygm_sum. simpl. rewrite fold_left_locals. ring. Qed.

Lemma prefix_exclusive (done rest : list (list (item Item Q))) :
  ygm_prefix_sum Exclusive (map local_weight (done ++ rest)) (length done)
  == total (concat done).
Proof.
  unfold ygm_prefix_sum. rewrite map_app.
  rewrite <- (length_map local_weight done), take_app_length.
  apply ygm_sum_locals.
Qed.


(** The ranks' intervals lie end to end, so what they send to a rank [d]
    adds up to the part of [0, G] in the slice of [d]. *)
Lemma run_ranks_exact fuel (T : Q) (n : nat) :
  forall (rest done : list (list (item Item Q))),
  0 < T -> Forall nonneg (done ++ rest) ->
  total (concat (done ++ rest)) <= inject_Z (Z.of_nat n) * T ->
  (Z.of_nat n <= int_max)%Z ->
  Forall (fun items => (length items + n <= fuel)%nat) rest ->
  exists outs,
    run_ranks fuel Exclusive (map local_weight (done ++ rest)) T n
      (length done) rest = Done outs /\
    Forall (Forall (fun m => (0 <= fst m < Z.of_nat n)%Z)) outs /\
    (forall d, (d < Z.of_nat n)%Z ->
       sum_list (sent_to d) outs ==
       clamp T (total (concat (done ++ rest)) - inject_Z d * T)
         - clamp T (total (concat done) - inject_Z d * T)) /\
    (forall x, sum_list (fun out => weight_of x (payload out)) outs
               == weight_of x (concat rest)).
Proof.
  induction rest as [|items more IH]; intros done HT Hnn Hfit Hint Hfuel.
  - exists []. simpl. rewrite app_nil_r.
    split; [reflexivity|]. split; [constructor|]. split.
    + intros d _. ring.
    + intros x. reflexivity.
  - assert (Eq : done ++ items :: more = (done ++ [items]) ++ more)
      by (rewrite <- app_assoc; reflexivity).
    apply Forall_app in Hnn as Hnn'. destruct Hnn' as [Hdone Hrest].
    apply Forall_cons in Hrest as [Hitems Hmore].
    apply Forall_cons in Hfuel as [Hf1 Hfm].
    pose proof (total_nonneg _ (nonneg_concat _ Hdone)) as D0.
    pose proof (total_nonneg _ (nonneg_concat _ Hmore)) as M0.
    pose proof (total_nonneg _ Hitems) as I0.
    pose proof (prefix_exclusive done (items :: more)) as HP.
    assert (Tot : total (concat (done ++ items :: more)) ==
                  total (concat done) + total items + total (concat more)).
    { rewrite concat_app, total_app. simpl. rewrite total_app. ring. }
    cbn [run_ranks].
    set (P := ygm_prefix_sum Exclusive
                (map local_weight (done ++ items :: more)) (length done)) in *.
    destruct (balance_rank_exact fuel (Z.of_nat n) P T items)
      as (out & Hout & Rng & Snt & Wgt); try assumption; try lra.
    { rewrite Nat2Z.id. exact Hf1. }
    rewrite Hout. cbn [Outcome.bind].
    destruct (IH (done ++ [items])) as (outs & Houts & Rngs & Snts & Wgts);
      try assumption.
    { rewrite <- Eq. exact Hnn. }
    { rewrite <- Eq. exact Hfit. }
    rewrite <- Eq in Houts, Snts.
    replace (length (done ++ [items])) with (S (length done)) in Houts
      by (rewrite length_app; simpl; lia).
    rewrite Houts. cbn [Outcome.bind].
    eexists. split; [reflexivity|]. split; [constructor; assumption|]. split.
    + intros d Hd. cbn [sum_list fold_right].
      change (fold_right (fun a acc => sent_to d a + acc) 0 outs)
        with (sum_list (sent_to d) outs).
      rewrite (Snt d Hd), (Snts d Hd).
      rewrite (clamp_wd T (P + total items - inject_Z d * T)
                 (total (concat (done ++ [items])) - inject_Z d * T) HT).
      2:{ rewrite concat_app, total_app. simpl. rewrite app_nil_r. lra. }
      rewrite (clamp_wd T (P - inject_Z d * T)
                 (total (concat done) - inject_Z d * T) HT) by lra.
      ring.
    + intros x. cbn [sum_list fold_right].
      change (fold_right (fun a acc => weight_of x (payload a) + acc) 0 outs)
        with (sum_list (fun out => weight_of x (payload out)) outs).
      rewrite (Wgt x), (Wgts x). simpl. rewrite weight_of_app. reflexivity.
Qed.


(** What arrives on a rank. *)
Lemma deliver_cons out outs (d : nat) :
  deliver (out :: outs) d = received_from d out ++ deliver outs d.
Proof. reflexivity. Qed.

Lemma deliver_total outs (d : nat) :
  total (deliver outs d) == sum_list (sent_to (Z.of_nat d)) outs.
Proof.
  induction outs as [|out outs IH]; [reflexivity|].
  rewrite deliver_cons, total_app, IH. reflexivity.
Qed.

(** A message addressed to an existing rank arrives on exactly one
    rank. *)
Lemma one_destination x (dst : Z) (batch : list (item Item Q)) :
  forall (len start : nat),
  weight_of x (concat (map (fun d : nat =>
                 if (dst =? Z.of_nat d)%Z then batch else [])
               (seq start len)))
  == if ((Z.of_nat start <=? dst) && (dst <? Z.of_nat (start + len)))%Z
     then weight_of x batch else 0.
Proof.
  induction len as [|len IH]; intros start.
  - simpl. rewrite weight_of_nil. replace (start + 0)%nat with start by lia.
    destruct (Z.leb_spec (Z.of_nat start) dst);
      destruct (Z.ltb_spec dst (Z.of_nat start)); simpl; try reflexivity; lia.
  - cbn [seq map concat]. rewrite weight_of_app, IH.
    destruct (Z.eqb_spec dst (Z.of_nat start)) as [->|Hne].
    + destruct (Z.leb_spec (Z.of_nat (S start)) (Z.of_nat start)); [lia|].
      destruct (Z.leb_spec (Z.of_nat start) (Z.of_nat start)); [|lia].
      destruct (Z.ltb_spec (Z.of_nat start) (Z.of_nat (start + S len))); [|lia].
      simpl. ring.
    + rewrite weight_of_nil.
      destruct (Z.leb_spec (Z.of_nat (S start)) dst);
        destruct (Z.leb_spec (Z.of_nat start) dst);
        destruct (Z.ltb_spec dst (Z.of_nat (S start + len)));
        destruct (Z.ltb_spec dst (Z.of_nat (start + S len)));
        simpl; try ring; lia.
Qed.

Lemma weight_of_concat_app x {A : Type} (f g : A -> list (item Item Q)) l :
  weight_of x (concat (map (fun d => f d ++ g d) l)) ==
  weight_of x (concat (map f l)) + weight_of x (concat (map g l)).
Proof.
  induction l as [|a l IH]; simpl.
  - rewrite weight_of_nil. ring.
  - rewrite !weight_of_app, IH. ring.
Qed.

Lemma received_all x (n : nat) (msgs : list (Z * list (item Item Q))) :
  Forall (fun m => (0 <= fst m < Z.of_nat n)%Z) msgs ->
  weight_of x (concat (map (fun d => received_from d msgs) (seq 0 n)))
  == weight_of x (payload msgs).
Proof.
  induction 1 as [|[dst batch] l Hm _ IH].
  - unfold received_from, payload. simpl.
    induction (seq 0 n) as [|a s IHs]; simpl; [reflexivity | exact IHs].
  - simpl in Hm.
    assert (E : forall d : nat,
              received_from d ((dst, batch) :: l) =
              (if (dst =? Z.of_nat d)%Z then batch else [])
                ++ received_from d l).
    { intros d. unfold received_from. simpl.
      destruct (dst =? Z.of_nat d)%Z; reflexivity. }
    rewrite (map_ext _ _ E), weight_of_concat_app, IH, one_destination.
    destruct (Z.leb_spec (Z.of_nat 0) dst); [|lia].
    destruct (Z.ltb_spec dst (Z.of_nat (0 + n))); [|lia].
    simpl. change ((dst, batch) :: l) with ([(dst, batch)] ++ l).
    rewrite payload_app, payload_one, weight_of_app. reflexivity.
Qed.

Lemma delivered_all x (n : nat) outs :
  Forall (Forall (fun m => (0 <= fst m < Z.of_nat n)%Z)) outs ->
  weight_of x (concat (map (deliver outs) (seq 0 n)))
  == sum_list (fun out => weight_of x (payload out)) outs.
Proof.
  induction 1 as [|out outs Ho _ IH].
  - simpl. induction (seq 0 n) as [|a s IHs]; simpl; [reflexivity | exact IHs].
  - rewrite (map_ext _ _ (deliver_cons out outs)).
    rewrite weight_of_concat_app, IH, (received_all x n out Ho).
    reflexivity.
Qed.

(** Enough fuel for every rank's walk: one unit per item and one per
    rank. *)
Definition enough_fuel (fuel : nat) inputs : Prop :=
  Forall (fun items => (length items + length inputs <= fuel)%nat) inputs.

Lemma within_tolerance (x y T : Q) :
  x == T -> y == T -> equal x y = true.
Proof.
  intros Hx Hy. unfold equal. cbn [ltb abs sub tolerance exact].
  apply negb_true_iff.
  destruct (Qle_bool (1 # 1000000) (Qabs (x - y))) eqn:L; [|reflexivity].
  apply Qle_bool_iff in L.
  assert (Z0 : x - y == 0) by lra. rewrite Z0 in L.
  change (Qabs 0) with 0 in L. lra.
Qed.

(** With exact arithmetic and the prefix taken over the ranks before, the
    balancer returns: no assertion fires, every rank holds an item, every
    rank's weight is the target, and every id keeps its weight. *)
Lemma balance_weight_exact fuel inputs :
  Forall nonneg inputs ->
  0 < ygm_sum (map local_weight inputs) ->
  (Z.of_nat (length inputs) <= int_max)%Z ->
  enough_fuel fuel inputs ->
  exists out, balance_weight Exclusive fuel inputs = Done out /\
    length out = length inputs /\
    Forall (fun items => items <> [] /\
              local_weight items ==
              ygm_sum (map local_weight inputs)
                / inject_Z (Z.of_nat (length inputs))) out /\
    (forall x, weight_of x (concat out) == weight_of x (concat inputs)).
Proof.
  intros Hnn HG Hint Hfuel.
  pose proof (ygm_sum_locals inputs) as EG.
  set (G := ygm_sum (map local_weight inputs)) in *.
  set (n := length inputs) in *.
  assert (Hn : (0 < n)%nat).
  { destruct inputs; simpl in *; [|subst n; simpl; lia].
    unfold G, ygm_sum in HG. simpl in HG. lra. }
  assert (Hnq : 0 < inject_Z (Z.of_nat n)).
  { change 0 with (inject_Z 0). rewrite <- Zlt_Qlt. lia. }
  set (T := G / inject_Z (Z.of_nat n)).
  assert (HT : 0 < T) by (apply Qlt_shift_div_l; lra).
  assert (EnT : inject_Z (Z.of_nat n) * T == G) by (unfold T; field; lra).
  destruct (run_ranks_exact fuel T n inputs [] HT Hnn)
    as (outs & Houts & Rng & Snt & Wgt);
    [simpl; lra | exact Hint | exact Hfuel |].
  simpl app in *. simpl length in Houts.
  assert (Hbal : forall d, (d < n)%nat ->
            local_weight (deliver outs d) == T /\ deliver outs d <> []).
  { intros d Hd.
    assert (Ed : total (deliver outs d) == T).
    { rewrite deliver_total, Snt by lia.
      assert (inject_Z (Z.of_nat d) + 1 <= inject_Z (Z.of_nat n))
        by (apply inject_Z_lt_succ; lia).
      assert (0 <= inject_Z (Z.of_nat d))
        by (change 0 with (inject_Z 0); rewrite <- Zle_Qle; lia).
      rewrite clamp_high by nra.
      rewrite clamp_low by (simpl; nra). ring. }
    split; [rewrite local_weight_total; exact Ed|].
    intros Nil. rewrite Nil in Ed. simpl in Ed. lra. }
  assert (Hin : forall items, In items (map (deliver outs) (seq 0 n)) ->
            local_weight items == T /\ items <> []).
  { intros items Hi. apply List.in_map_iff in Hi as (d & <- & Hd).
    apply List.in_seq in Hd. apply Hbal. lia. }
  unfold balance_weight. fold n. fold G.
  change (div G (of_nat n)) with T.
  rewrite Houts. cbn [Outcome.bind].
  assert (A1 : forallb (fun items : list (item Item Q) => negb (is_nil items))
                 (map (deliver outs) (seq 0 n)) = true).
  { apply List.forallb_forall. intros items Hi.
    destruct (Hin items Hi) as [_ Ne]. destruct items; [contradiction|reflexivity]. }
  assert (A2 : forallb (is_balanced_local T)
                 (map (deliver outs) (seq 0 n)) = true).
  { apply List.forallb_forall. intros items Hi.
    destruct (Hin items Hi) as [Eq _].
    apply (within_tolerance T (local_weight items) T); [reflexivity | exact Eq]. }
  assert (A3 : ygm_is_same equal
                 (map local_weight (map (deliver outs) (seq 0 n))) = true).
  { unfold ygm_is_same. apply List.forallb_forall. intros a Ha.
    apply List.forallb_forall. intros b Hb.
    apply List.in_map_iff in Ha as (ia & <- & Ha).
    apply List.in_map_iff in Hb as (ib & <- & Hb).
    apply (within_tolerance _ _ T); [apply (Hin ia Ha) | apply (Hin ib Hb)]. }
  rewrite A1, A2, A3. cbn [assert_release Outcome.bind].
  eexists. split; [reflexivity|]. split; [|split].
  - rewrite length_map, length_seq. reflexivity.
  - apply Forall_forall. intros items Hi.
    apply list_elem_of_In in Hi. destruct (Hin items Hi) as [Eq Ne].
    split; [exact Ne | exact Eq].
  - intros x. rewrite (delivered_all x n outs Rng), (Wgt x). reflexivity.
Qed.



(** The integer part of a non-negative quotient. *)
Lemma initial_dest_rank_floor (P P' T : Q) :
  0 <= P' -> 0 < T -> P == P' ->
  (Qfloor (P' / T) <= int_max)%Z ->
  initial_dest_rank P T = Some (Qfloor (P' / T)).
Proof.
  intros HP HT EP Hint. unfold initial_dest_rank. cbn [to_int div exact].
  unfold Qtrunc.
  assert (HX : 0 <= P / T) by (apply Qle_shift_div_l; lra).
  assert (EF : Qfloor (P / T) = Qfloor (P' / T))
    by (apply Qfloor_comp; rewrite EP; reflexivity).
  apply Qle_bool_iff in HX as HB. rewrite HB, EF.
  apply int_of_Z_range. split; [|exact Hint].
  rewrite <- EF. apply Qfloor_resp_le in HX. exact HX.
Qed.


(** With a prefix sum that includes the rank's own weight a single rank
    already starts at destination rank 1, past itself: everything it
    holds is dropped and the assertion that every rank holds an item
    stops the program.  The balancer can only return when the collective
    hands rank [r] the sum over the ranks before it. *)
Lemma inclusive_scan_never_returns fuel (items : list (item Item Q)) out :
  nonneg items -> 0 < total items ->
  balance_weight Inclusive fuel [items] <> Done out.
Proof.
  intros Hnn HG. unfold balance_weight.
  cbn [length map run_ranks].
  set (P := ygm_prefix_sum Inclusive [local_weight items] 0).
  set (T := div (ygm_sum [local_weight items]) (of_nat 1)).
  assert (EP : P == total items).
  { unfold P, ygm_prefix_sum, ygm_sum. simpl.
    rewrite local_weight_total. ring. }
  assert (ET : T == total items).
  { unfold T, ygm_sum. simpl. rewrite local_weight_total.
    change (inject_Z 1) with 1. field. }
  assert (D1 : initial_dest_rank P T = Some 1%Z).
  { assert (E1 : Qfloor (P / T) = 1%Z).
    { change 1%Z with (Qfloor 1). apply Qfloor_comp.
      rewrite EP, ET. field. lra. }
    assert (P0 : 0 <= P) by lra.
    assert (T0 : 0 < T) by lra.
    assert (B : (Qfloor (P / T) <= int_max)%Z) by (rewrite E1; discriminate).
    rewrite (initial_dest_rank_floor P P T P0 T0 (Qeq_refl P) B), E1.
    reflexivity. }
  unfold balance_rank. rewrite D1.
  destruct (walk_loop fuel _ T _) as [w| | |] eqn:L; simpl; try discriminate.
  apply walk_loop_dropped in L as [S G]; [|simpl; lia].
  rewrite (flush_dropped _ _ G), S. simpl. discriminate.
Qed.


End ExactRanks.

(** *** Concrete runs of the balancer *)

Definition q_item (i : nat) (w : Q) : item nat Q := {| id := i; weight := w |}.

Definition f_item (i : nat) (w : spec_float) : item nat spec_float :=
  {| id := i; weight := w |}.

(** One item of weight 10 on rank 0 of three ranks: it is split into
    three fragments. *)
Definition one_heavy_item : list (list (item nat Q)) :=
  [[q_item 7 10]; []; []].


(** Two ranks that hold weight 1 each, so [T = 1]. *)
Definition two_unit_ranks : list (list (item nat Q)) :=
  [[q_item 1 1]; [q_item 2 1]].





(** Four ranks: rank 0 holds one item of weight 2^55, rank 1 one item of
    weight 8, ranks 2 and 3 hold nothing.  The total 2^55 + 8 and the
    target 2^53 + 2 are binary64 numbers. *)
Definition big_and_small : list (list (item nat spec_float)) :=
  [[f_item 1 (b64_of_Z (2 ^ 55))]; [f_item 2 (b64_of_Z 8)]; []; []].

(** C1 fails on binary64: on rank 0 the walk computes
    [remaining_weight = 2^55 - (2^53 + 2)], which lies halfway between
    the neighbouring numbers 3 * 2^53 - 4 and 3 * 2^53 and is rounded to
    3 * 2^53, so [weight_to_send = 2^55 - 3 * 2^53 = 2^53].  Rank 0 ends
    with the weight 2^53, at distance 2 from the target, and the release
    assertion [dif < 1e-6] of [is_balanced] fires (whichever prefix sum
    the collective computes). *)
Theorem balancer_assertion_fires :
  let target :=
    div (Arith := binary64)
      (ygm_sum (AR := binary64) (map (local_weight (AR := binary64)) big_and_small))
      (of_nat (Arith := binary64) 4) in
  target = b64_of_Z (2 ^ 53 + 2) /\
  (exists outs,
     run_ranks (AR := binary64) 20 Exclusive
       (map (local_weight (AR := binary64)) big_and_small) target 4 0
       big_and_small = Done outs /\
     deliver outs 0 = [f_item 1 (b64_of_Z (2 ^ 53))] /\
     is_balanced_local (AR := binary64) target (deliver outs 0) = false) /\
  balance_weight (AR := binary64) Exclusive 20 big_and_small = AssertFail /\
  balance_weight (AR := binary64) Inclusive 20 big_and_small = AssertFail.
Proof.
  split; [vm_compute; reflexivity|]. split.
  - eexists. split; [vm_compute; reflexivity|].
    split; vm_compute; reflexivity.
  - split; vm_compute; reflexivity.
Qed.

(** One rank that holds an item of weight 10^16 and an item of weight
    1/2.  In binary64 the sum 10^16 + 1/2 is 10^16. *)
Definition heavy_then_light : list (list (item nat spec_float)) :=
  [[f_item 1 (b64_of_Z (10 ^ 16));
    f_item 2 (div (Arith := binary64) (b64_of_Z 1) (b64_of_Z 2))]].


(** One rank that holds an item of weight 1 and an item of weight 0. *)
Definition one_then_zero : list (list (item nat Q)) :=
  [[q_item 1 1; q_item 2 0]].

(** C4 fails: the first item fills rank 0, which is the last rank, and
    [dest_rank] becomes 1.  The second item is batched for rank 1; after
    the loop the guard [dest_rank < m_comm.size()] is false, so the batch
    is not sent: rank 0 ends with the first item only, and the weight 1/2
    of the second is gone.  The same happens to a fragment of weight zero
    under exact arithmetic. *)
Lemma last_fragment_dropped :
  (exists w,
     walk_loop (AR := binary64) 20 1 (b64_of_Z (10 ^ 16))
       {| m_local_items := concat heavy_then_light;
          curr_weight := zero (Arith := binary64);
          dest_rank := 0; items_to_send := []; sent := [] |} = Done w /\
     dest_rank w = 1%Z /\
     items_to_send w =
       [f_item 2 (div (Arith := binary64) (b64_of_Z 1) (b64_of_Z 2))] /\
     flush 1 w = [(0%Z, [f_item 1 (b64_of_Z (10 ^ 16))])]) /\
  balance_weight (AR := binary64) Exclusive 20 heavy_then_light
    = Done [[f_item 1 (b64_of_Z (10 ^ 16))]] /\
  balance_weight (AR := exact) Exclusive 20 one_then_zero
    = Done [[q_item 1 1]].
Proof.
  split.
  - eexists. split; [vm_compute; reflexivity|].
    repeat split; vm_compute; reflexivity.
  - split; vm_compute; reflexivity.
Qed.

Section Guard.
Context {Item : Type} {D : Type} {AR : Arith D}.

(** C4 (as the code has it): every send is guarded by
    [dest_rank < nranks], so no message is addressed to a rank beyond
    [nranks - 1]; once [dest_rank] has reached [nranks] nothing is sent
    any more, neither by a step of the walk nor by the send after the
    loop: the batch is dropped, while [dest_rank] keeps counting. *)
Theorem guard_drops_past_last_rank (nranks : Z) :
  (forall fuel prfx_sum_weight target_weight (items : list (item Item D)) out,
     balance_rank fuel nranks prfx_sum_weight target_weight items = Done out ->
     Forall (addressed_below nranks) out) /\
  (forall target_weight (w : walk Item D) local_item rest,
     (nranks <= dest_rank w)%Z ->
     sent (walk_step nranks target_weight local_item rest w) = sent w /\
     flush nranks w = sent w /\
     (nranks <= dest_rank (walk_step nranks target_weight local_item rest w))%Z).
Proof.
  split.
  - intros fuel prfx target items out. unfold balance_rank.
    destruct (initial_dest_rank prfx target) as [d|]; [|discriminate].
    destruct (walk_loop fuel nranks target _) as [w| | |] eqn:L; simpl;
      try discriminate.
    intros [= <-]. apply flush_addressed.
    eapply walk_loop_addressed; [|exact L]. constructor.
  - intros target w local_item rest H. split; [|split].
    + apply walk_step_dropped, H.
    + apply flush_dropped, H.
    + rewrite walk_step_dest_rank. destruct (fills _ _ _); lia.
Qed.

End Guard.

(** The walk over [heavy_then_light] when its loop is done. *)
Definition past_last_rank : walk nat spec_float :=
  {| m_local_items := [];
     curr_weight := div (Arith := binary64) (b64_of_Z 1) (b64_of_Z 2);
     dest_rank := 1;
     items_to_send :=
       [f_item 2 (div (Arith := binary64) (b64_of_Z 1) (b64_of_Z 2))];
     sent := [(0%Z, [f_item 1 (b64_of_Z (10 ^ 16))])] |}.

Lemma guard_drops_past_last_rank_witness :
  Forall (addressed_below 1) [(0%Z, [f_item 1 (b64_of_Z (10 ^ 16))])] /\
  flush 1 past_last_rank = [(0%Z, [f_item 1 (b64_of_Z (10 ^ 16))])].
Proof.
  destruct (guard_drops_past_last_rank (AR := binary64) (Item := nat) 1)
    as [Below Dropped].
  split.
  - apply (Below 20%nat (zero (Arith := binary64)) (b64_of_Z (10 ^ 16))
             (concat heavy_then_light)).
    vm_compute. reflexivity.
  - destruct (Dropped (b64_of_Z (10 ^ 16)) past_last_rank
                (f_item 1 (b64_of_Z 1)) []) as (_ & F & _).
    + simpl. lia.
    + exact F.
Defined.

End AliasTableFacts.


(** ** Queue policies: what a container holds

    The work queue never looks inside [m_local_queue]; to say which items
    a drain applies, the elements a container holds are named here, as a
    list taken up to reordering. *)
Module PolicyContents.
Import Policy PolicyFacts.

Class Bag {Item : Type} (QP : QueuePolicy Item) : Type := {
  contents : queue_type -> list Item;
  contents_new_queue : contents new_queue = [];
  contents_push : forall q item,
    Permutation (contents (push q item)) (item :: contents q);
  contents_empty : forall q, empty q = true -> contents q = [];
  contents_top_pop : forall q, empty q = false ->
    exists item, top q = Some item /\
      Permutation (contents q) (item :: contents (pop q));
  size_contents : forall q, size q = length (contents q)
}.

Lemma is_nil_true {A : Type} (l : list A) : is_nil l = true -> l = [].
Proof. destruct l; [reflexivity | discriminate]. Qed.

Lemma head_tail {A : Type} (l : list A) :
  is_nil l = false ->
  exists x, head l = Some x /\ Permutation l (x :: tail l).
Proof. destruct l as [|x l]; [discriminate|]. exists x. split; reflexivity. Qed.

#[global] Instance fifo_bag (Item : Type) : Bag (fifo_policy Item).
Proof.
  refine {| contents := fun q : @queue_type Item (fifo_policy Item) =>
                          (q : list Item) |}.
  - reflexivity.
  - intros q item. simpl. rewrite Permutation_app_comm. reflexivity.
  - apply is_nil_true.
  - apply head_tail.
  - reflexivity.
Defined.

#[global] Instance lifo_bag (Item : Type) : Bag (lifo_policy Item).
Proof.
  refine {| contents := fun q : @queue_type Item (lifo_policy Item) =>
                          (q : list Item) |}.
  - reflexivity.
  - reflexivity.
  - apply is_nil_true.
  - apply head_tail.
  - reflexivity.
Defined.

Lemma pq_insert_permutation {Item : Type} comp (item : Item) q :
  Permutation (pq_insert comp item q) (item :: q).
Proof.
  induction q as [|y q IH]; simpl; [reflexivity|].
  destruct (comp y item); [reflexivity|].
  rewrite IH. apply perm_swap.
Qed.

#[global] Instance priority_bag (Item : Type) comp
  : Bag (priority_policy Item comp).
Proof.
  refine {| contents := fun q : @queue_type Item (priority_policy Item comp) =>
                          (q : list Item) |}.
  - reflexivity.
  - intros q item. apply pq_insert_permutation.
  - apply is_nil_true.
  - apply head_tail.
  - reflexivity.
Defined.

Section Pushes.
Context {Item : Type} {QP : QueuePolicy Item} {QB : Bag QP}.

Lemma contents_pushes (items : list Item) q :
  Permutation (contents (fold_left push items q)) (contents q ++ items).
Proof.
  revert q. induction items as [|x items IH]; intros q; simpl.
  - rewrite app_nil_r. reflexivity.
  - rewrite IH, contents_push. simpl. apply Permutation_middle.
Qed.

Lemma size_pushes (items : list Item) q :
  size (fold_left push items q) = (size q + length items)%nat.
Proof.
  rewrite !size_contents, (Permutation_length (contents_pushes items q)).
  apply length_app.
Qed.

End Pushes.
End PolicyContents.


(** ** The work queue: which items are applied, and how often *)
Module WorkQueueAccounting.
Import Policy PolicyFacts PolicyContents WorkQueue WorkQueueFacts.

Section Accounting.
Context {Item : Type} {QP : QueuePolicy Item}.
Implicit Types (st : rank_state Item) (wq : work_queue Item).
Implicit Types (log : list (nat * Item)).

(** The items of a log that the work function of [this] was applied to,
    oldest first. *)
Definition served_at (this : nat) log : list Item :=
  map snd (List.filter (fun e => Nat.eqb (fst e) this) log).

Definition applied_at (this : nat) st : list Item :=
  served_at this (applied st).

Lemma served_at_app this log1 log2 :
  served_at this (log1 ++ log2) = served_at this log1 ++ served_at this log2.
Proof. unfold served_at. rewrite List.filter_app, map_app. reflexivity. Qed.

Lemma served_at_same this (served : list Item) :
  served_at this (map (pair this) served) = served.
Proof.
  unfold served_at. induction served as [|x l IH]; simpl; [reflexivity|].
  rewrite Nat.eqb_refl. simpl. rewrite IH. reflexivity.
Qed.

Lemma served_at_other this c (served : list Item) :
  c <> this -> served_at this (map (pair c) served) = [].
Proof.
  intros Hne. unfold served_at.
  induction served as [|x l IH]; simpl; [reflexivity|].
  destruct (Nat.eqb_spec c this); [contradiction | exact IH].
Qed.

(** A drain only adds applications of its own work function to the
    log. *)
Lemma local_process_all_log fuel this : forall st st',
  local_process_all fuel this st = Done st' ->
  exists served, applied st' = applied st ++ map (pair this) served.
Proof.
  induction fuel as [|fuel IH]; intros st st'; simpl; [discriminate|].
  destruct (objects st !! this) as [wq|] eqn:L; [|discriminate].
  destruct (empty (m_local_queue wq)).
  - intros [= <-]. exists []. simpl. rewrite app_nil_r. reflexivity.
  - destruct (top (m_local_queue wq)) as [item|]; [|discriminate].
    match goal with
    | |- context [insert_all this ?items ?s] =>
        destruct (objects s !! this) as [wq1|] eqn:L1;
        [rewrite (insert_all_eq this items s wq1 L1)
        |simpl in L1; rewrite lookup_insert_eq in L1; discriminate]
    end.
    cbn [Outcome.bind]. intros H. destruct (IH _ _ H) as [served E].
    exists (item :: served). rewrite E. simpl. rewrite <- app_assoc.
    reflexivity.
Qed.

(** The drain applies the work function once to each item the container
    held and once to each item the work function inserted meanwhile, and
    to nothing else. *)
Lemma local_process_all_served `{!Bag QP} fuel this : forall st st' wq,
  objects st !! this = Some wq ->
  local_process_all fuel this st = Done st' ->
  exists served,
    applied st' = applied st ++ map (pair this) served /\
    Permutation served
      (contents (m_local_queue wq) ++ concat (map (m_work_lambda wq) served)).
Proof.
  induction fuel as [|fuel IH]; intros st st' wq L; simpl; [discriminate|].
  rewrite L. destruct (empty (m_local_queue wq)) eqn:E.
  - intros [= <-]. exists []. simpl.
    rewrite app_nil_r, (contents_empty _ E). split; reflexivity.
  - destruct (contents_top_pop _ E) as (item & T & P). rewrite T.
    match goal with
    | |- context [insert_all this ?items ?s] =>
        rewrite (insert_all_eq this items s
                   (with_queue wq (pop (m_local_queue wq))))
          by (simpl; apply lookup_insert_eq)
    end.
    cbn [Outcome.bind]. intros H.
    eapply IH in H; [|simpl; apply lookup_insert_eq].
    destruct H as (served & A & S). cbn in A, S.
    exists (item :: served). split.
    + rewrite A, <- app_assoc. reflexivity.
    + simpl. rewrite P. simpl. apply perm_skip.
      etransitivity; [exact S|].
      rewrite contents_pushes, <- app_assoc. reflexivity.
Qed.

(** The registered callback, with the items it serves. *)
Lemma process_all_lambda_served `{!Bag QP} fuel c st st' wq :
  objects st !! c = Some wq ->
  process_all_lambda fuel c st = Done st' ->
  exists served wq',
    applied st' = applied st ++ map (pair c) served /\
    Permutation served
      (contents (m_local_queue wq) ++ concat (map (m_work_lambda wq) served)) /\
    objects st' !! c = Some wq' /\
    m_work_lambda wq' = m_work_lambda wq /\
    empty (m_local_queue wq') = true.
Proof.
  intros L. unfold process_all_lambda.
  destruct (local_process_all fuel c st) as [st1| | |] eqn:P; simpl;
    try discriminate.
  destruct (local_process_all_served _ _ _ _ _ L P) as (served & A & S).
  destruct (local_process_all_spec _ _ _ _ P) as (T & _ & wq1 & L1 & E1).
  destruct (this_kept _ _ _ T wq L) as (wq1' & L1' & F & _).
  rewrite L1 in L1'. injection L1' as <-.
  rewrite L1. intros [= <-]. exists served, (with_flag wq1 false).
  simpl. rewrite lookup_insert_eq. auto.
Qed.

(** A queue that holds work has a callback pending. *)
Definition work_is_pending st : Prop :=
  forall this wq, objects st !! this = Some wq ->
    local_has_work wq = true -> this ∈ pre_barrier_callbacks st.

Lemma reachable_work_is_pending `{!Lawful QP} st :
  reachable st -> work_is_pending st.
Proof.
  intros R. destruct (reachable_invariants st R) as [I [J _]].
  intros this wq L W. eauto.
Qed.

(** What a barrier adds to the log for the object [this]: its queued
    items and the items its work function inserts while they are served,
    each once. *)
Lemma barrier_served `{!Bag QP} fuel : forall st st' this wq,
  work_is_pending st ->
  barrier fuel st = Done st' ->
  objects st !! this = Some wq ->
  exists served,
    applied_at this st' = applied_at this st ++ served /\
    Permutation served
      (contents (m_local_queue wq) ++ concat (map (m_work_lambda wq) served)).
Proof.
  induction fuel as [|fuel IH]; intros st st' this wq W; simpl; [discriminate|].
  destruct (pre_barrier_callbacks st) as [|c rest] eqn:C.
  - intros [= <-] L. exists []. rewrite app_nil_r. split; [reflexivity|].
    simpl. rewrite app_nil_r.
    destruct (empty (m_local_queue wq)) eqn:E.
    + rewrite (contents_empty _ E). reflexivity.
    + assert (M : this ∈ pre_barrier_callbacks st).
      { apply (W this wq L). unfold local_has_work. rewrite E. reflexivity. }
      rewrite C in M. inversion M.
  - destruct (process_all_lambda fuel c _) as [st1| | |] eqn:P; simpl;
      try discriminate.
    intros B L.
    destruct (process_all_lambda_spec _ _ _ _ P) as (K & PK & _ & _).
    simpl in K, PK.
    assert (W1 : work_is_pending st1).
    { intros x wx Lx Wx. destruct (decide (x = c)) as [->|Hne].
      - destruct (process_all_lambda_spec _ _ _ _ P)
          as (_ & _ & _ & wq' & L' & E' & _).
        rewrite L' in Lx. injection Lx as <-.
        destruct (no_work_of_empty _ E' Wx).
      - rewrite K in Lx by assumption. apply PK.
        specialize (W x wx Lx Wx). rewrite C in W.
        apply elem_of_cons in W as [?|?]; [contradiction | assumption]. }
    pose proof (fun wc Lc => process_all_lambda_served fuel c _ st1 wc Lc P)
      as PS.
    simpl in PS.
    destruct (decide (this = c)) as [->|Hne].
    + destruct (PS wq L) as (served & wq' & A & S & L' & F & E').
      destruct (IH st1 st' c wq' W1 B L') as (served' & A' & S').
      exists (served ++ served'). split.
      * rewrite A'. unfold applied_at. rewrite A. simpl.
        rewrite served_at_app, served_at_same, app_assoc. reflexivity.
      * rewrite (contents_empty _ E'), F in S'. simpl in S'.
        rewrite map_app, concat_app, app_assoc.
        apply Permutation_app; assumption.
    + rewrite <- K in L by assumption.
      destruct (IH st1 st' this wq W1 B L) as (served' & A' & S').
      exists served'. split; [|exact S'].
      rewrite A'. f_equal.
      destruct (objects st !! c) as [wc|] eqn:Lc.
      * destruct (PS wc eq_refl) as (served & _ & A & _).
        unfold applied_at. rewrite A. simpl.
        rewrite served_at_app, served_at_other, app_nil_r by congruence.
        reflexivity.
      * unfold process_all_lambda in P. destruct fuel; simpl in P;
          [discriminate|]. rewrite Lc in P. discriminate.
Qed.

Lemma process_all_lambda_log fuel c st st' :
  process_all_lambda fuel c st = Done st' ->
  exists served, applied st' = applied st ++ map (pair c) served.
Proof.
  unfold process_all_lambda.
  destruct (local_process_all fuel c st) as [st1| | |] eqn:P; simpl;
    try discriminate.
  destruct (local_process_all_log _ _ _ _ P) as [served A].
  destruct (objects st1 !! c); [|discriminate].
  intros [= <-]. exists served. exact A.
Qed.

(** A barrier does not apply the work function of a queue that is empty
    when the barrier starts, and leaves that queue empty. *)
Lemma barrier_skips_empty fuel : forall st st' this wq,
  barrier fuel st = Done st' ->
  objects st !! this = Some wq ->
  empty (m_local_queue wq) = true ->
  applied_at this st' = applied_at this st /\
  exists wq', objects st' !! this = Some wq' /\
    empty (m_local_queue wq') = true /\
    m_work_lambda wq' = m_work_lambda wq.
Proof.
  induction fuel as [|fuel IH]; intros st st' this wq; simpl; [discriminate|].
  destruct (pre_barrier_callbacks st) as [|c rest] eqn:C.
  - intros [= <-] L E. split; [reflexivity|]. exists wq. auto.
  - destruct (process_all_lambda fuel c _) as [st1| | |] eqn:P; simpl;
      try discriminate.
    intros B L E.
    destruct (process_all_lambda_log _ _ _ _ P) as [served A]. simpl in A.
    destruct (decide (this = c)) as [->|Hne].
    + unfold process_all_lambda in P. destruct fuel as [|fuel']; [discriminate|].
      erewrite (local_process_all_done fuel' c _ wq) in P;
        [|exact L | exact E].
      cbn [Outcome.bind objects] in P. rewrite L in P. injection P as <-.
      apply (IH _ st' c (with_flag wq false)) in B;
        [|simpl; apply lookup_insert_eq | exact E].
      exact B.
    + destruct (process_all_lambda_spec _ _ _ _ P) as (K & _).
      simpl in K. rewrite <- K in L by assumption.
      destruct (IH st1 st' this wq B L E) as [A' Q].
      split; [|exact Q]. rewrite A'. unfold applied_at. rewrite A.
      rewrite served_at_app, served_at_other, app_nil_r by congruence.
      reflexivity.
Qed.

Lemma insert_all_reachable this items : forall st st',
  reachable st -> insert_all this items st = Done st' -> reachable st'.
Proof.
  induction items as [|x items IH]; intros st st' R; simpl.
  - intros [= <-]. exact R.
  - destruct (local_insert this x st) as [st1| | |] eqn:I; simpl;
      try discriminate.
    apply IH. apply (reach_step st st1 0 (OpLocalInsert this x) R I).
Qed.

(** X1: inserting a batch of items into a live queue registers the
    queue's callback once if its flag was clear and not at all if it was
    set; the queue grows by the number of items, no work function runs,
    and no other object changes. *)
Theorem inserts_register_once `{!Bag QP} this items st wq :
  objects st !! this = Some wq ->
  exists st' wq',
    insert_all this items st = Done st' /\
    objects st' !! this = Some wq' /\
    local_size wq' = (local_size wq + length items)%nat /\
    m_callback_registered wq' =
      m_callback_registered wq || negb (is_nil items) /\
    pre_barrier_callbacks st' =
      pre_barrier_callbacks st
        ++ (if m_callback_registered wq || is_nil items then [] else [this]) /\
    applied st' = applied st /\
    (forall other, other <> this ->
       objects st' !! other = objects st !! other).
Proof.
  intros L. rewrite (insert_all_eq _ _ _ _ L). eexists _, _.
  split; [reflexivity|]. simpl. rewrite lookup_insert_eq.
  split; [reflexivity|]. unfold local_size. simpl.
  split; [apply size_pushes|]. repeat split.
  intros other Hne. apply lookup_insert_ne. congruence.
Qed.

(** X2: when [local_process_all] returns, it has applied the work
    function exactly once to every item the queue held and to every item
    the work function inserted during the drain, and to nothing else; the
    applications are appended to the log in the order served. *)
Theorem drain_applies_each_item_once `{!Bag QP} fuel this st st' wq :
  objects st !! this = Some wq ->
  local_process_all fuel this st = Done st' ->
  exists served,
    applied st' = applied st ++ map (pair this) served /\
    Permutation served
      (contents (m_local_queue wq) ++ concat (map (m_work_lambda wq) served)).
Proof. apply local_process_all_served. Qed.

(** X3: in a state the public operations can reach, a barrier that
    returns has applied the work function of each queue exactly once to
    every item the queue held and to every item the work function
    inserted meanwhile, and to nothing else. *)
Theorem barrier_applies_each_item_once `{!Lawful QP} `{!Bag QP}
  fuel st st' this wq :
  reachable st ->
  barrier fuel st = Done st' ->
  objects st !! this = Some wq ->
  exists served,
    applied_at this st' = applied_at this st ++ served /\
    Permutation served
      (contents (m_local_queue wq) ++ concat (map (m_work_lambda wq) served)).
Proof.
  intros R. apply barrier_served, reachable_work_is_pending, R.
Qed.

(** X4: [clear] discards the items of its queue without processing them:
    when it returns, the work function of the queue has been applied to
    nothing in the meantime and the queue is empty. *)
Theorem clear_discards_queued_items `{!Lawful QP} fuel this st st' wq :
  objects st !! this = Some wq ->
  clear fuel this st = Done st' ->
  applied_at this st' = applied_at this st /\
  exists wq', objects st' !! this = Some wq' /\
    local_size wq' = 0%nat /\ local_has_work wq' = false /\
    m_work_lambda wq' = m_work_lambda wq.
Proof.
  intros L. unfold clear, local_clear. rewrite L. cbn [Outcome.bind].
  intros B.
  apply (barrier_skips_empty _ _ _ this (with_queue wq new_queue)) in B;
    [|simpl; apply lookup_insert_eq | apply empty_new_queue].
  destruct B as [A (wq' & L' & E' & F')]. split; [exact A|].
  exists wq'. split; [exact L'|]. split; [apply empty_size, E'|].
  split; [|exact F']. unfold local_has_work. rewrite E'. reflexivity.
Qed.

(** X5: a queue can be used for one batch after another: after a barrier
    that returned, the items inserted next are exactly the ones the
    following barrier serves (together with what the work function
    inserts meanwhile), each once. *)
Theorem next_batch_is_served `{!Lawful QP} `{!Bag QP}
  fuel1 fuel2 this items st st1 st2 st3 wq :
  reachable st ->
  barrier fuel1 st = Done st1 ->
  objects st1 !! this = Some wq ->
  insert_all this items st1 = Done st2 ->
  barrier fuel2 st2 = Done st3 ->
  exists served,
    applied_at this st3 = applied_at this st1 ++ served /\
    Permutation served (items ++ concat (map (m_work_lambda wq) served)).
Proof.
  intros R B1 L I B2.
  destruct (reachable_barrier_drains st fuel1 st1 this wq R B1 L) as (E & _).
  assert (R1 : reachable st1) by apply (reach_step st st1 fuel1 OpBarrier R B1).
  pose proof (insert_all_reachable _ _ _ _ R1 I) as R2.
  rewrite (insert_all_eq _ _ _ _ L) in I. injection I as <-.
  eapply (barrier_served fuel2 _ st3 this) in B2;
    [|apply reachable_work_is_pending, R2 | simpl; apply lookup_insert_eq].
  destruct B2 as (served & A & S). exists served. split; [exact A|].
  etransitivity; [exact S|]. simpl.
  rewrite contents_pushes, (contents_empty _ E). reflexivity.
Qed.

End Accounting.

(** Three items are inserted into the freshly built FIFO queue at
    address 1. *)
Lemma inserts_register_once_witness :
  exists st' wq',
    insert_all 1 [4; 5; 6]%nat new_queue_at_1 = Done st' /\
    objects st' !! 1%nat = Some wq' /\
    local_size wq' = 3%nat /\
    m_callback_registered wq' = true /\
    pre_barrier_callbacks st' = [1%nat] /\
    applied st' = [].
Proof.
  destruct (@inserts_register_once nat (fifo_policy nat) (fifo_bag nat)
              1%nat [4; 5; 6]%nat new_queue_at_1
              (Build_work_queue (QP := fifo_policy nat) [] count_to_three false)
              eq_refl)
    as (st' & wq' & I & L & S & F & C & A & _).
  exists st', wq'. repeat split; assumption.
Defined.

(** The queue of [one_queue] holds 0 and its work function counts on to
    3. *)
Lemma drain_applies_each_item_once_witness :
  exists st' served,
    local_process_all 10 1 one_queue = Done st' /\
    applied st' = applied one_queue ++ map (pair 1%nat) served /\
    Permutation served ([0%nat] ++ concat (map count_to_three served)).
Proof.
  destruct (@drain_applies_each_item_once nat (fifo_policy nat) (fifo_bag nat)
              10%nat 1%nat one_queue _
              (Build_work_queue (QP := fifo_policy nat)
                 [0%nat] count_to_three true)
              eq_refl eq_refl) as (served & A & S).
  eexists _, served. split; [reflexivity|]. split; [exact A | exact S].
Defined.

Lemma barrier_applies_each_item_once_witness :
  exists st' served,
    barrier 10 one_queue = Done st' /\
    applied_at 1 st' = applied_at 1 one_queue ++ served /\
    Permutation served ([0%nat] ++ concat (map count_to_three served)).
Proof.
  destruct (@barrier_applies_each_item_once nat (fifo_policy nat)
              (fifo_lawful nat) (fifo_bag nat)
              10%nat one_queue _ 1%nat
              (Build_work_queue (QP := fifo_policy nat)
                 [0%nat] count_to_three true)
              one_queue_reachable eq_refl eq_refl) as (served & A & S).
  eexists _, served. split; [reflexivity|]. split; [exact A | exact S].
Defined.

Lemma clear_discards_queued_items_witness :
  exists st' wq',
    clear 4 1 (plain_queue [0; 1]%nat true) = Done st' /\
    applied_at 1 st' = [] /\
    objects st' !! 1%nat = Some wq' /\
    local_size wq' = 0%nat /\ local_has_work wq' = false.
Proof.
  destruct (@clear_discards_queued_items nat (fifo_policy nat)
              (fifo_lawful nat) 4%nat 1%nat (plain_queue [0; 1]%nat true) _
              (Build_work_queue (QP := fifo_policy nat)
                 [0; 1]%nat (fun _ => []) true)
              eq_refl eq_refl) as (A & wq' & L & S & W & _).
  eexists _, wq'. split; [reflexivity|]. repeat split; assumption.
Defined.

(** The FIFO queue at address 1 with the work function that counts on to
    3, given by its container, its flag and the log of the rank. *)
Definition counting_queue (q : list nat) (armed : bool) (log : list (nat * nat))
  : rank_state nat (QP := fifo_policy nat) :=
  {| objects := {[ 1%nat := Build_work_queue (QP := fifo_policy nat)
                              q count_to_three armed ]};
     pre_barrier_callbacks := if armed then [1%nat] else [];
     applied := log |}.

(** After the first batch (0, which counts on to 3) the items 7 and 2
    are inserted; the second barrier serves 7, 2 and the 3 that serving 2
    inserts. *)
Lemma next_batch_is_served_witness :
  exists served,
    barrier 10 one_queue
      = Done (counting_queue [] false [(1, 0); (1, 1); (1, 2); (1, 3)]%nat) /\
    insert_all 1 [7; 2]%nat
        (counting_queue [] false [(1, 0); (1, 1); (1, 2); (1, 3)]%nat)
      = Done (counting_queue [7; 2]%nat true
                [(1, 0); (1, 1); (1, 2); (1, 3)]%nat) /\
    barrier 10 (counting_queue [7; 2]%nat true
                  [(1, 0); (1, 1); (1, 2); (1, 3)]%nat)
      = Done (counting_queue [] false
                [(1, 0); (1, 1); (1, 2); (1, 3); (1, 7); (1, 2); (1, 3)]%nat) /\
    [0; 1; 2; 3; 7; 2; 3]%nat = [0; 1; 2; 3]%nat ++ served /\
    Permutation served ([7; 2]%nat ++ concat (map count_to_three served)).
Proof.
  assert (B1 : barrier 10 one_queue
    = Done (counting_queue [] false [(1, 0); (1, 1); (1, 2); (1, 3)]%nat))
    by reflexivity.
  assert (I : insert_all 1 [7; 2]%nat
        (counting_queue [] false [(1, 0); (1, 1); (1, 2); (1, 3)]%nat)
      = Done (counting_queue [7; 2]%nat true
                [(1, 0); (1, 1); (1, 2); (1, 3)]%nat))
    by reflexivity.
  assert (B2 : barrier 10 (counting_queue [7; 2]%nat true
                  [(1, 0); (1, 1); (1, 2); (1, 3)]%nat)
      = Done (counting_queue [] false
                [(1, 0); (1, 1); (1, 2); (1, 3); (1, 7); (1, 2); (1, 3)]%nat))
    by reflexivity.
  destruct (@next_batch_is_served nat (fifo_policy nat)
              (fifo_lawful nat) (fifo_bag nat)
              10%nat 10%nat 1%nat [7; 2]%nat one_queue _ _ _
              (Build_work_queue (QP := fifo_policy nat) [] count_to_three false)
              one_queue_reachable B1 eq_refl I B2)
    as (served & A & S).
  exists served. split; [exact B1|]. split; [exact I|]. split; [exact B2|].
  split; [exact A | exact S].
Defined.

(** *** First in, first out, with a work function that inserts *)
Section FifoOrder.
Context {Item : Type}.

Lemma fifo_pushes (items q : list Item) :
  fold_left (push (QueuePolicy := fifo_policy Item)) items q = q ++ items.
Proof. apply fifo_contents. Qed.

Lemma fifo_served fuel this :
  forall (st st' : rank_state Item (QP := fifo_policy Item)) q f r,
  objects st !! this = Some (Build_work_queue (QP := fifo_policy Item) q f r) ->
  local_process_all fuel this st = Done st' ->
  exists served,
    applied st' = applied st ++ map (pair this) served /\
    served = q ++ concat (map f served).
Proof.
  induction fuel as [|fuel IH]; intros st st' q f r L; simpl; [discriminate|].
  rewrite L. cbn [m_local_queue empty top pop fifo_policy m_work_lambda].
  destruct q as [|item q]; cbn [is_nil head tail].
  - intros [= <-]. exists []. simpl. rewrite app_nil_r. auto.
  - match goal with
    | |- context [insert_all this ?items ?s] =>
        rewrite (insert_all_eq this items s
                   (Build_work_queue (QP := fifo_policy Item) q f r))
          by (simpl; apply lookup_insert_eq)
    end.
    cbn [Outcome.bind m_local_queue m_work_lambda m_callback_registered].
    intros H. eapply IH in H; [|simpl; apply lookup_insert_eq].
    destruct H as (served & A & S). cbn [applied] in A.
    rewrite fifo_pushes in S.
    exists (item :: served). split.
    + rewrite A, <- app_assoc. reflexivity.
    + simpl. f_equal. rewrite <- app_assoc in S. exact S.
Qed.

(** X17: under the FIFO policy the order of insertion is the order of
    service also for the items a work function inserts during the drain:
    the sequence served is the queue as it stood, followed by the items
    inserted by the work function, in the order of the items that caused
    them. *)
Theorem fifo_serves_insertions_in_order fuel this
  (st st' : rank_state Item (QP := fifo_policy Item)) q f r :
  objects st !! this = Some (Build_work_queue (QP := fifo_policy Item) q f r) ->
  local_process_all fuel this st = Done st' ->
  exists served,
    applied st' = applied st ++ map (pair this) served /\
    served = q ++ concat (map f served).
Proof. apply fifo_served. Qed.

End FifoOrder.

(** The queue [0] whose work function counts on to 3. *)
Lemma fifo_serves_insertions_in_order_witness :
  exists served,
    local_process_all 10 1 one_queue
      = Done (counting_queue [] true [(1, 0); (1, 1); (1, 2); (1, 3)]%nat) /\
    [(1, 0); (1, 1); (1, 2); (1, 3)]%nat = [] ++ map (pair 1%nat) served /\
    served = [0%nat] ++ concat (map count_to_three served).
Proof.
  assert (D : local_process_all 10 1 one_queue
    = Done (counting_queue [] true [(1, 0); (1, 1); (1, 2); (1, 3)]%nat))
    by reflexivity.
  destruct (fifo_serves_insertions_in_order 10 1%nat one_queue _
              [0%nat] count_to_three true eq_refl D) as (served & A & S).
  exists served. split; [exact D|]. split; [exact A | exact S].
Defined.

(** *** The flag and the pending callbacks, in programs without moves *)
Section Tracking.
Context {Item : Type} {QP : QueuePolicy Item}.
Implicit Types (st : rank_state Item) (wq : work_queue Item).

(** No callback is pending twice, every pending callback has its object,
    and the flag of an object says whether its callback is pending.  While
    the callback of the object [busy] runs, that object's flag is still
    set although its callback has been taken off the list. *)
Definition tracked (busy : option nat) st : Prop :=
  NoDup (pre_barrier_callbacks st) /\
  (forall x, x ∈ pre_barrier_callbacks st -> is_Some (objects st !! x)) /\
  (forall this wq, objects st !! this = Some wq ->
     (busy = Some this ->
      m_callback_registered wq = true /\ this ∉ pre_barrier_callbacks st) /\
     (busy <> Some this ->
      (m_callback_registered wq = true <-> this ∈ pre_barrier_callbacks st))).

(** Replacing an object by one with the same flag. *)
Lemma tracked_same_flag busy st this wq wq' log :
  tracked busy st -> objects st !! this = Some wq ->
  m_callback_registered wq' = m_callback_registered wq ->
  tracked busy {| objects := <[this := wq']> (objects st);
                  pre_barrier_callbacks := pre_barrier_callbacks st;
                  applied := log |}.
Proof.
  intros (N & A & T) L F. split; [exact N|]. split; simpl.
  - intros x Hx. destruct (decide (x = this)) as [->|Hne].
    + rewrite lookup_insert_eq. eauto.
    + rewrite lookup_insert_ne by congruence. auto.
  - intros id w Lw. destruct (decide (id = this)) as [->|Hne].
    + rewrite lookup_insert_eq in Lw. injection Lw as <-.
      rewrite F. apply (T this wq L).
    + rewrite lookup_insert_ne in Lw by congruence. apply (T id w Lw).
Qed.

Lemma local_insert_tracked busy this item st st' :
  tracked busy st -> local_insert this item st = Done st' -> tracked busy st'.
Proof.
  intros K. destruct (objects st !! this) as [wq|] eqn:L.
  2:{ unfold local_insert. rewrite L. discriminate. }
  rewrite (local_insert_eq _ _ _ _ L).
  destruct (m_callback_registered wq) eqn:F; intros [= <-].
  - rewrite app_nil_r. apply (tracked_same_flag busy st this wq); auto.
  - destruct K as (N & A & T). destruct (T this wq L) as [Tb Tn].
    assert (Hb : busy <> Some this).
    { intros E. destruct (Tb E) as [E' _]. congruence. }
    assert (Hn : this ∉ pre_barrier_callbacks st).
    { intros Hin. apply (Tn Hb) in Hin. congruence. }
    split; [|split]; simpl.
    + apply NoDup_app. split; [exact N|]. split; [|apply NoDup_singleton].
      intros x Hx Hx'. apply list_elem_of_singleton in Hx'. congruence.
    + intros x Hx. destruct (decide (x = this)) as [->|Hne].
      * rewrite lookup_insert_eq. eauto.
      * rewrite lookup_insert_ne by congruence. apply A.
        apply elem_of_app in Hx as [Hx|Hx]; [exact Hx|].
        apply list_elem_of_singleton in Hx. contradiction.
    + intros id w Lw. destruct (decide (id = this)) as [->|Hne].
      * rewrite lookup_insert_eq in Lw. injection Lw as <-. simpl.
        split; [intros E; contradiction|]. intros _.
        split; [|reflexivity]. intros _. apply elem_of_app. right.
        apply list_elem_of_singleton. reflexivity.
      * rewrite lookup_insert_ne in Lw by congruence.
        destruct (T id w Lw) as [Tb' Tn']. split.
        -- intros E. destruct (Tb' E) as [E1 E2]. split; [exact E1|].
           intros Hin. apply elem_of_app in Hin as [Hin|Hin]; [auto|].
           apply list_elem_of_singleton in Hin. contradiction.
        -- intros E. rewrite (Tn' E). rewrite elem_of_app.
           split; [auto|]. intros [Hin|Hin]; [exact Hin|].
           apply list_elem_of_singleton in Hin. contradiction.
Qed.

Lemma insert_all_tracked busy this items : forall st st',
  tracked busy st -> insert_all this items st = Done st' -> tracked busy st'.
Proof.
  induction items as [|x items IH]; intros st st' K; simpl.
  - intros [= <-]. exact K.
  - destruct (local_insert this x st) as [st1| | |] eqn:I; simpl;
      try discriminate.
    apply IH. eapply local_insert_tracked; eauto.
Qed.

Lemma local_process_all_tracked busy fuel this : forall st st',
  tracked busy st -> local_process_all fuel this st = Done st' ->
  tracked busy st'.
Proof.
  induction fuel as [|fuel IH]; intros st st' K; simpl; [discriminate|].
  destruct (objects st !! this) as [wq|] eqn:L; [|discriminate].
  destruct (empty (m_local_queue wq)); [intros [= <-]; exact K|].
  destruct (top (m_local_queue wq)) as [item|]; [|discriminate].
  destruct (insert_all this _ _) as [st2| | |] eqn:I; simpl; try discriminate.
  apply IH. eapply insert_all_tracked; [|exact I].
  apply (tracked_same_flag busy st this wq); auto.
Qed.

Lemma process_all_lambda_tracked fuel c st st' :
  tracked (Some c) st -> process_all_lambda fuel c st = Done st' ->
  tracked None st'.
Proof.
  intros K. unfold process_all_lambda.
  destruct (local_process_all fuel c st) as [st1| | |] eqn:P; simpl;
    try discriminate.
  destruct (local_process_all_tracked _ _ _ _ _ K P) as (N & A & T).
  destruct (objects st1 !! c) as [wq|] eqn:L; [|discriminate].
  intros [= <-]. destruct (T c wq L) as [Tc _].
  destruct (Tc eq_refl) as [_ Hc].
  split; [exact N|]. split; simpl.
  - intros x Hx. destruct (decide (x = c)) as [->|Hne].
    + rewrite lookup_insert_eq. eauto.
    + rewrite lookup_insert_ne by congruence. auto.
  - intros id w Lw. split; [discriminate|]. intros _.
    destruct (decide (id = c)) as [->|Hne].
    + rewrite lookup_insert_eq in Lw. injection Lw as <-. simpl.
      split; [discriminate | contradiction].
    + rewrite lookup_insert_ne in Lw by congruence.
      apply (T id w Lw). congruence.
Qed.

Lemma barrier_tracked fuel : forall st st',
  tracked None st -> barrier fuel st = Done st' -> tracked None st'.
Proof.
  induction fuel as [|fuel IH]; intros st st' K; simpl; [discriminate|].
  destruct (pre_barrier_callbacks st) as [|c rest] eqn:C.
  - intros [= <-]. exact K.
  - destruct (process_all_lambda fuel c _) as [st1| | |] eqn:P; simpl;
      try discriminate.
    apply IH. eapply process_all_lambda_tracked; [|exact P].
    destruct K as (N & A & T). rewrite C in N, A.
    apply NoDup_cons in N as [Hc N].
    split; [exact N|]. split; simpl.
    + intros x Hx. apply A. apply elem_of_cons. auto.
    + intros id w Lw. destruct (T id w Lw) as [_ Tn]. rewrite C in Tn.
      split.
      * intros [= <-]. split; [|exact Hc].
        apply Tn; [discriminate|]. apply elem_of_cons. auto.
      * intros E. rewrite (Tn ltac:(discriminate)), elem_of_cons.
        split; [|auto]. intros [->|Hin]; [congruence | exact Hin].
Qed.

(** The public operations that are not moves. *)
Definition is_move (o : operation Item) : bool :=
  match o with
  | OpMoveConstruct _ _ | OpMoveAssign _ _ => true
  | _ => false
  end.

Lemma run_tracked fuel o st st' :
  is_move o = false -> tracked None st -> run fuel o st = Done st' ->
  tracked None st'.
Proof.
  intros M K. destruct o; simpl in M |- *; try discriminate.
  - unfold construct. destruct (objects st !! this) eqn:L; [discriminate|].
    intros [= <-]. destruct K as (N & A & T).
    split; [exact N|]. split; simpl.
    + intros x Hx. destruct (decide (x = this)) as [->|Hne].
      * rewrite lookup_insert_eq. eauto.
      * rewrite lookup_insert_ne by congruence. auto.
    + intros id w Lw. destruct (decide (id = this)) as [->|Hne].
      * rewrite lookup_insert_eq in Lw. injection Lw as <-. simpl.
        split; [discriminate|]. intros _. split; [discriminate|].
        intros Hin. apply A in Hin. rewrite L in Hin.
        destruct Hin as [? ?]. discriminate.
      * rewrite lookup_insert_ne in Lw by congruence. apply (T id w Lw).
  - apply local_insert_tracked, K.
  - apply local_process_all_tracked, K.
  - unfold local_clear. destruct (objects st !! this) as [wq|] eqn:L;
      [|discriminate].
    intros [= <-]. apply (tracked_same_flag None st this wq); auto.
  - unfold clear, local_clear. destruct (objects st !! this) as [wq|] eqn:L;
      [|discriminate].
    cbn [Outcome.bind]. apply barrier_tracked.
    apply (tracked_same_flag None st this wq); auto.
  - apply barrier_tracked, K.
  - unfold destroy.
    destruct (barrier fuel st) as [st1| | |] eqn:B; simpl; try discriminate.
    destruct (barrier_tracked _ _ _ K B) as (N & A & T).
    pose proof (barrier_no_pending _ _ _ B) as E.
    destruct (objects st1 !! this) as [wq|]; [|discriminate].
    destruct (assert_release _); simpl; try discriminate.
    intros [= <-]. split; [exact N|]. split; simpl.
    + intros x Hx. rewrite E in Hx. inversion Hx.
    + intros id w Lw. destruct (decide (id = this)) as [->|Hne].
      * rewrite lookup_delete_eq in Lw. discriminate.
      * rewrite lookup_delete_ne in Lw by congruence. apply (T id w Lw).
Qed.

(** The states a program reaches that never moves a queue. *)
Inductive reachable_without_moves : rank_state Item -> Prop :=
| plain_init : reachable_without_moves initial_state
| plain_step st st' fuel o :
    reachable_without_moves st -> is_move o = false ->
    run fuel o st = Done st' -> reachable_without_moves st'.

(** X19: in a program that never moves a queue, no queue ever has more
    than one callback pending, and [m_callback_registered] tells exactly
    whether the callback of the queue is pending: the callback is
    registered once per batch. *)
Theorem callback_registered_once st :
  reachable_without_moves st ->
  NoDup (pre_barrier_callbacks st) /\
  forall this wq, objects st !! this = Some wq ->
    (m_callback_registered wq = true <-> this ∈ pre_barrier_callbacks st).
Proof.
  intros R. assert (K : tracked None st).
  { induction R as [|st st' fuel o R IH M H].
    - split; [constructor|]. split; simpl.
      + intros x Hx. inversion Hx.
      + intros this wq L. rewrite lookup_empty in L. discriminate.
    - eapply run_tracked; eauto. }
  destruct K as (N & _ & T). split; [exact N|].
  intros this wq L. apply (T this wq L). discriminate.
Qed.

End Tracking.

Lemma one_queue_without_moves : reachable_without_moves one_queue.
Proof.
  apply (plain_step new_queue_at_1 one_queue 0 (OpLocalInsert 1 0));
    [|reflexivity|reflexivity].
  apply (plain_step initial_state new_queue_at_1 0
           (OpConstruct 1 count_to_three));
    [apply plain_init | reflexivity | reflexivity].
Qed.

Lemma callback_registered_once_witness :
  NoDup (pre_barrier_callbacks one_queue) /\
  forall this wq, objects one_queue !! this = Some wq ->
    (m_callback_registered wq = true
     <-> this ∈ pre_barrier_callbacks one_queue).
Proof. apply (callback_registered_once one_queue one_queue_without_moves). Defined.

(** *** Callbacks never outlive their object *)
Section Safety.
Context {Item : Type} {QP : QueuePolicy Item} {QL : Lawful QP}.
Implicit Types (st : rank_state Item) (wq : work_queue Item).

Lemma insert_all_defined this items st :
  is_Some (objects st !! this) ->
  exists st', insert_all this items st = Done st'.
Proof.
  intros [wq L]. rewrite (insert_all_eq _ _ _ _ L). eauto.
Qed.

Lemma local_process_all_defined fuel this : forall st,
  is_Some (objects st !! this) ->
  local_process_all fuel this st <> Undefined.
Proof using QL.
  induction fuel as [|fuel IH]; intros st [wq L]; simpl; [discriminate|].
  rewrite L. destruct (empty (m_local_queue wq)) eqn:E; [discriminate|].
  destruct (top_nonempty _ E) as [item T]. rewrite T.
  match goal with
  | |- context [insert_all this ?items ?s] =>
      destruct (insert_all_defined this items s) as [st2 I];
      [simpl; rewrite lookup_insert_eq; eauto|];
      rewrite I; pose proof (insert_all_alive _ _ _ _ I) as A
  end.
  cbn [Outcome.bind]. apply IH, A. simpl. rewrite lookup_insert_eq. eauto.
Qed.

Lemma barrier_defined fuel : forall st,
  pending_alive st -> barrier fuel st <> Undefined.
Proof using QL.
  induction fuel as [|fuel IH]; intros st K; simpl; [discriminate|].
  destruct (pre_barrier_callbacks st) as [|c rest] eqn:C; [discriminate|].
  assert (Ac : is_Some (objects st !! c)).
  { apply K. rewrite C. apply elem_of_cons. auto. }
  destruct (process_all_lambda fuel c _) as [st1| | |] eqn:P; simpl;
    try discriminate.
  - apply IH.
    destruct (process_all_lambda_spec _ _ _ _ P)
      as (Ko & _ & Pn & wq' & L' & _).
    simpl in Ko, Pn. intros x Hx.
    destruct (decide (x = c)) as [->|Hne]; [eauto|].
    rewrite Ko by assumption. apply K. rewrite C.
    destruct (Pn x Hx); [|contradiction]. apply elem_of_cons. auto.
  - unfold process_all_lambda in P.
    destruct (local_process_all fuel c _) as [st1| | |] eqn:D; simpl in P;
      try discriminate.
    + destruct (local_process_all_spec _ _ _ _ D) as (_ & _ & wq' & L' & _).
      rewrite L' in P. discriminate.
    + intros _. eapply local_process_all_defined; [|exact D]. exact Ac.
Qed.

(** X20: in any state the public operations can reach, moves included,
    every pending callback belongs to a queue that still exists, and a
    barrier runs into no undefined behaviour and no assertion: it never
    runs the callback of a destroyed queue and never takes the top of an
    empty container.  The destructor's barrier is what keeps the captured
    [this] from outliving its object. *)
Theorem callbacks_never_outlive_queue st fuel :
  reachable st ->
  (forall this, this ∈ pre_barrier_callbacks st ->
     is_Some (objects st !! this)) /\
  barrier fuel st <> Undefined /\
  barrier fuel st <> AssertFail /\
  forall this st', destroy fuel this st = Done st' ->
    objects st' !! this = None /\ pre_barrier_callbacks st' = [].
Proof using QL.
  intros R. destruct (reachable_invariants st R) as (_ & _ & K).
  split; [exact K|]. split; [apply barrier_defined, K|].
  split; [apply barrier_no_assert|].
  intros this st'. unfold destroy.
  destruct (barrier fuel st) as [st1| | |] eqn:B; simpl; try discriminate.
  destruct (objects st1 !! this) as [wq|]; [|discriminate].
  destruct (assert_release _); simpl; try discriminate.
  intros [= <-]. simpl. split; [apply lookup_delete_eq|].
  apply (barrier_no_pending _ _ _ B).
Qed.

End Safety.

Lemma callbacks_never_outlive_queue_witness :
  (forall this, this ∈ pre_barrier_callbacks one_queue ->
     is_Some (objects one_queue !! this)) /\
  barrier 10 one_queue <> Undefined /\
  barrier 10 one_queue <> AssertFail /\
  forall this st', destroy 10 this one_queue = Done st' ->
    objects st' !! this = None /\ pre_barrier_callbacks st' = [].
Proof.
  apply (callbacks_never_outlive_queue (QL := fifo_lawful nat) one_queue 10).
  exact one_queue_reachable.
Defined.

(** *** Last in, first out, with a work function that inserts *)
Section LifoOrder.
Context {Item : Type}.
Variable f : Item -> list Item.

(** Depth first: an item is served, and then the items its work function
    inserted, the last inserted first, each followed by all that comes
    of it. *)
#[warnings="-register-all"] Inductive depth_first
  : Item -> list Item -> Prop :=
| depth_first_item x ts :
    Forall2 depth_first (rev (f x)) ts -> depth_first x (x :: concat ts).

Lemma lifo_served fuel this :
  forall (st st' : rank_state Item (QP := lifo_policy Item)) q r,
  objects st !! this = Some (Build_work_queue (QP := lifo_policy Item) q f r) ->
  local_process_all fuel this st = Done st' ->
  exists ts,
    Forall2 depth_first q ts /\
    applied st' = applied st ++ map (pair this) (concat ts).
Proof.
  induction fuel as [|fuel IH]; intros st st' q r L; simpl; [discriminate|].
  rewrite L. cbn [m_local_queue empty top pop lifo_policy m_work_lambda].
  destruct q as [|item q]; cbn [is_nil head tail].
  - intros [= <-]. exists []. simpl. rewrite app_nil_r. auto.
  - match goal with
    | |- context [insert_all this ?items ?s] =>
        rewrite (insert_all_eq this items s
                   (Build_work_queue (QP := lifo_policy Item) q f r))
          by (simpl; apply lookup_insert_eq)
    end.
    cbn [Outcome.bind m_local_queue m_work_lambda m_callback_registered].
    intros H. eapply IH in H; [|simpl; apply lookup_insert_eq].
    destruct H as (ts & F & A). cbn [applied] in A.
    rewrite lifo_contents in F.
    apply Forall2_app_inv_l in F as (ts1 & ts2 & F1 & F2 & ->).
    exists ((item :: concat ts1) :: ts2). split.
    + constructor; [constructor; exact F1 | exact F2].
    + rewrite A, <- app_assoc, concat_app. reflexivity.
Qed.

(** X21: under the LIFO policy the drain is a depth-first traversal: an
    item is served and then, before any older item, everything that its
    work function inserted, the last inserted first, each again followed
    by all that comes of it. *)
Theorem lifo_serves_depth_first fuel this
  (st st' : rank_state Item (QP := lifo_policy Item)) q r :
  objects st !! this = Some (Build_work_queue (QP := lifo_policy Item) q f r) ->
  local_process_all fuel this st = Done st' ->
  exists ts,
    Forall2 depth_first q ts /\
    applied st' = applied st ++ map (pair this) (concat ts).
Proof. apply lifo_served. Qed.

End LifoOrder.

(** A work function that inserts 1 and then 2 when it serves 0. *)
Definition one_then_two (x : nat) : list nat :=
  if (x =? 0)%nat then [1; 2]%nat else [].

(** The LIFO queue at address 1 with that work function. *)
Definition lifo_queue (q : list nat) (armed : bool) (log : list (nat * nat))
  : rank_state nat (QP := lifo_policy nat) :=
  {| objects := {[ 1%nat := Build_work_queue (QP := lifo_policy nat)
                              q one_then_two armed ]};
     pre_barrier_callbacks := if armed then [1%nat] else [];
     applied := log |}.

(** From 0 the drain serves 0, then 2, which was inserted last, then
    1. *)
Lemma lifo_serves_depth_first_witness :
  exists ts,
    local_process_all 10 1 (lifo_queue [0%nat] true [])
      = Done (lifo_queue [] true [(1, 0); (1, 2); (1, 1)]%nat) /\
    Forall2 (depth_first one_then_two) [0%nat] ts /\
    [(1, 0); (1, 2); (1, 1)]%nat = [] ++ map (pair 1%nat) (concat ts).
Proof.
  assert (D : local_process_all 10 1 (lifo_queue [0%nat] true [])
    = Done (lifo_queue [] true [(1, 0); (1, 2); (1, 1)]%nat)) by reflexivity.
  destruct (lifo_serves_depth_first one_then_two 10 1%nat
              (lifo_queue [0%nat] true []) _ [0%nat] true eq_refl D)
    as (ts & F & A).
  exists ts. split; [exact D|]. split; [exact F | exact A].
Defined.

(** *** The order of service under each policy *)
Section PolicyOrder.
Context {Item : Type}.
Variable comp : Item -> Item -> bool.
Variable f : Item -> list Item.

(** Greatest first: of the items that wait, one that the comparator
    orders before no other is served; what its work function inserts
    waits with the rest. *)
Inductive greatest_first : list Item -> list Item -> Prop :=
| greatest_first_done : greatest_first [] []
| greatest_first_serve x waiting rest served :
    Permutation waiting (x :: rest) ->
    Forall (fun y => comp x y = false) rest ->
    greatest_first (rest ++ f x) served ->
    greatest_first waiting (x :: served).

Lemma greatest_first_perm waiting waiting' served :
  Permutation waiting waiting' ->
  greatest_first waiting served -> greatest_first waiting' served.
Proof.
  intros P G. destruct G as [|x waiting rest served P' M G].
  - apply Permutation_nil in P. subst. constructor.
  - econstructor; [|exact M|exact G].
    etransitivity; [symmetry; exact P | exact P'].
Qed.

Lemma priority_served fuel this
  (comp_asym : forall x y, comp x y = true -> comp y x = false)
  (comp_negtrans :
     forall x y z, comp x y = false -> comp y z = false -> comp x z = false) :
  forall (st st' : rank_state Item (QP := priority_policy Item comp)) q r,
  StronglySorted (not_before comp) q ->
  objects st !! this
    = Some (Build_work_queue (QP := priority_policy Item comp) q f r) ->
  local_process_all fuel this st = Done st' ->
  exists served,
    applied st' = applied st ++ map (pair this) served /\
    greatest_first q served.
Proof.
  induction fuel as [|fuel IH]; intros st st' q r Sq L; simpl; [discriminate|].
  rewrite L. cbn [m_local_queue empty top pop priority_policy m_work_lambda].
  destruct q as [|item q]; cbn [is_nil head tail].
  - intros [= <-]. exists []. simpl. rewrite app_nil_r. split; [reflexivity|constructor].
  - match goal with
    | |- context [insert_all this ?items ?s] =>
        rewrite (insert_all_eq this items s
                   (Build_work_queue (QP := priority_policy Item comp) q f r))
          by (simpl; apply lookup_insert_eq)
    end.
    cbn [Outcome.bind m_local_queue m_work_lambda m_callback_registered].
    apply StronglySorted_inv in Sq as [Sq M].
    destruct (priority_contents comp comp_asym comp_negtrans (f item) q Sq)
      as [HP HS].
    intros H. eapply IH in H; [|exact HS|simpl; apply lookup_insert_eq].
    destruct H as (served & A & G). cbn [applied] in A.
    exists (item :: served). split.
    + rewrite A, <- app_assoc. reflexivity.
    + apply (greatest_first_serve item (item :: q) q served).
      * reflexivity.
      * exact M.
      * apply (greatest_first_perm _ _ _ (Permutation_trans HP (Permutation_app_comm _ _))).
        exact G.
Qed.

(** C8: [local_process_all] applies the work function in the order of the
    policy, whatever the work function inserts while the queue is
    drained.  For a queue into which [items] were inserted and a drain
    that returns: under [fifo_policy] the items are served in insertion
    order, followed by the items the work function inserted, in the order
    in which they were inserted; under [lifo_policy] the most recently
    inserted item is served first, so the items are served in reverse
    insertion order, each followed at once by what comes of it; under
    [priority_policy] every item served is, at the moment it is served,
    one that the comparator orders before no other waiting item (the
    comparator being a strict weak order; ties are left open).  A drain
    whose work function inserts nothing returns, and then these orders
    are the insertion order, its reverse, and a sorted permutation of the
    items. *)
Theorem drain_follows_policy (this : nat) (items : list Item) :
  (forall x y, comp x y = true -> comp y x = false) ->
  (forall x y z, comp x y = false -> comp y z = false -> comp x z = false) ->
  (forall fuel st,
     insert_then_drain fuel (fifo_policy Item) this f items = Done st ->
     exists served,
       applied st = map (pair this) served /\
       served = items ++ concat (map f served)) /\
  (forall fuel st,
     insert_then_drain fuel (lifo_policy Item) this f items = Done st ->
     exists ts,
       Forall2 (depth_first f) (rev items) ts /\
       applied st = map (pair this) (concat ts)) /\
  (forall fuel st,
     insert_then_drain fuel (priority_policy Item comp) this f items = Done st ->
     exists served,
       applied st = map (pair this) served /\
       greatest_first items served) /\
  ((forall x, f x = []) ->
   (exists st,
      insert_then_drain (S (length items)) (fifo_policy Item) this f items
        = Done st /\
      applied st = map (pair this) items) /\
   (exists st,
      insert_then_drain (S (length items)) (lifo_policy Item) this f items
        = Done st /\
      applied st = map (pair this) (rev items)) /\
   (exists st served,
      insert_then_drain (S (length items)) (priority_policy Item comp) this f items
        = Done st /\
      applied st = map (pair this) served /\
      Permutation served items /\
      StronglySorted (not_before comp) served)).
Proof.
  intros Ha Ht. split; [|split; [|split]].
  - intros fuel st. rewrite insert_then_drain_eq.
    erewrite insert_all_eq by (simpl; apply lookup_insert_eq).
    cbn [m_local_queue m_work_lambda m_callback_registered].
    intros H. eapply fifo_served in H; [|simpl; apply lookup_insert_eq].
    destruct H as (served & A & S). cbn [applied initial_state set_object] in A.
    rewrite fifo_contents in S. exists served. split; assumption.
  - intros fuel st. rewrite insert_then_drain_eq.
    erewrite insert_all_eq by (simpl; apply lookup_insert_eq).
    cbn [m_local_queue m_work_lambda m_callback_registered].
    intros H. eapply lifo_served in H; [|simpl; apply lookup_insert_eq].
    destruct H as (ts & F & A). cbn [applied initial_state set_object] in A.
    rewrite lifo_contents, app_nil_r in F. exists ts. split; assumption.
  - intros fuel st. rewrite insert_then_drain_eq.
    erewrite insert_all_eq by (simpl; apply lookup_insert_eq).
    cbn [m_local_queue m_work_lambda m_callback_registered].
    destruct (priority_contents comp Ha Ht items [] (SSorted_nil _)) as [HP HS].
    rewrite app_nil_r in HP.
    intros H.
    eapply (priority_served _ _ Ha Ht) in H; [|exact HS|simpl; apply lookup_insert_eq].
    destruct H as (served & A & G). cbn [applied initial_state set_object] in A.
    exists served. split; [exact A|].
    exact (greatest_first_perm _ _ _ HP G).
  - intros Hf. split; [|split].
    + apply fifo_drain, Hf.
    + apply lifo_drain, Hf.
    + apply priority_drain; assumption.
Qed.

End PolicyOrder.

(** The queue at address 0 with the work function [f], after a drain
    that left the log [log]. *)
Definition drained_queue (QP : QueuePolicy nat) (f : nat -> list nat)
  (log : list (nat * nat)) : rank_state nat (QP := QP) :=
  {| objects := {[ 0%nat := Build_work_queue (QP := QP) new_queue f true ]};
     pre_barrier_callbacks := [0%nat];
     applied := log |}.

(** The work function of the repository's test of the priority queue
    with recursive calls: below the cutoff an item [x] inserts
    [x + cutoff + 1] and [x + 1]. *)
Definition branch_below (cutoff x : nat) : list nat :=
  if (x <? cutoff)%nat then [x + cutoff + 1; x + 1]%nat else [].

(** [std::greater<size_t>] *)
Definition greater (x y : nat) : bool := (y <? x)%nat.

(** With [std::less] on numbers, 3 and then 0 inserted, and a work
    function that inserts 1 and 2 when it serves 0: first in, first out
    serves 3, 0, 1, 2; last in, first out serves 0, 2, 1, 3; the priority
    queue serves 3, 0, 2, 1, the greatest of what waits each time.  The
    repository's test (cutoff 64, [std::greater], 0 inserted) serves 0,
    1, ..., 128 in this order, as its work function asserts. *)
Lemma drain_follows_policy_witness :
  (exists served,
     insert_then_drain 10 (fifo_policy nat) 0 one_then_two [3; 0]%nat
       = Done (drained_queue (fifo_policy nat) one_then_two
                 [(0, 3); (0, 0); (0, 1); (0, 2)]%nat) /\
     [(0, 3); (0, 0); (0, 1); (0, 2)]%nat = map (pair 0%nat) served /\
     served = [3; 0]%nat ++ concat (map one_then_two served)) /\
  (exists ts,
     insert_then_drain 10 (lifo_policy nat) 0 one_then_two [3; 0]%nat
       = Done (drained_queue (lifo_policy nat) one_then_two
                 [(0, 0); (0, 2); (0, 1); (0, 3)]%nat) /\
     Forall2 (depth_first one_then_two) [0; 3]%nat ts /\
     [(0, 0); (0, 2); (0, 1); (0, 3)]%nat = map (pair 0%nat) (concat ts)) /\
  (exists served,
     insert_then_drain 10 (priority_policy nat Nat.ltb) 0 one_then_two [3; 0]%nat
       = Done (drained_queue (priority_policy nat Nat.ltb) one_then_two
                 [(0, 3); (0, 0); (0, 2); (0, 1)]%nat) /\
     [(0, 3); (0, 0); (0, 2); (0, 1)]%nat = map (pair 0%nat) served /\
     greatest_first Nat.ltb one_then_two [3; 0]%nat served) /\
  (exists served,
     insert_then_drain 200 (priority_policy nat greater) 0 (branch_below 64)
       [0%nat]
       = Done (drained_queue (priority_policy nat greater) (branch_below 64)
                 (map (pair 0%nat) (seq 0 129))) /\
     map (pair 0%nat) (seq 0 129) = map (pair 0%nat) served /\
     greatest_first greater (branch_below 64) [0%nat] served).
Proof.
  assert (Ha : forall x y, (x <? y)%nat = true -> (y <? x)%nat = false).
  { intros x y H. apply Nat.ltb_lt in H. apply Nat.ltb_ge. lia. }
  assert (Ht : forall x y z,
             (x <? y)%nat = false -> (y <? z)%nat = false -> (x <? z)%nat = false).
  { intros x y z H1 H2. apply Nat.ltb_ge in H1, H2. apply Nat.ltb_ge. lia. }
  assert (Ga : forall x y, greater x y = true -> greater y x = false).
  { intros x y. apply Ha. }
  assert (Gt : forall x y z,
             greater x y = false -> greater y z = false -> greater x z = false).
  { intros x y z H1 H2. exact (Ht z y x H2 H1). }
  destruct (drain_follows_policy Nat.ltb one_then_two 0%nat [3; 0]%nat Ha Ht)
    as (F & L & P & _).
  destruct (drain_follows_policy greater (branch_below 64) 0%nat [0%nat] Ga Gt)
    as (_ & _ & T & _).
  assert (DF : insert_then_drain 10 (fifo_policy nat) 0 one_then_two [3; 0]%nat
       = Done (drained_queue (fifo_policy nat) one_then_two
                 [(0, 3); (0, 0); (0, 1); (0, 2)]%nat)) by reflexivity.
  assert (DL : insert_then_drain 10 (lifo_policy nat) 0 one_then_two [3; 0]%nat
       = Done (drained_queue (lifo_policy nat) one_then_two
                 [(0, 0); (0, 2); (0, 1); (0, 3)]%nat)) by reflexivity.
  assert (DP : insert_then_drain 10 (priority_policy nat Nat.ltb) 0
                 one_then_two [3; 0]%nat
       = Done (drained_queue (priority_policy nat Nat.ltb) one_then_two
                 [(0, 3); (0, 0); (0, 2); (0, 1)]%nat)) by reflexivity.
  assert (DT : insert_then_drain 200 (priority_policy nat greater) 0
                 (branch_below 64) [0%nat]
       = Done (drained_queue (priority_policy nat greater) (branch_below 64)
                 (map (pair 0%nat) (seq 0 129))))
    by (vm_compute; reflexivity).
  split; [|split; [|split]].
  - destruct (F _ _ DF) as (served & A & S).
    exists served. split; [exact DF|]. split; [exact A | exact S].
  - destruct (L _ _ DL) as (ts & D & A).
    exists ts. split; [exact DL|]. split; [exact D | exact A].
  - destruct (P _ _ DP) as (served & A & G).
    exists served. split; [exact DP|]. split; [exact A | exact G].
  - destruct (T _ _ DT) as (served & A & G).
    exists served. split; [exact DT|]. split; [exact A | exact G].
Defined.

(** *** The destructor *)
Section Destructor.
Context {Item : Type} {QP : QueuePolicy Item} {QL : Lawful QP} {QB : Bag QP}.
Implicit Types (st : rank_state Item) (wq : work_queue Item).

(** What the destructor of a live object does when it returns: its
    barrier has returned and has served the object's queue. *)
Lemma destroy_drains fuel this st st' wq :
  reachable st ->
  objects st !! this = Some wq ->
  destroy fuel this st = Done st' ->
  exists st1 wq1 served,
    barrier fuel st = Done st1 /\
    objects st1 !! this = Some wq1 /\
    local_size wq1 = 0%nat /\
    applied_at this st1 = applied_at this st ++ served /\
    Permutation served
      (contents (m_local_queue wq) ++ concat (map (m_work_lambda wq) served)) /\
    objects st' = delete this (objects st1) /\
    pre_barrier_callbacks st' = [] /\
    applied st' = applied st1.
Proof using QL QB.
  intros R L. unfold destroy.
  destruct (barrier fuel st) as [st1| | |] eqn:B; simpl; try discriminate.
  destruct (objects st1 !! this) as [wq1|] eqn:L1; [|discriminate].
  destruct (reachable_barrier_drains st fuel st1 this wq1 R B L1) as (_ & Z & _).
  rewrite Z. simpl. intros [= <-].
  destruct (barrier_served fuel st st1 this wq
              (reachable_work_is_pending st R) B L) as (served & A & S).
  exists st1, wq1, served. simpl.
  repeat (split; [assumption || reflexivity|]).
  split; [exact (barrier_no_pending _ _ _ B) | reflexivity].
Qed.

(** C10: every public operation keeps the invariant that a queue with
    work has its flag set.  Hence, in any state a program can reach, the
    barrier performed by the destructor drains the local items that
    remain: when the destructor of a live object returns, its barrier has
    applied the object's work function once to every item the queue held
    (and to every item inserted meanwhile) and has left the queue empty,
    and the object is gone with no callback pending.  The assertion
    [local_size() == 0] does not fire, the destructor returns whenever
    its barrier does, and its barrier does return when no work function
    inserts (given fuel for the pending callbacks and the longest
    queue). *)
Theorem destructor_assertion_holds :
  (forall fuel o st st',
     armed_if_work st -> run fuel o st = Done st' -> armed_if_work st') /\
  (forall fuel this st,
     reachable st ->
     destroy fuel this st <> AssertFail /\
     (forall st1, barrier fuel st = Done st1 ->
        is_Some (objects st !! this) ->
        exists st', destroy fuel this st = Done st') /\
     (forall bound, quiet st -> sizes_below bound st ->
        (length (pre_barrier_callbacks st) + bound < fuel)%nat ->
        is_Some (objects st !! this) ->
        exists st', destroy fuel this st = Done st') /\
     (forall wq st',
        objects st !! this = Some wq ->
        destroy fuel this st = Done st' ->
        exists st1 wq1 served,
          barrier fuel st = Done st1 /\
          objects st1 !! this = Some wq1 /\
          local_size wq1 = 0%nat /\
          applied_at this st1 = applied_at this st ++ served /\
          Permutation served
            (contents (m_local_queue wq)
               ++ concat (map (m_work_lambda wq) served)) /\
          objects st' = delete this (objects st1) /\
          pre_barrier_callbacks st' = [] /\
          applied st' = applied st1)).
Proof using QL QB.
  split.
  - intros fuel o st st'. apply run_armed_if_work.
  - intros fuel this st R. split; [|split; [|split]].
    + apply destroy_no_assert, R.
    + intros st1. apply destroy_returns, R.
    + intros bound Q S F A.
      destruct (reachable_invariants st R) as [_ [_ K]].
      destruct (barrier_quiet fuel st bound Q S K F) as [st1 B].
      apply (destroy_returns fuel this st st1 R B A).
    + intros wq st'. apply destroy_drains, R.
Qed.

End Destructor.

(** The rank after the destructor of its only queue. *)
Definition no_queue (log : list (nat * nat))
  : rank_state nat (QP := fifo_policy nat) :=
  {| objects := ∅; pre_barrier_callbacks := []; applied := log |}.

(** [one_queue] holds the item 0 and its work function counts on to 3:
    the destructor serves 0, 1, 2, 3 and removes the queue.  The queue
    that holds 0 and 1 and inserts nothing is destroyed with fuel 4. *)
Lemma destructor_assertion_holds_witness :
  (exists st', run 0 (OpLocalInsert 1 5) one_queue = Done st' /\
     armed_if_work st') /\
  destroy 10 1 one_queue <> AssertFail /\
  destroy 10 1 one_queue
    = Done (no_queue [(1, 0); (1, 1); (1, 2); (1, 3)]%nat) /\
  (exists st', destroy 4 1 (plain_queue [0; 1]%nat true) = Done st') /\
  (exists st1 wq1 served,
     barrier 10 one_queue = Done st1 /\
     objects st1 !! 1%nat = Some wq1 /\
     local_size wq1 = 0%nat /\
     applied_at 1 st1 = applied_at 1 one_queue ++ served /\
     Permutation served ([0%nat] ++ concat (map count_to_three served)) /\
     objects (no_queue [(1, 0); (1, 1); (1, 2); (1, 3)]%nat)
       = delete 1%nat (objects st1) /\
     applied st1 = [(1, 0); (1, 1); (1, 2); (1, 3)]%nat).
Proof.
  destruct (destructor_assertion_holds (QL := fifo_lawful nat)
              (QB := fifo_bag nat)) as [P1 P2].
  assert (D : destroy 10 1 one_queue
    = Done (no_queue [(1, 0); (1, 1); (1, 2); (1, 3)]%nat)) by reflexivity.
  split.
  - eexists. split; [reflexivity|].
    eapply (P1 0%nat (OpLocalInsert 1 5) one_queue);
      [apply (reachable_invariants one_queue one_queue_reachable) | reflexivity].
  - destruct (P2 10%nat 1%nat one_queue one_queue_reachable) as (N & _ & _ & E).
    split; [exact N|]. split; [exact D|]. split.
    + destruct (P2 4%nat 1%nat _ plain_queue_reachable) as (_ & _ & Q & _).
      destruct (plain_queue_quiet [0; 1]%nat true) as [Hq Hs].
      apply (Q 2%nat Hq Hs); [simpl; lia|]. eexists. reflexivity.
    + destruct (E (Build_work_queue (QP := fifo_policy nat)
                     [0%nat] count_to_three true) _ eq_refl D)
        as (st1 & wq1 & served & B & L1 & Z & A & S & O & _ & G).
      exists st1, wq1, served.
      repeat (split; [assumption|]). symmetry. exact G.
Defined.
End WorkQueueAccounting.


(** ** The alias table: from the balancer to the sample *)
Module AliasTableBuild.
Import Policy Double AliasTable AliasTableFacts.

(** *** The ids the balancer hands on, in any arithmetic *)
Section Ids.
Context {Item : Type} {D : Type} {AR : Arith D}.
Implicit Types (w : walk Item D) (items : list (item Item D)).
Implicit Types (ids : list Item).

(** Every item carries one of the ids [ids]. *)
Definition ids_among ids items : Prop :=
  Forall (fun itm => id itm ∈ ids) items.

Definition batches_among ids (msgs : list (Z * list (item Item D))) : Prop :=
  Forall (fun m => ids_among ids (snd m)) msgs.

Record walk_ids ids w : Prop := {
  ids_todo : ids_among ids (m_local_items w);
  ids_pending : ids_among ids (items_to_send w);
  ids_sent : batches_among ids (sent w)
}.

Lemma ids_among_one ids (x : Item) (d : D) :
  x ∈ ids -> ids_among ids [{| id := x; weight := d |}].
Proof. intros H. repeat constructor. exact H. Qed.

Lemma walk_step_ids ids nranks target local_item rest w :
  walk_ids ids w -> id local_item ∈ ids -> ids_among ids rest ->
  walk_ids ids (walk_step nranks target local_item rest w).
Proof.
  intros [_ P S] Hi Hr. unfold walk_step.
  destruct (fills _ _ _); [|split; simpl; auto].
  - assert (B : ids_among ids
                  (items_to_send w ++
                   [{| id := id local_item;
                       weight := sub (weight local_item)
                                   (sub (add (curr_weight w) (weight local_item))
                                      target) |}])).
    { apply Forall_app. split; [exact P | apply ids_among_one, Hi]. }
    split; simpl.
    + destruct (leb target _); [|exact Hr].
      apply Forall_app. split; [exact Hr | apply ids_among_one, Hi].
    + destruct (negb _); [apply ids_among_one, Hi | constructor].
    + destruct (dest_rank w <? nranks)%Z; [|exact S].
      apply Forall_app. split; [exact S|]. repeat constructor. exact B.
  - apply Forall_app. split; [exact P|]. repeat constructor. exact Hi.
Qed.

Lemma walk_loop_ids ids fuel nranks target : forall w w',
  walk_ids ids w ->
  walk_loop fuel nranks target w = Done w' -> walk_ids ids w'.
Proof.
  induction fuel as [|fuel IH]; intros w w' I; simpl;
    destruct (m_local_items w) as [|local_item rest] eqn:M;
    try discriminate; try (intros [= <-]; exact I).
  apply IH. pose proof (ids_todo _ _ I) as T. rewrite M in T.
  apply Forall_cons in T as [Hi Hr]. apply walk_step_ids; assumption.
Qed.

Lemma flush_ids ids nranks w :
  walk_ids ids w -> batches_among ids (flush nranks w).
Proof.
  intros [_ P S]. unfold flush. destruct (_ && _); [|exact S].
  apply Forall_app. split; [exact S|]. repeat constructor. exact P.
Qed.

Lemma balance_rank_ids fuel nranks prfx target items out :
  balance_rank fuel nranks prfx target items = Done out ->
  batches_among (map id items) out.
Proof.
  unfold balance_rank. destruct (initial_dest_rank prfx target); [|discriminate].
  destruct (walk_loop _ _ _ _) as [w| | |] eqn:L; simpl; try discriminate.
  intros [= <-]. apply flush_ids.
  eapply walk_loop_ids; [|exact L]. split; simpl; try constructor.
  apply Forall_forall. intros itm Hi. apply list_elem_of_fmap.
  exists itm. auto.
Qed.

Lemma ids_among_mono ids ids' items :
  (forall x, x ∈ ids -> x ∈ ids') -> ids_among ids items -> ids_among ids' items.
Proof.
  intros H F. eapply Forall_impl; [exact F|]. intros itm. apply H.
Qed.

Lemma run_ranks_ids fuel k locals target nranks : forall inputs r outs,
  run_ranks fuel k locals target nranks r inputs = Done outs ->
  Forall (batches_among (map id (concat inputs))) outs.
Proof.
  induction inputs as [|items more IH]; intros r outs; simpl.
  - intros [= <-]. constructor.
  - destruct (balance_rank _ _ _ _ items) as [out| | |] eqn:B; simpl;
      try discriminate.
    destruct (run_ranks _ _ _ _ _ (S r) more) as [outs'| | |] eqn:R; simpl;
      try discriminate.
    intros [= <-]. rewrite map_app. constructor.
    + eapply Forall_impl; [apply (balance_rank_ids _ _ _ _ _ _ B)|].
      intros m. apply ids_among_mono. intros x Hx.
      apply elem_of_app. auto.
    + eapply Forall_impl; [apply (IH _ _ R)|].
      intros out' Ho. eapply Forall_impl; [exact Ho|].
      intros m. apply ids_among_mono.
      intros x Hx. apply elem_of_app. auto.
Qed.

Lemma received_from_ids ids (d : nat) msgs :
  batches_among ids msgs -> ids_among ids (received_from d msgs).
Proof.
  unfold received_from. induction 1 as [|m msgs Hm _ IH]; simpl; [constructor|].
  destruct (fst m =? Z.of_nat d)%Z; [|exact IH].
  simpl. apply Forall_app. auto.
Qed.

Lemma deliver_ids ids outs (d : nat) :
  Forall (batches_among ids) outs -> ids_among ids (deliver outs d).
Proof.
  unfold deliver. induction 1 as [|out outs Ho _ IH]; simpl; [constructor|].
  apply Forall_app. split; [apply received_from_ids, Ho | exact IH].
Qed.

Lemma balance_weight_ids k fuel inputs out :
  balance_weight k fuel inputs = Done out ->
  length out = length inputs /\
  Forall (ids_among (map id (concat inputs))) out.
Proof.
  unfold balance_weight.
  destruct (run_ranks _ _ _ _ _ _ _) as [outs| | |] eqn:R; simpl;
    try discriminate.
  destruct (forallb (fun items => negb (is_nil items)) _); simpl;
    [|discriminate].
  destruct (forallb (is_balanced_local _) _); simpl; [|discriminate].
  destruct (ygm_is_same _ _); simpl; [|discriminate].
  intros [= <-]. split.
  - rewrite length_map, length_seq. reflexivity.
  - apply Forall_forall. intros items Hi.
    apply list_elem_of_fmap in Hi as (d & -> & _).
    apply deliver_ids, (run_ranks_ids _ _ _ _ _ _ _ _ R).
Qed.

Lemma elem_of_concat {A : Type} (x : A) (ls : list (list A)) :
  x ∈ concat ls -> exists l, x ∈ l /\ l ∈ ls.
Proof.
  intros H. apply list_elem_of_In, List.in_concat in H as (l & Hl & Hx).
  exists l. split; apply list_elem_of_In; assumption.
Qed.

(** X6: the balancer invents no id: when [balance_weight] returns, in
    whatever arithmetic and with either kind of prefix sum, there are as
    many ranks as before and every fragment a rank holds carries the id of
    an item of the input. *)
Theorem balance_invents_no_id k fuel (inputs out : list (list (item Item D))) :
  balance_weight k fuel inputs = Done out ->
  length out = length inputs /\
  forall itm, itm ∈ concat out -> id itm ∈ map id (concat inputs).
Proof.
  intros H. destruct (balance_weight_ids _ _ _ _ H) as [L F].
  split; [exact L|]. intros itm Hi.
  apply elem_of_concat in Hi as (items & Hi & Ho).
  rewrite Forall_forall in F. specialize (F items Ho).
  unfold ids_among in F. rewrite Forall_forall in F. auto.
Qed.

(** *** No items at all *)

Lemma balance_rank_nothing fuel nranks (prfx target : D) :
  balance_rank (Item := Item) fuel nranks prfx target [] = Done [] \/
  balance_rank (Item := Item) fuel nranks prfx target [] = Undefined.
Proof.
  unfold balance_rank. destruct (initial_dest_rank prfx target); [|auto].
  left. destruct fuel; reflexivity.
Qed.

Lemma run_ranks_nothing fuel k locals target nranks :
  forall (inputs : list (list (item Item D))) r,
  Forall (fun items => items = []) inputs ->
  (exists outs, run_ranks fuel k locals target nranks r inputs = Done outs /\
     Forall (fun out => out = []) outs) \/
  run_ranks fuel k locals target nranks r inputs = Undefined.
Proof.
  induction inputs as [|items more IH]; intros r E; simpl.
  - left. eexists. split; [reflexivity | constructor].
  - apply Forall_cons in E as [-> E].
    destruct (balance_rank_nothing fuel (Z.of_nat nranks)
                (ygm_prefix_sum k locals r) target) as [-> | ->];
      simpl; [|auto].
    destruct (IH (S r) E) as [(outs & -> & N) | ->]; simpl; [|auto].
    left. eexists. split; [reflexivity|]. constructor; [reflexivity | exact N].
Qed.

Lemma deliver_nothing outs (d : nat) :
  Forall (fun out : list (Z * list (item Item D)) => out = []) outs ->
  deliver outs d = [].
Proof.
  unfold deliver. induction 1 as [|out outs -> _ IH]; simpl; auto.
Qed.

(** X7: built from no items at all, the alias table is never
    constructed: on one rank or more, all without items, [balance_weight]
    does not return.  It stops at the release assertion
    [m_local_items.size() > 0], unless the conversion of
    [prfx_sum_weight / target_weight] to [int] is undefined before (with
    [double], 0.0 / 0.0 is not a number). *)
Theorem empty_input_never_returns k fuel
  (inputs : list (list (item Item D))) :
  inputs <> [] -> Forall (fun items => items = []) inputs ->
  balance_weight k fuel inputs = AssertFail \/
  balance_weight k fuel inputs = Undefined.
Proof.
  intros Hne E. unfold balance_weight.
  destruct (run_ranks_nothing fuel k (map local_weight inputs)
              (div (ygm_sum (map local_weight inputs)) (of_nat (length inputs)))
              (length inputs) inputs 0%nat E) as [(outs & -> & N) | ->];
    simpl; [|auto].
  left. destruct inputs as [|items more]; [contradiction|].
  cbn [length seq map forallb]. rewrite (deliver_nothing _ _ N).
  reflexivity.
Qed.

End Ids.

(** *** The ids in the buckets, and the sample, in any arithmetic *)
Section Buckets.
Context {Item : Type} {D : Type} {AR : Arith D}.
Implicit Types (items : list (item Item D)) (ids : list Item).
Implicit Types (table : list (table_item Item D)).

(** A bucket names an item in [a]; in [b] it names an item too, unless it
    is a bucket of a flushing loop, whose [p] is the average itself and
    whose [b] is the placeholder [Item()]. *)
Definition bucket_ok ids (avg : D) (t : table_item Item D) : Prop :=
  a t ∈ ids /\ (b t ∈ ids \/ p t = avg).

Lemma classify_ids ids avg items : forall light heavy,
  ids_among ids light -> ids_among ids heavy -> ids_among ids items ->
  let r := fold_left
    (fun '(light_items, heavy_items) (itm : item Item D) =>
       if ltb (weight itm) avg
       then (itm :: light_items, heavy_items)
       else (light_items, itm :: heavy_items)) items (light, heavy) in
  ids_among ids (fst r) /\ ids_among ids (snd r).
Proof.
  induction items as [|itm items IH]; intros light heavy L Hv I; simpl.
  - auto.
  - apply Forall_cons in I as [Hi I].
    destruct (ltb (weight itm) avg); apply IH; auto; constructor; assumption.
Qed.

Lemma pair_up_ids ids avg (light heavy : list (item Item D)) table :
  let '(table', light', heavy') := pair_up avg light heavy table in
  ids_among ids light -> ids_among ids heavy ->
  Forall (bucket_ok ids avg) table ->
  Forall (bucket_ok ids avg) table' /\
  ids_among ids light' /\ ids_among ids heavy'.
Proof.
  funelim (pair_up avg light heavy table); simp pair_up; try (intros; auto).
  - clear Heqcall. destruct (pair_up _ _ _ _) as [[t' l'] h'].
    intros L Hv T. apply Forall_cons in L as [Ll L].
    apply Forall_cons in Hv as [Hh Hv].
    apply H; [constructor; assumption | exact Hv |].
    apply Forall_app. split; [exact T|]. repeat constructor; simpl; auto.
  - clear Heqcall. destruct (pair_up _ _ _ _) as [[t' l'] h'].
    intros L Hv T. apply Forall_cons in L as [Ll L].
    apply Forall_cons in Hv as [Hh Hv].
    apply H; [exact L | constructor; assumption |].
    apply Forall_app. split; [exact T|]. repeat constructor; simpl; auto.
Qed.

Lemma flush_items_ids ids default_item avg items :
  ids_among ids items ->
  Forall (bucket_ok ids avg) (flush_items default_item avg items).
Proof.
  intros I. unfold flush_items. apply Forall_forall. intros t Ht.
  apply list_elem_of_fmap in Ht as (itm & -> & Hi).
  unfold ids_among in I. rewrite Forall_forall in I.
  split; simpl; auto.
Qed.

Lemma ids_among_self items : ids_among (map id items) items.
Proof.
  apply Forall_forall. intros itm Hi. apply list_elem_of_fmap.
  exists itm. auto.
Qed.

Lemma build_local_ids default_item items :
  Forall (bucket_ok (map id items) (average items))
    (build_local_alias_table default_item items).
Proof.
  unfold build_local_alias_table.
  pose proof (classify_ids (map id items) (average items) items [] []
                ltac:(constructor) ltac:(constructor) (ids_among_self items))
    as C.
  cbv zeta in C. fold (classify (average items) items) in C.
  destruct (classify (average items) items) as [light heavy].
  destruct C as [C1 C2]. cbn [fst snd] in C1, C2.
  pose proof (pair_up_ids (map id items) (average items) light heavy []) as P.
  destruct (pair_up (average items) light heavy []) as [[table l'] h'].
  destruct (P C1 C2 ltac:(constructor)) as (T & L & Hv).
  apply Forall_app. split; [exact T|].
  apply Forall_app. split; apply flush_items_ids; assumption.
Qed.

(** No number is less than itself. *)
Class StrictLt : Prop := {
  ltb_irrefl : forall x : D, ltb x x = false
}.

Section Sample.
Context `{!StrictLt} {Rng : Type}.
Variable index_dist : nat -> Rng -> nat * Rng.
Variable weight_dist : D -> Rng -> D * Rng.
Variable rank_dist : nat -> Rng -> nat * Rng.

Lemma sample_wrapper_ids ids (t : alias_table Item D) m_rng s rng' :
  Forall (bucket_ok ids (m_avg_weight t)) (m_local_alias_table t) ->
  sample_wrapper index_dist weight_dist t m_rng = Some (s, rng') ->
  s ∈ ids.
Proof.
  intros T. unfold sample_wrapper.
  destruct (index_dist _ m_rng) as [i rng1].
  destruct (nth_error (m_local_alias_table t) i) as [bucket|] eqn:N;
    [|discriminate].
  apply nth_error_In, list_elem_of_In in N.
  rewrite Forall_forall in T. destruct (T bucket N) as [Ha Hb].
  destruct (ltb (p bucket) (m_avg_weight t)) eqn:Lt.
  - destruct (weight_dist _ rng1) as [f rng2].
    destruct (ltb (p bucket) f); intros [= <- _]; [|exact Ha].
    destruct Hb as [Hb|Hp]; [exact Hb|].
    rewrite Hp, ltb_irrefl in Lt. discriminate.
  - intros [= <- _]. exact Ha.
Qed.

(** X10: the id [sample_wrapper] hands to the visitor, drawn from the
    table [build_local_alias_table] made of a rank's items, is the id of
    one of these items; the placeholder [Item()] in the buckets of the
    flushing loops is never handed out. *)
Theorem sample_is_local_item (default_item : Item) items m_rng s rng' :
  sample_wrapper index_dist weight_dist (built_table default_item items) m_rng
    = Some (s, rng') ->
  s ∈ map id items.
Proof. apply sample_wrapper_ids. simpl. apply build_local_ids. Qed.

(** X11: whatever [async_sample] hands to the visitor, on tables that
    [build_alias_table] has built, is the id of an item of the input, on
    whichever rank the call is made and whichever rank is drawn; the call
    changes the engines only, the tables stay as built. *)
Theorem async_sample_is_input_id k fuel (default_item : Item)
  (inputs : list (list (item Item D))) tables
  (ranks ranks' : list (alias_table Item D * Rng)) (r : nat) s :
  build_alias_table k fuel default_item inputs = Done tables ->
  map fst ranks = tables ->
  async_sample index_dist weight_dist rank_dist ranks r = Some (s, ranks') ->
  s ∈ map id (concat inputs) /\ map fst ranks' = tables.
Proof.
  unfold build_alias_table.
  destruct (balance_weight k fuel inputs) as [balanced| | |] eqn:B; simpl;
    try discriminate.
  destruct (balance_weight_ids _ _ _ _ B) as [_ I].
  intros [= <-] M. unfold async_sample.
  destruct (ranks !! r) as [[t m_rng]|] eqn:Lr; [|discriminate].
  destruct (rank_dist _ m_rng) as [dest rng1].
  assert (M1 : map fst (<[r := (t, rng1)]> ranks) = map fst ranks).
  { rewrite list_fmap_insert. simpl. apply list_insert_id.
    rewrite list_lookup_fmap, Lr. reflexivity. }
  destruct (<[r := (t, rng1)]> ranks !! dest) as [[td rng_d]|] eqn:Ld;
    [|discriminate].
  destruct (sample_wrapper index_dist weight_dist td rng_d)
    as [[s' rng2]|] eqn:S; [|discriminate].
  intros [= <- <-]. split.
  - assert (Ht : td ∈ map (built_table default_item) balanced).
    { rewrite <- M, <- M1. apply list_elem_of_fmap.
      exists (td, rng_d). split; [reflexivity|].
      apply list_elem_of_lookup. eauto. }
    apply list_elem_of_fmap in Ht as (items & -> & Hi).
    rewrite Forall_forall in I. specialize (I items Hi).
    apply (sample_wrapper_ids (map id items)) in S;
      [|simpl; apply build_local_ids].
    unfold ids_among in I. rewrite Forall_forall in I.
    apply list_elem_of_fmap in S as (itm & -> & Hitm). auto.
  - rewrite list_fmap_insert. simpl.
    rewrite list_insert_id; [exact (eq_trans M1 M)|].
    rewrite list_lookup_fmap, Ld. reflexivity.
Qed.

End Sample.
End Buckets.

#[global] Instance exact_strict_lt : StrictLt (AR := exact).
Proof.
  split. intros x. simpl. apply negb_false_iff, Qle_bool_iff, Qle_refl.
Qed.

#[global] Instance binary64_strict_lt : StrictLt (AR := binary64).
Proof.
  split. intros x. simpl. unfold SFltb.
  destruct x as [[]|[]| |[] m e]; simpl;
    rewrite ?Z.compare_refl, ?Pos.compare_cont_refl; reflexivity.
Qed.

(** *** Exact arithmetic: what the table gives to each id *)
Section ExactTable.
Context {Item : Type} `{EqDecision Item}.
#[local] Existing Instance exact.
Local Open Scope Q_scope.
Implicit Types (items light heavy : list (item Item Q)).
Implicit Types (table : list (table_item Item Q)).

(** A bucket [(p, a, b)] of a table with average weight [avg] stands for
    the weight [avg]: [sample_wrapper] hands out [b] when the number it
    draws from [0, avg) exceeds [p], and [a] otherwise, so [p] of the
    weight falls to [a] and [avg - p] to [b]. *)
Definition bucket_mass (x : Item) (avg : Q) (t : table_item Item Q) : Q :=
  (if bool_decide (a t = x) then p t else 0)
  + (if bool_decide (b t = x) then avg - p t else 0).

Definition mass_of (x : Item) (avg : Q) table : Q :=
  fold_right (fun t acc => bucket_mass x avg t + acc) 0 table.

(** By how much the items exceed the average, in total. *)
Definition excess (avg : Q) items : Q :=
  fold_right (fun itm acc => (weight itm - avg) + acc) 0 items.

Definition lighter (avg : Q) items : Prop :=
  Forall (fun itm => weight itm < avg) items.

Definition heavier (avg : Q) items : Prop :=
  Forall (fun itm => avg <= weight itm) items.

Definition valid_buckets (avg : Q) table : Prop :=
  Forall (fun t => 0 <= p t <= avg) table.

Lemma mass_of_app x avg table1 table2 :
  mass_of x avg (table1 ++ table2) == mass_of x avg table1 + mass_of x avg table2.
Proof. induction table1 as [|t l IH]; simpl; [|rewrite IH]; ring. Qed.

Lemma excess_total avg items :
  excess avg items ==
  total items - avg * inject_Z (Z.of_nat (length items)).
Proof.
  induction items as [|itm l IH]; [simpl; ring|].
  cbn [excess fold_right total length]. fold (excess avg l). fold (total l).
  rewrite IH, Nat2Z.inj_succ. unfold Z.succ. rewrite inject_Z_plus.
  change (inject_Z 1) with 1. ring.
Qed.

Lemma excess_lighter avg items :
  lighter avg items -> excess avg items == 0 -> items = [].
Proof.
  intros L. assert (B : items <> [] -> excess avg items < 0).
  { induction L as [|itm l Hx Hl IH]; [congruence|]. intros _. simpl.
    fold (excess avg l). destruct l as [|y l].
    - simpl. lra.
    - assert (excess avg (y :: l) < 0) by (apply IH; discriminate). lra. }
  intros E. destruct items; [reflexivity|].
  assert (excess avg (i :: items) < 0) by (apply B; discriminate). lra.
Qed.

Lemma excess_heavier avg items :
  heavier avg items -> excess avg items == 0 ->
  Forall (fun itm => weight itm == avg) items.
Proof.
  induction 1 as [|itm l Hx Hl IH]; intros E; [constructor|].
  simpl in E. fold (excess avg l) in E.
  assert (B : 0 <= excess avg l).
  { clear -Hl. induction Hl as [|y l Hy Hl IH]; simpl; [lra|].
    fold (excess avg l). lra. }
  constructor; [lra | apply IH; lra].
Qed.

(** The classification loop puts every item into one of the two
    vectors, the lighter ones into [light_items]. *)
Lemma classify_acc avg items : forall light heavy,
  lighter avg light -> heavier avg heavy ->
  let r := fold_left
    (fun '(light_items, heavy_items) (itm : item Item Q) =>
       if ltb (weight itm) avg
       then (itm :: light_items, heavy_items)
       else (light_items, itm :: heavy_items)) items (light, heavy) in
  lighter avg (fst r) /\ heavier avg (snd r) /\
  excess avg (fst r) + excess avg (snd r) ==
    excess avg light + excess avg heavy + excess avg items /\
  (forall x, weight_of x (fst r) + weight_of x (snd r) ==
     weight_of x light + weight_of x heavy + weight_of x items) /\
  (nonneg light -> nonneg heavy -> nonneg items ->
   nonneg (fst r) /\ nonneg (snd r)).
Proof.
  induction items as [|itm items IH]; intros light heavy L Hv; simpl.
  - split; [exact L|]. split; [exact Hv|]. split; [ring|].
    split; [intros x; rewrite weight_of_nil; ring | auto].
  - destruct (Qle_bool avg (weight itm)) eqn:C; simpl.
    + apply Qle_bool_iff in C.
      destruct (IH light (itm :: heavy) L) as (A1 & A2 & A3 & A4 & A5).
      { constructor; assumption. }
      split; [exact A1|]. split; [exact A2|].
      split; [rewrite A3; simpl; ring|].
      split; [intros x; rewrite A4, !weight_of_cons; ring|].
      intros N1 N2 N3. apply Forall_cons in N3 as [N3 N4].
      apply A5; auto. constructor; assumption.
    + apply Qle_bool_false in C.
      destruct (IH (itm :: light) heavy) as (A1 & A2 & A3 & A4 & A5); auto.
      { constructor; assumption. }
      split; [exact A1|]. split; [exact A2|].
      split; [rewrite A3; simpl; ring|].
      split; [intros x; rewrite A4, !weight_of_cons; ring|].
      intros N1 N2 N3. apply Forall_cons in N3 as [N3 N4].
      apply A5; auto. constructor; assumption.
Qed.

(** The pairing loop: each round moves the weight of one light item,
    and as much of a heavy item as fills the bucket up to the average,
    from the vectors into the table. *)
Lemma pair_up_exact avg light heavy table :
  let '(table', light', heavy') := pair_up avg light heavy table in
  lighter avg light -> heavier avg heavy ->
  (light' = [] \/ heavy' = []) /\
  lighter avg light' /\ heavier avg heavy' /\
  excess avg light' + excess avg heavy' ==
    excess avg light + excess avg heavy /\
  (forall x, mass_of x avg table' + weight_of x light' + weight_of x heavy' ==
             mass_of x avg table + weight_of x light + weight_of x heavy) /\
  (Forall (fun t => p t <= avg) table -> Forall (fun t => p t <= avg) table') /\
  (valid_buckets avg table -> nonneg light -> nonneg heavy ->
   valid_buckets avg table' /\ nonneg light' /\ nonneg heavy').
Proof.
  funelim (pair_up avg light heavy table); simp pair_up.
  - intros L Hv. split; [auto|]. split; [exact L|]. split; [exact Hv|].
    split; [reflexivity|]. split; [reflexivity|]. split; auto.
  - intros L Hv. split; [auto|]. split; [exact L|]. split; [exact Hv|].
    split; [reflexivity|]. split; [reflexivity|]. split; auto.
  - clear Heqcall. destruct (pair_up _ _ _ _) as [[t' l'] h'].
    intros L Hv. apply Forall_cons in L as [Ll L].
    apply Forall_cons in Hv as [Hh Hv].
    cbn [sub add ltb exact] in *.
    apply negb_true_iff, Qle_bool_false in Heq.
    destruct H as (A1 & A2 & A3 & A4 & A5 & A6 & A7);
      [constructor; [exact Heq | exact L] | exact Hv |].
    split; [exact A1|]. split; [exact A2|]. split; [exact A3|].
    split; [rewrite A4; simpl; ring|].
    split.
    { intros x. rewrite A5, mass_of_app, !weight_of_cons. simpl.
      unfold bucket_mass. simpl.
      destruct (bool_decide (id l = x)), (bool_decide (id h = x)); ring. }
    split.
    { intros B. apply A6, Forall_app. split; [exact B|].
      repeat constructor. simpl. lra. }
    intros V N1 N2. apply Forall_cons in N1 as [N1a N1].
    apply Forall_cons in N2 as [N2a N2]. apply A7.
    + apply Forall_app. split; [exact V|]. repeat constructor; simpl; lra.
    + constructor; [simpl; lra | exact N1].
    + exact N2.
  - clear Heqcall. destruct (pair_up _ _ _ _) as [[t' l'] h'].
    intros L Hv. apply Forall_cons in L as [Ll L].
    apply Forall_cons in Hv as [Hh Hv].
    cbn [sub add ltb exact] in *.
    apply negb_false_iff, Qle_bool_iff in Heq.
    destruct H as (A1 & A2 & A3 & A4 & A5 & A6 & A7);
      [exact L | constructor; [exact Heq | exact Hv] |].
    split; [exact A1|]. split; [exact A2|]. split; [exact A3|].
    split; [rewrite A4; simpl; ring|].
    split.
    { intros x. rewrite A5, mass_of_app, !weight_of_cons. simpl.
      unfold bucket_mass. simpl.
      destruct (bool_decide (id l = x)), (bool_decide (id h = x)); ring. }
    split.
    { intros B. apply A6, Forall_app. split; [exact B|].
      repeat constructor. simpl. lra. }
    intros V N1 N2. apply Forall_cons in N1 as [N1a N1].
    apply Forall_cons in N2 as [N2a N2]. apply A7.
    + apply Forall_app. split; [exact V|]. repeat constructor; simpl; lra.
    + exact N1.
    + constructor; [simpl; lra | exact N2].
Qed.

Lemma average_excess items : excess (average items) items == 0.
Proof.
  destruct items as [|itm l]; [reflexivity|].
  rewrite excess_total. unfold average. cbn [div of_nat exact].
  rewrite local_weight_total.
  assert (0 < inject_Z (Z.of_nat (length (itm :: l)))).
  { change 0 with (inject_Z 0). rewrite <- Zlt_Qlt. simpl. lia. }
  field. lra.
Qed.

Lemma average_nonneg items : nonneg items -> 0 <= average items.
Proof.
  intros N. unfold average. cbn [div of_nat exact].
  rewrite local_weight_total. pose proof (total_nonneg _ N) as T.
  assert (0 <= inject_Z (Z.of_nat (length items))).
  { change 0 with (inject_Z 0). rewrite <- Zle_Qle. lia. }
  unfold Qdiv. apply Qmult_le_0_compat; [exact T|].
  apply Qinv_le_0_compat. assumption.
Qed.

(** A bucket of a flushing loop gives the whole average to its item. *)
Lemma flush_items_mass x default_item avg items :
  Forall (fun itm => weight itm == avg) items ->
  mass_of x avg (flush_items default_item avg items) == weight_of x items.
Proof.
  induction 1 as [|itm l E _ IH]; [reflexivity|].
  rewrite weight_of_cons. simpl. rewrite IH. unfold bucket_mass. simpl.
  destruct (bool_decide (id itm = x)), (bool_decide (default_item = x)); lra.
Qed.

Lemma flush_items_bounded default_item avg items :
  Forall (fun t : table_item Item Q => p t <= avg)
    (flush_items default_item avg items).
Proof.
  unfold flush_items. apply Forall_forall. intros t Ht.
  apply list_elem_of_fmap in Ht as (itm & -> & _). simpl. lra.
Qed.

(** The table [build_local_alias_table] makes of [items], with exact
    arithmetic. *)
Lemma build_local_exact default_item items :
  (forall x, mass_of x (average items)
               (build_local_alias_table default_item items)
             == weight_of x items) /\
  Forall (fun t => p t <= average items)
    (build_local_alias_table default_item items) /\
  (nonneg items ->
   valid_buckets (average items) (build_local_alias_table default_item items)).
Proof.
  unfold build_local_alias_table.
  pose proof (classify_acc (average items) items [] []
                ltac:(constructor) ltac:(constructor)) as C.
  cbv zeta in C. fold (classify (average items) items) in C.
  destruct (classify (average items) items) as [light heavy].
  destruct C as (C1 & C2 & C3 & C4 & C5). cbn [fst snd] in C1, C2, C3, C4, C5.
  pose proof (pair_up_exact (average items) light heavy []) as P.
  destruct (pair_up (average items) light heavy []) as [[table l'] h'].
  destruct (P C1 C2) as (P1 & P2 & P3 & P4 & P5 & P6 & P7).
  pose proof (average_excess items) as C0.
  change (excess (average items) []) with 0 in C3.
  assert (E : excess (average items) l' + excess (average items) h' == 0)
    by lra.
  assert (Hl : l' = []).
  { destruct P1 as [->| ->]; [reflexivity|].
    apply (excess_lighter (average items)); [exact P2|].
    change (excess (average items) []) with 0 in E. lra. }
  subst l'. change (excess (average items) []) with 0 in E.
  assert (Hh : Forall (fun itm => weight itm == average items) h').
  { apply excess_heavier; [exact P3 | lra]. }
  simpl. rewrite app_nil_r. split; [|split].
  - intros x. rewrite mass_of_app, flush_items_mass by exact Hh.
    specialize (P5 x). specialize (C4 x).
    rewrite !weight_of_nil in *. simpl in P5. lra.
  - apply Forall_app. split; [apply P6; constructor|].
    apply flush_items_bounded.
  - intros N. destruct (C5 ltac:(constructor) ltac:(constructor) N) as [N1 N2].
    destruct (P7 ltac:(constructor) N1 N2) as (V & _ & _).
    apply Forall_app. split; [exact V|].
    unfold flush_items. apply Forall_forall. intros t Ht.
    apply list_elem_of_fmap in Ht as (itm & -> & _). cbn [p].
    split; [apply (average_nonneg items N) | apply Qle_refl].
Qed.

(** X8: with exact arithmetic the table [build_local_alias_table] makes
    gives every id exactly its weight: summed over the buckets, the part
    [p] of each bucket whose [a] is the id and the part [avg - p] of each
    bucket whose [b] is the id equal the weight the id has among the
    rank's items. *)
Theorem alias_table_keeps_mass (default_item : Item) items (x : Item) :
  mass_of x (average items) (build_local_alias_table default_item items)
  == weight_of x items.
Proof. apply build_local_exact. Qed.

(** X9: with exact arithmetic and non-negative weights every bucket of
    the table has [0 <= p <= avg_weight]: the two parts [p] and
    [avg_weight - p] of a bucket are both non-negative, and the test
    [f > p] of the sampler splits the draws accordingly. *)
Theorem alias_table_buckets_valid (default_item : Item) items :
  nonneg items ->
  Forall (fun t => 0 <= p t <= average items)
    (build_local_alias_table default_item items).
Proof. apply build_local_exact. Qed.

End ExactTable.

(** *** Exact arithmetic: from the input to the chance of an id *)
Section ExactBuild.
Context {Item : Type} `{EqDecision Item}.
#[local] Existing Instance exact.
Local Open Scope Q_scope.
Implicit Types (items : list (item Item Q)).
Implicit Types (inputs : list (list (item Item Q))).
Implicit Types (tables : list (alias_table Item Q)).

(** The weight the buckets of a table give to [x]. *)
Definition table_mass (x : Item) (t : alias_table Item Q) : Q :=
  mass_of x (m_avg_weight t) (m_local_alias_table t).

Lemma sum_list_scaled {A : Type} (f g : A -> Q) (c : Q) (l : list A) :
  Forall (fun a => f a * c == g a) l ->
  sum_list f l * c == sum_list g l.
Proof.
  induction 1 as [|a l Ha _ IH]; simpl; [ring|].
  rewrite <- IH, <- Ha. ring.
Qed.

Lemma sum_list_mass x avg (table : list (table_item Item Q)) :
  sum_list (bucket_mass x avg) table == mass_of x avg table.
Proof. reflexivity. Qed.

Lemma weight_of_concat x inputs :
  weight_of x (concat inputs) == sum_list (weight_of x) inputs.
Proof.
  induction inputs as [|items more IH]; [reflexivity|].
  simpl. rewrite weight_of_app, IH. reflexivity.
Qed.

Lemma sum_list_map {A B : Type} (g : B -> Q) (h : A -> B) (l : list A) :
  sum_list g (map h l) = sum_list (fun a => g (h a)) l.
Proof. induction l as [|a l IH]; simpl; [|rewrite IH]; reflexivity. Qed.

Lemma sum_list_eq {A : Type} (f g : A -> Q) (l : list A) :
  Forall (fun a => f a == g a) l -> sum_list f l == sum_list g l.
Proof.
  induction 1 as [|a l Ha _ IH]; simpl; [reflexivity|].
  rewrite IH, Ha. reflexivity.
Qed.

Lemma build_local_length (default_item : Item) items :
  length (build_local_alias_table default_item items) = length items.
Proof.
  unfold build_local_alias_table.
  pose proof (classify_length (average items) items) as C.
  destruct (classify (average items) items) as [light heavy].
  pose proof (pair_up_length (average items) light heavy []) as P.
  destruct (pair_up (average items) light heavy []) as [[table l'] h'].
  unfold flush_items. rewrite !length_app, !length_map.
  simpl in *. lia.
Qed.

(** With exact arithmetic, [build_alias_table] returns; every rank has a
    table, of as many buckets as it holds fragments, whose buckets stand
    for the target weight in total; over all ranks the buckets give every
    id its weight. *)
Lemma build_alias_table_exact fuel (default_item : Item) inputs :
  Forall nonneg inputs ->
  0 < ygm_sum (map local_weight inputs) ->
  (Z.of_nat (length inputs) <= int_max)%Z ->
  enough_fuel fuel inputs ->
  exists tables,
    build_alias_table Exclusive fuel default_item inputs = Done tables /\
    length tables = length inputs /\
    Forall (fun t => m_local_alias_table t <> [] /\
              m_avg_weight t
                * inject_Z (Z.of_nat (length (m_local_alias_table t)))
              == ygm_sum (map local_weight inputs)
                   / inject_Z (Z.of_nat (length inputs))) tables /\
    (forall x, sum_list (table_mass x) tables
               == weight_of x (concat inputs)).
Proof.
  intros Hnn HG Hint Hfuel.
  destruct (balance_weight_exact fuel inputs Hnn HG Hint Hfuel)
    as (out & Hout & Hlen & Hbal & W).
  unfold build_alias_table. rewrite Hout. cbn [Outcome.bind].
  eexists. split; [reflexivity|].
  split; [rewrite length_map; exact Hlen|]. split.
  - apply Forall_forall. intros t Ht.
    apply list_elem_of_fmap in Ht as (items & -> & Hi).
    rewrite Forall_forall in Hbal. destruct (Hbal items Hi) as [Ne Eq].
    cbn [built_table m_local_alias_table m_avg_weight].
    rewrite build_local_length. split.
    + intros E. apply (f_equal (@length _)) in E.
      rewrite build_local_length in E. destruct items; [congruence|].
      discriminate.
    + rewrite <- Eq. unfold average. cbn [div of_nat exact].
      assert (0 < inject_Z (Z.of_nat (length items))).
      { change 0 with (inject_Z 0). rewrite <- Zlt_Qlt.
        destruct items; [contradiction | simpl; lia]. }
      field. lra.
  - intros x. rewrite sum_list_map, <- (W x), weight_of_concat.
    apply sum_list_eq, Forall_forall. intros items _.
    apply build_local_exact.
Qed.

(** X12: with exact arithmetic and the prefix sum taken over the ranks
    before, the balancer returns for every input of non-negative weights
    with a positive total: no release assertion fires, every rank holds at
    least one fragment, and the fragments of every rank weigh exactly
    [G / nranks]. *)
Theorem balance_meets_target_exactly fuel inputs :
  Forall nonneg inputs ->
  0 < ygm_sum (map local_weight inputs) ->
  (Z.of_nat (length inputs) <= int_max)%Z ->
  enough_fuel fuel inputs ->
  exists out, balance_weight Exclusive fuel inputs = Done out /\
    length out = length inputs /\
    Forall (fun items => items <> [] /\
              local_weight items ==
              ygm_sum (map local_weight inputs)
                / inject_Z (Z.of_nat (length inputs))) out.
Proof.
  intros Hnn HG Hint Hfuel.
  destruct (balance_weight_exact fuel inputs Hnn HG Hint Hfuel)
    as (out & Hout & Hlen & Hbal & _).
  exists out. auto.
Qed.

(** X13: with exact arithmetic [build_alias_table] returns for every
    input of non-negative weights with a positive total; every rank gets
    a table that is not empty and whose buckets stand for [G / nranks] in
    total, and over all ranks the buckets give every id exactly the
    weight it has in the input. *)
Theorem build_keeps_id_weight fuel (default_item : Item) inputs :
  Forall nonneg inputs ->
  0 < ygm_sum (map local_weight inputs) ->
  (Z.of_nat (length inputs) <= int_max)%Z ->
  enough_fuel fuel inputs ->
  exists tables,
    build_alias_table Exclusive fuel default_item inputs = Done tables /\
    length tables = length inputs /\
    Forall (fun t => m_local_alias_table t <> [] /\
              m_avg_weight t
                * inject_Z (Z.of_nat (length (m_local_alias_table t)))
              == ygm_sum (map local_weight inputs)
                   / inject_Z (Z.of_nat (length inputs))) tables /\
    forall x, sum_list (table_mass x) tables == weight_of x (concat inputs).
Proof.
  intros Hnn HG Hint Hfuel.
  destruct (build_alias_table_exact fuel default_item inputs Hnn HG Hint Hfuel)
    as (tables & Hb & Hlen & Hall & Hmass).
  exists tables. auto.
Qed.

End ExactBuild.

(** *** Concrete tables *)

(** Two ranks that hold one item of weight 1 each keep their items (as
    4/4, the fraction the subtractions leave). *)
Lemma balance_invents_no_id_witness :
  length [[q_item 1 (4 # 4)]; [q_item 2 (4 # 4)]] = length two_unit_ranks /\
  forall itm, itm ∈ concat [[q_item 1 (4 # 4)]; [q_item 2 (4 # 4)]] ->
    id itm ∈ map id (concat two_unit_ranks).
Proof.
  apply (balance_invents_no_id (AR := exact) Exclusive 10 two_unit_ranks).
  reflexivity.
Defined.

(** Two ranks without items, in exact arithmetic and in binary64. *)
Lemma empty_input_never_returns_witness :
  (balance_weight (AR := exact) Exclusive 5 [[]; []]
     = AssertFail (A := list (list (item nat Q))) \/
   balance_weight (AR := exact) Exclusive 5 [[]; []]
     = Undefined (A := list (list (item nat Q)))).
Proof.
  apply (empty_input_never_returns (AR := exact) (Item := nat)
           Exclusive 5 [[]; []]).
  - discriminate.
  - repeat constructor.
Defined.

(** One rank with an item of weight 3 and an item of weight 1: the
    average is 2; the light item fills its bucket with 1 of the heavy
    one, which is left with the average and gets a bucket of its own. *)
Definition three_and_one : list (item nat Q) := [q_item 1 3; q_item 2 1].

Lemma alias_table_buckets_valid_witness :
  Forall (fun t => 0 <= p t <= average (AR := exact) three_and_one)%Q
    (build_local_alias_table (AR := exact) 0%nat three_and_one).
Proof.
  apply (alias_table_buckets_valid 0%nat three_and_one).
  repeat constructor; discriminate.
Defined.

(** The engine at 0 draws bucket 0, [(1, 2, 1)], and then 3/4, which
    does not exceed 1: the item 2 is handed out. *)
Lemma sample_is_local_item_witness :
  sample_wrapper (AR := exact) counter_index constant_weight
    (built_table (AR := exact) 0%nat three_and_one) 0%nat
    = Some (2%nat, 2%nat) /\
  2%nat ∈ map id three_and_one.
Proof.
  split; [reflexivity|].
  apply (sample_is_local_item (AR := exact) counter_index constant_weight
           0%nat three_and_one 0%nat 2%nat 2%nat).
  reflexivity.
Defined.

(** The tables of [two_unit_ranks], each with the engine of its rank. *)
Definition unit_tables : list (alias_table nat Q) :=
  map (built_table (AR := exact) 0%nat)
    [[q_item 1 (4 # 4)]; [q_item 2 (4 # 4)]].

(** A call on rank 0 whose engine draws rank 0. *)
Lemma async_sample_is_input_id_witness :
  async_sample (AR := exact) counter_index constant_weight counter_index
    [(built_table (AR := exact) 0%nat [q_item 1 (4 # 4)], 0%nat);
     (built_table (AR := exact) 0%nat [q_item 2 (4 # 4)], 5%nat)] 0
    = Some (1%nat,
            [(built_table (AR := exact) 0%nat [q_item 1 (4 # 4)], 2%nat);
             (built_table (AR := exact) 0%nat [q_item 2 (4 # 4)], 5%nat)]) /\
  1%nat ∈ map id (concat two_unit_ranks) /\
  map fst
    [(built_table (AR := exact) 0%nat [q_item 1 (4 # 4)], 2%nat);
     (built_table (AR := exact) 0%nat [q_item 2 (4 # 4)], 5%nat)]
    = unit_tables.
Proof.
  split; [reflexivity|].
  apply (async_sample_is_input_id (AR := exact)
           counter_index constant_weight counter_index
           Exclusive 10 0%nat two_unit_ranks unit_tables
           [(built_table (AR := exact) 0%nat [q_item 1 (4 # 4)], 0%nat);
            (built_table (AR := exact) 0%nat [q_item 2 (4 # 4)], 5%nat)]
           _ 0%nat 1%nat); reflexivity.
Defined.

Lemma balance_meets_target_exactly_witness :
  exists out,
    balance_weight (AR := exact) Exclusive 6 one_heavy_item = Done out /\
    length out = length one_heavy_item /\
    Forall (fun items => items <> [] /\
              (local_weight (AR := exact) items ==
               ygm_sum (AR := exact)
                 (map (local_weight (AR := exact)) one_heavy_item)
                 / inject_Z (Z.of_nat (length one_heavy_item)))%Q) out.
Proof.
  apply (balance_meets_target_exactly 6 one_heavy_item).
  - repeat constructor; discriminate.
  - reflexivity.
  - discriminate.
  - repeat constructor.
Defined.

Lemma build_keeps_id_weight_witness :
  exists tables,
    build_alias_table (AR := exact) Exclusive 6 0%nat one_heavy_item
      = Done tables /\
    length tables = length one_heavy_item /\
    Forall (fun t => m_local_alias_table t <> [] /\
              (m_avg_weight t
                 * inject_Z (Z.of_nat (length (m_local_alias_table t)))
               == ygm_sum (AR := exact)
                    (map (local_weight (AR := exact)) one_heavy_item)
                    / inject_Z (Z.of_nat (length one_heavy_item)))%Q) tables /\
    forall x, (sum_list (table_mass x) tables
               == weight_of x (concat one_heavy_item))%Q.
Proof.
  apply (build_keeps_id_weight 6 0%nat one_heavy_item).
  - repeat constructor; discriminate.
  - reflexivity.
  - discriminate.
  - repeat constructor.
Defined.

(** *** Exact arithmetic: no fragment has a negative weight *)
Section ExactFragments.
Context {Item : Type} `{EqDecision Item}.
#[local] Existing Instance exact.
Local Open Scope Q_scope.
Implicit Types (items : list (item Item Q)) (w : walk Item Q).

Definition batches_nonneg (msgs : list (Z * list (item Item Q))) : Prop :=
  Forall (fun m => nonneg (snd m)) msgs.

(** What the walk keeps, for a target [T]: the weight gathered for the
    current destination stays below [T], and no weight is negative. *)
Record walk_nonneg (T : Q) w : Prop := {
  nn_curr : 0 <= curr_weight w < T;
  nn_todo : nonneg (m_local_items w);
  nn_pending : nonneg (items_to_send w);
  nn_sent : batches_nonneg (sent w)
}.

Lemma walk_step_nonneg nranks T local_item rest w :
  walk_nonneg T w -> 0 <= weight local_item -> nonneg rest ->
  walk_nonneg T (walk_step nranks T local_item rest w).
Proof.
  intros [Hc _ Hp Hs] Hw Hr. unfold walk_step, fills.
  cbn [leb add sub eqb zero exact].
  destruct (Qle_bool T (curr_weight w + weight local_item)) eqn:F.
  - apply Qle_bool_iff in F.
    set (rem := curr_weight w + weight local_item - T) in *.
    assert (R0 : 0 <= rem) by (unfold rem; lra).
    assert (B : nonneg (items_to_send w ++
                  [{| id := id local_item; weight := weight local_item - rem |}])).
    { apply nonneg_app; [exact Hp|]. repeat constructor. simpl.
      unfold rem. lra. }
    assert (S' : batches_nonneg
                   (if (dest_rank w <? nranks)%Z
                    then sent w ++
                      [(dest_rank w,
                        items_to_send w ++
                        [{| id := id local_item;
                            weight := weight local_item - rem |}])]
                    else sent w)).
    { destruct (dest_rank w <? nranks)%Z; [|exact Hs].
      apply Forall_app. split; [exact Hs|]. repeat constructor. exact B. }
    destruct (Qle_bool T rem) eqn:S.
    + split; cbn [m_local_items curr_weight dest_rank items_to_send sent].
      * lra.
      * apply nonneg_app; [exact Hr|]. repeat constructor. exact R0.
      * change (Qeq_bool 0 0) with true. constructor.
      * exact S'.
    + apply Qle_bool_false in S.
      split; cbn [m_local_items curr_weight dest_rank items_to_send sent].
      * lra.
      * exact Hr.
      * destruct (negb (Qeq_bool rem 0)); repeat constructor. exact R0.
      * exact S'.
  - apply Qle_bool_false in F.
    split; cbn [m_local_items curr_weight dest_rank items_to_send sent].
    + lra.
    + exact Hr.
    + apply nonneg_app; [exact Hp|]. repeat constructor. exact Hw.
    + exact Hs.
Qed.

Lemma walk_loop_nonneg fuel nranks T : forall w w',
  walk_nonneg T w ->
  walk_loop fuel nranks T w = Done w' -> walk_nonneg T w'.
Proof.
  induction fuel as [|fuel IH]; intros w w' I; simpl;
    destruct (m_local_items w) as [|local_item rest] eqn:M;
    try discriminate; try (intros [= <-]; exact I).
  apply IH. pose proof (nn_todo _ _ I) as Td. rewrite M in Td.
  apply Forall_cons in Td as [Hw Hr]. apply walk_step_nonneg; assumption.
Qed.

Lemma balance_rank_nonneg fuel nranks (P T : Q) items out :
  0 < T -> 0 <= P -> nonneg items ->
  balance_rank fuel nranks P T items = Done out -> batches_nonneg out.
Proof.
  intros HT HP Hnn. unfold balance_rank.
  destruct (initial_dest_rank P T) as [d|]; [|discriminate].
  destruct (walk_loop _ _ _ _) as [w| | |] eqn:L; simpl; try discriminate.
  intros [= <-].
  assert (I : walk_nonneg T w).
  { eapply walk_loop_nonneg; [|exact L]. split; simpl; try constructor.
    - apply (Qtrunc_fmod P T HP HT).
    - apply (Qtrunc_fmod P T HP HT).
    - exact Hnn. }
  destruct I as [_ _ Hp Hs]. unfold flush. destruct (_ && _); [|exact Hs].
  apply Forall_app. split; [exact Hs|]. repeat constructor. exact Hp.
Qed.

Lemma ygm_sum_nonneg_acc (xs : list Q) : forall acc,
  0 <= acc -> Forall (fun x => 0 <= x) xs -> 0 <= fold_left Qplus xs acc.
Proof.
  induction xs as [|x xs IH]; intros acc Ha F; simpl; [exact Ha|].
  apply Forall_cons in F as [Hx F]. apply IH; [lra | exact F].
Qed.

Lemma prefix_sum_nonneg k (xs : list Q) (r : nat) :
  Forall (fun x => 0 <= x) xs -> 0 <= ygm_prefix_sum k xs r.
Proof.
  intros F. unfold ygm_prefix_sum, ygm_sum. cbn [add zero exact].
  apply ygm_sum_nonneg_acc; [lra|]. apply Forall_take, F.
Qed.

Lemma run_ranks_nonneg fuel k locals (T : Q) nranks :
  forall (inputs : list (list (item Item Q))) r outs,
  0 < T -> Forall (fun x => 0 <= x) locals -> Forall nonneg inputs ->
  run_ranks fuel k locals T nranks r inputs = Done outs ->
  Forall batches_nonneg outs.
Proof.
  induction inputs as [|items more IH]; intros r outs HT HL Hnn; simpl.
  - intros [= <-]. constructor.
  - apply Forall_cons in Hnn as [Hi Hm].
    destruct (balance_rank _ _ _ _ items) as [out| | |] eqn:B; simpl;
      try discriminate.
    destruct (run_ranks _ _ _ _ _ (S r) more) as [outs'| | |] eqn:R; simpl;
      try discriminate.
    intros [= <-]. constructor.
    + eapply balance_rank_nonneg; [exact HT | | exact Hi | exact B].
      apply prefix_sum_nonneg, HL.
    + eapply IH; eauto.
Qed.

Lemma deliver_nonneg outs (d : nat) :
  Forall batches_nonneg outs -> nonneg (deliver outs d).
Proof.
  unfold deliver. induction 1 as [|out outs Ho _ IH]; simpl; [constructor|].
  apply nonneg_app; [|exact IH]. clear IH. unfold received_from.
  induction Ho as [|m msgs Hm _ IH]; simpl; [constructor|].
  destruct (fst m =? Z.of_nat d)%Z; [|exact IH].
  simpl. apply nonneg_app; assumption.
Qed.

Lemma balance_weight_nonneg k fuel
  (inputs out : list (list (item Item Q))) :
  Forall nonneg inputs ->
  0 < ygm_sum (map local_weight inputs) ->
  balance_weight k fuel inputs = Done out ->
  Forall nonneg out.
Proof.
  intros Hnn HG. unfold balance_weight.
  set (G := ygm_sum (map local_weight inputs)) in *.
  assert (Hn : 0 < inject_Z (Z.of_nat (length inputs))).
  { change 0 with (inject_Z 0). rewrite <- Zlt_Qlt.
    destruct inputs; [|simpl; lia].
    unfold G, ygm_sum in HG. simpl in HG. lra. }
  assert (HT : 0 < div G (of_nat (length inputs))).
  { cbn [div of_nat exact]. apply Qlt_shift_div_l; lra. }
  destruct (run_ranks _ _ _ _ _ _ _) as [outs| | |] eqn:R; simpl;
    try discriminate.
  destruct (forallb (fun items => negb (is_nil items)) _); simpl;
    [|discriminate].
  destruct (forallb (is_balanced_local _) _); simpl; [|discriminate].
  destruct (ygm_is_same _ _); simpl; [|discriminate].
  intros [= <-]. apply Forall_forall. intros items Hi.
  apply list_elem_of_fmap in Hi as (d & -> & _).
  apply deliver_nonneg.
  eapply run_ranks_nonneg; [exact HT | | exact Hnn | exact R].
  apply Forall_forall. intros x Hx.
  apply list_elem_of_fmap in Hx as (items & -> & Hi).
  rewrite local_weight_total. apply total_nonneg.
  rewrite Forall_forall in Hnn. auto.
Qed.

(** X18: with exact arithmetic, splitting never produces a negative
    weight: for an input of non-negative weights with a positive total,
    whenever [balance_weight] returns (with either kind of prefix sum),
    every fragment every rank holds has a non-negative weight. *)
Theorem balance_fragments_nonneg k fuel
  (inputs out : list (list (item Item Q))) :
  Forall nonneg inputs ->
  0 < ygm_sum (map local_weight inputs) ->
  balance_weight k fuel inputs = Done out ->
  Forall nonneg out.
Proof. apply balance_weight_nonneg. Qed.

End ExactFragments.

(** One item of weight 10 on rank 0 of three ranks: each rank gets a
    fragment of weight 10/3, as the fraction the subtractions leave. *)
Definition three_fragments : list (list (item nat Q)) :=
  [[q_item 7 (30 # 9)]; [q_item 7 (810 # 243)]; [q_item 7 (7290 # 2187)]].

Lemma balance_fragments_nonneg_witness :
  balance_weight (AR := exact) Exclusive 6 one_heavy_item
    = Done three_fragments /\
  Forall nonneg three_fragments.
Proof.
  assert (B : balance_weight (AR := exact) Exclusive 6 one_heavy_item
              = Done three_fragments) by reflexivity.
  split; [exact B|].
  apply (balance_fragments_nonneg Exclusive 6 one_heavy_item _); [| |exact B].
  - repeat constructor; discriminate.
  - reflexivity.
Defined.

(** *** The length of a set of draws

    The weight distribution draws a number uniformly from [0, avg).  For
    a property [g] of the number that changes its value at finitely many
    points, the length of the set of draws in [lo, hi) that have the
    property is put together from intervals on which [g] is constant;
    single points have length zero, so the ends of the intervals do not
    count. *)
Section Measure.
Local Open Scope Q_scope.

Inductive measure_on (g : Q -> bool) : Q -> Q -> Q -> Prop :=
| measure_all lo hi :
    lo <= hi -> (forall f, lo < f < hi -> g f = true) ->
    measure_on g lo hi (hi - lo)
| measure_none lo hi :
    lo <= hi -> (forall f, lo < f < hi -> g f = false) ->
    measure_on g lo hi 0
| measure_split lo mid hi m1 m2 :
    measure_on g lo mid m1 -> measure_on g mid hi m2 ->
    measure_on g lo hi (m1 + m2).

Lemma measure_on_le g lo hi m : measure_on g lo hi m -> lo <= hi.
Proof. induction 1; lra. Qed.

Lemma measure_on_cut g lo hi m :
  measure_on g lo hi m ->
  forall c, lo <= c <= hi ->
  exists m1 m2, measure_on g lo c m1 /\ measure_on g c hi m2 /\ m == m1 + m2.
Proof.
  induction 1 as [lo hi Hle Hg|lo hi Hle Hg|lo mid hi m1 m2 H1 IH1 H2 IH2];
    intros c Hc.
  - exists (c - lo), (hi - c). split; [|split; [|ring]].
    + apply measure_all; [lra|]. intros f Hf. apply Hg. lra.
    + apply measure_all; [lra|]. intros f Hf. apply Hg. lra.
  - exists 0, 0. split; [|split; [|ring]].
    + apply measure_none; [lra|]. intros f Hf. apply Hg. lra.
    + apply measure_none; [lra|]. intros f Hf. apply Hg. lra.
  - pose proof (measure_on_le _ _ _ _ H1) as L1.
    pose proof (measure_on_le _ _ _ _ H2) as L2.
    destruct (Qlt_le_dec mid c) as [Hlt|Hge].
    + destruct (IH2 c) as (m21 & m22 & A & B & E); [lra|].
      exists (m1 + m21), m22. split; [|split].
      * apply (measure_split g lo mid c); assumption.
      * exact B.
      * rewrite E. ring.
    + destruct (IH1 c) as (m11 & m12 & A & B & E); [lra|].
      exists m11, (m12 + m2). split; [|split].
      * exact A.
      * apply (measure_split g c mid hi); assumption.
      * rewrite E. ring.
Qed.

Lemma measure_on_true g lo hi m :
  measure_on g lo hi m ->
  (forall f, lo < f < hi -> g f = true) -> m == hi - lo.
Proof.
  induction 1 as [lo hi Hle Hg|lo hi Hle Hg|lo mid hi m1 m2 H1 IH1 H2 IH2];
    intros T.
  - reflexivity.
  - destruct (Qlt_le_dec lo hi) as [Hlt|Hge]; [|lra].
    assert (M : lo < (lo + hi) * (1 # 2) < hi) by (split; lra).
    specialize (Hg _ M). rewrite (T _ M) in Hg. discriminate.
  - pose proof (measure_on_le _ _ _ _ H1) as L1.
    pose proof (measure_on_le _ _ _ _ H2) as L2.
    rewrite IH1, IH2; [ring| |]; intros f Hf; apply T; lra.
Qed.

Lemma measure_on_false g lo hi m :
  measure_on g lo hi m ->
  (forall f, lo < f < hi -> g f = false) -> m == 0.
Proof.
  induction 1 as [lo hi Hle Hg|lo hi Hle Hg|lo mid hi m1 m2 H1 IH1 H2 IH2];
    intros F.
  - destruct (Qlt_le_dec lo hi) as [Hlt|Hge]; [|lra].
    assert (M : lo < (lo + hi) * (1 # 2) < hi) by (split; lra).
    specialize (Hg _ M). rewrite (F _ M) in Hg. discriminate.
  - reflexivity.
  - pose proof (measure_on_le _ _ _ _ H1) as L1.
    pose proof (measure_on_le _ _ _ _ H2) as L2.
    rewrite IH1, IH2; [ring| |]; intros f Hf; apply F; lra.
Qed.

(** The length does not depend on how the interval is cut. *)
Lemma measure_on_unique g lo hi m :
  measure_on g lo hi m -> forall m', measure_on g lo hi m' -> m == m'.
Proof.
  induction 1 as [lo hi Hle Hg|lo hi Hle Hg|lo mid hi m1 m2 H1 IH1 H2 IH2];
    intros m' H'.
  - symmetry. apply (measure_on_true _ _ _ _ H' Hg).
  - symmetry. apply (measure_on_false _ _ _ _ H' Hg).
  - pose proof (measure_on_le _ _ _ _ H1) as L1.
    pose proof (measure_on_le _ _ _ _ H2) as L2.
    destruct (measure_on_cut _ _ _ _ H' mid) as (m1' & m2' & A & B & E);
      [lra|].
    rewrite E, (IH1 _ A), (IH2 _ B). reflexivity.
Qed.

End Measure.

(** *** Exact arithmetic: the chance that the sampler hands out an id *)
Section ExactChance.
Context {Item : Type} `{EqDecision Item}.
#[local] Existing Instance exact.
Local Open Scope Q_scope.
Implicit Types (tables : list (alias_table Item Q)).

(** A distribution whose draw is known: it returns [a] and leaves the
    engine as it is. *)
Definition draws {A : Type} (a : A) : unit -> A * unit := fun rng => (a, rng).

(** What [async_sample], called on rank [r], hands to the visitor when
    [m_rank_dist] draws the rank [d], the index distribution of that rank
    draws the bucket [i] and its weight distribution the number [f]. *)
Definition async_sample_at tables (r d i : nat) (f : Q) : option Item :=
  option_map fst
    (async_sample (fun _ => draws i) (fun _ => draws f) (fun _ => draws d)
       (map (fun t => (t, tt)) tables) r).

Definition hands_out (x : Item) tables (r d i : nat) (f : Q) : bool :=
  bool_decide (async_sample_at tables r d i f = Some x).

Definition buckets_of tables (d : nat) : nat :=
  match tables !! d with
  | Some t => length (m_local_alias_table t)
  | None => 0%nat
  end.

Definition avg_of tables (d : nat) : Q :=
  match tables !! d with
  | Some t => m_avg_weight t
  | None => 0
  end.

(** The mean of [c 0 .. c (n-1)]: the expectation of [c] under the
    uniform distribution on [0 .. n-1]. *)
Definition uniform_mean (n : nat) (c : nat -> Q) : Q :=
  sum_list c (seq 0 n) / inject_Z (Z.of_nat n).

(** Rank [d] and bucket [i] being drawn, [x] is handed out on the part
    [c] of the draws of [f] from [0, m_avg_weight). *)
Definition draw_share (x : Item) tables (r d i : nat) (c : Q) : Prop :=
  exists m,
    measure_on (hands_out x tables r d i) 0 (avg_of tables d) m /\
    m == c * avg_of tables d.

(** The chance that [async_sample] on rank [r] hands out [x]: the rank
    is drawn uniformly from all ranks, the bucket uniformly from the
    table of that rank, and the number uniformly from
    [0, m_avg_weight). *)
Definition sample_chance (x : Item) tables (r : nat) (c : Q) : Prop :=
  exists share : nat -> nat -> Q,
    (forall d i, (d < length tables)%nat -> (i < buckets_of tables d)%nat ->
       draw_share x tables r d i (share d i)) /\
    c == uniform_mean (length tables)
           (fun d => uniform_mean (buckets_of tables d) (share d)).

Lemma async_sample_at_eq tables (r d i : nat) (f : Q) t :
  (r < length tables)%nat -> tables !! d = Some t ->
  async_sample_at tables r d i f =
  match nth_error (m_local_alias_table t) i with
  | None => None
  | Some bk =>
      Some (if ltb (p bk) (m_avg_weight t)
            then if ltb (p bk) f then b bk else a bk
            else a bk)
  end.
Proof.
  intros Hr Hd. unfold async_sample_at, async_sample.
  destruct (lookup_lt_is_Some_2 tables r Hr) as [tr Lr].
  change (map (fun t0 => (t0, tt)) tables)
    with ((fun t0 : alias_table Item Q => (t0, tt)) <$> tables).
  rewrite list_lookup_fmap, Lr. cbn [fmap option_fmap option_map draws].
  rewrite list_insert_id by (rewrite list_lookup_fmap, Lr; reflexivity).
  rewrite list_lookup_fmap, Hd. cbn [fmap option_fmap option_map].
  unfold sample_wrapper. cbn [draws].
  destruct (nth_error (m_local_alias_table t) i) as [bk|]; [|reflexivity].
  destruct (ltb (p bk) (m_avg_weight t)); [|reflexivity].
  destruct (ltb (p bk) f); reflexivity.
Qed.

(** The draws on which a bucket hands out [x] have the length the bucket
    gives to [x]. *)
Lemma bucket_measure x tables (r d i : nat) t bk :
  (r < length tables)%nat -> tables !! d = Some t ->
  nth_error (m_local_alias_table t) i = Some bk ->
  0 <= p bk <= m_avg_weight t ->
  exists m,
    measure_on (hands_out x tables r d i) 0 (m_avg_weight t) m /\
    m == bucket_mass x (m_avg_weight t) bk.
Proof.
  intros Hr Hd Hi [P0 P1].
  assert (G : forall f, hands_out x tables r d i f =
            bool_decide ((if ltb (p bk) (m_avg_weight t)
                          then if ltb (p bk) f then b bk else a bk
                          else a bk) = x)).
  { intros f. unfold hands_out.
    rewrite (async_sample_at_eq tables r d i f t Hr Hd), Hi.
    apply bool_decide_ext. split; [intros [= E]; exact E | intros ->; reflexivity]. }
  unfold bucket_mass. cbn [ltb exact] in G.
  destruct (Qle_bool (m_avg_weight t) (p bk)) eqn:L; cbn [negb] in G.
  - (* p == avg: [a] on every draw *)
    apply Qle_bool_iff in L.
    destruct (bool_decide (a bk = x)) eqn:A.
    + exists (m_avg_weight t - 0). split.
      * apply measure_all; [lra|]. intros f _. apply G.
      * destruct (bool_decide (b bk = x)); lra.
    + exists 0. split.
      * apply measure_none; [lra|]. intros f _. apply G.
      * destruct (bool_decide (b bk = x)); lra.
  - (* p < avg: [a] up to [p], [b] above *)
    assert (Lt : p bk < m_avg_weight t).
    { apply Qnot_le_lt. intros C. apply Qle_bool_iff in C. congruence. }
    assert (Ga : forall f, 0 < f < p bk ->
              hands_out x tables r d i f = bool_decide (a bk = x)).
    { intros f Hf. rewrite G.
      assert (E : Qle_bool f (p bk) = true) by (apply Qle_bool_iff; lra).
      rewrite E. reflexivity. }
    assert (Gb : forall f, p bk < f < m_avg_weight t ->
              hands_out x tables r d i f = bool_decide (b bk = x)).
    { intros f Hf. rewrite G.
      destruct (Qle_bool f (p bk)) eqn:E; [|reflexivity].
      apply Qle_bool_iff in E. lra. }
    assert (Ma : exists m1, measure_on (hands_out x tables r d i) 0 (p bk) m1 /\
                   m1 == if bool_decide (a bk = x) then p bk else 0).
    { destruct (bool_decide (a bk = x)).
      - exists (p bk - 0). split; [|ring].
        apply measure_all; [exact P0 | exact Ga].
      - exists 0. split; [|reflexivity].
        apply measure_none; [exact P0 | exact Ga]. }
    assert (Mb : exists m2,
                   measure_on (hands_out x tables r d i) (p bk) (m_avg_weight t) m2 /\
                   m2 == if bool_decide (b bk = x)
                         then m_avg_weight t - p bk else 0).
    { destruct (bool_decide (b bk = x)).
      - exists (m_avg_weight t - p bk). split; [|reflexivity].
        apply measure_all; [exact P1 | exact Gb].
      - exists 0. split; [|reflexivity].
        apply measure_none; [exact P1 | exact Gb]. }
    destruct Ma as (m1 & M1 & E1), Mb as (m2 & M2 & E2).
    exists (m1 + m2). split.
    + apply (measure_split _ 0 (p bk) (m_avg_weight t)); assumption.
    + rewrite E1, E2. reflexivity.
Qed.


Lemma nth_error_lookup {A : Type} (l : list A) (i : nat) :
  nth_error l i = l !! i.
Proof. revert i. induction l as [|a l IH]; intros [|i]; simpl; auto. Qed.

Lemma sum_list_seq {A : Type} (h : A -> Q) (l : list A) :
  sum_list (fun i => match nth_error l i with Some a => h a | None => 0 end)
    (seq 0 (length l))
  == sum_list h l.
Proof.
  induction l as [|a l IH]; [reflexivity|].
  change (seq 0 (length (a :: l))) with (0%nat :: seq 1 (length l)).
  rewrite <- seq_shift.
  change (sum_list ?g (?i :: ?r)) with (g i + sum_list g r).
  rewrite sum_list_map. cbn [nth_error]. rewrite IH. reflexivity.
Qed.

Lemma uniform_mean_ext (n : nat) (c1 c2 : nat -> Q) :
  (forall i, (i < n)%nat -> c1 i == c2 i) ->
  uniform_mean n c1 == uniform_mean n c2.
Proof.
  intros E. unfold uniform_mean.
  rewrite (sum_list_eq c1 c2); [reflexivity|].
  apply Forall_forall. intros i Hi. apply elem_of_seq in Hi. apply E. lia.
Qed.

(** A table as [build_local_alias_table] leaves it on a rank whose items
    weigh [T]. *)
Definition table_ok (T : Q) (t : alias_table Item Q) : Prop :=
  m_local_alias_table t <> [] /\
  0 < m_avg_weight t /\
  m_avg_weight t * inject_Z (Z.of_nat (length (m_local_alias_table t))) == T /\
  Forall (fun bk => 0 <= p bk <= m_avg_weight t) (m_local_alias_table t).

(** The part of the draws of [f] on which bucket [i] of rank [d] hands
    out [x]. *)
Definition bucket_share (x : Item) tables (d i : nat) : Q :=
  match tables !! d with
  | Some t =>
      match nth_error (m_local_alias_table t) i with
      | Some bk => bucket_mass x (m_avg_weight t) bk / m_avg_weight t
      | None => 0
      end
  | None => 0
  end.

Lemma bucket_share_draw x tables (r d i : nat) t T :
  (r < length tables)%nat -> tables !! d = Some t -> table_ok T t ->
  (i < length (m_local_alias_table t))%nat ->
  draw_share x tables r d i (bucket_share x tables d i).
Proof.
  intros Hr Hd (Ne & Ha & _ & V) Hi.
  unfold draw_share, avg_of, bucket_share. rewrite Hd.
  destruct (nth_error (m_local_alias_table t) i) as [bk|] eqn:Hb.
  - assert (Vb : 0 <= p bk <= m_avg_weight t).
    { rewrite Forall_forall in V. apply V.
      apply list_elem_of_In. eapply nth_error_In, Hb. }
    destruct (bucket_measure x tables r d i t bk Hr Hd Hb Vb) as (m & M & E).
    exists m. split; [exact M|]. rewrite E. field. lra.
  - apply nth_error_None in Hb. lia.
Qed.

Lemma bucket_share_mean x tables (d : nat) t T :
  tables !! d = Some t -> table_ok T t ->
  uniform_mean (buckets_of tables d) (bucket_share x tables d)
  == table_mass x t / T.
Proof.
  intros Hd (Ne & Ha & ET & _).
  unfold uniform_mean, buckets_of, bucket_share. rewrite Hd.
  set (tbl := m_local_alias_table t) in *.
  set (avg := m_avg_weight t) in *.
  set (n := inject_Z (Z.of_nat (length tbl))) in *.
  assert (Hn : 0 < n).
  { unfold n. change 0 with (inject_Z 0). rewrite <- Zlt_Qlt.
    destruct tbl; [contradiction | simpl; lia]. }
  rewrite (sum_list_seq (fun bk => bucket_mass x avg bk / avg) tbl).
  assert (S : sum_list (fun bk => bucket_mass x avg bk / avg) tbl * avg
              == mass_of x avg tbl).
  { rewrite <- sum_list_mass. apply sum_list_scaled, Forall_forall.
    intros bk _. field. lra. }
  unfold table_mass. fold tbl avg. rewrite <- S, <- ET. field. split; lra.
Qed.

(** The chance, for tables that give [x] the weight [W] in total. *)
Lemma tables_chance x tables (r : nat) (T W : Q) :
  Forall (table_ok T) tables -> 0 < T ->
  (r < length tables)%nat ->
  sum_list (table_mass x) tables == W ->
  sample_chance x tables r
    (W / (T * inject_Z (Z.of_nat (length tables)))).
Proof.
  intros Hok HT Hr HW. exists (bucket_share x tables). split.
  - intros d i Hd Hi.
    destruct (lookup_lt_is_Some_2 tables d Hd) as [t Lt].
    unfold buckets_of in Hi. rewrite Lt in Hi.
    apply (bucket_share_draw x tables r d i t T Hr Lt); [|exact Hi].
    rewrite Forall_forall in Hok. apply Hok.
    apply (list_elem_of_lookup_2 _ _ _ Lt).
  - set (n := inject_Z (Z.of_nat (length tables))).
    assert (Hn : 0 < n).
    { unfold n. change 0 with (inject_Z 0). rewrite <- Zlt_Qlt. lia. }
    rewrite (uniform_mean_ext (length tables) _
               (fun d => match nth_error tables d with
                         | Some t => table_mass x t / T
                         | None => 0
                         end)).
    + unfold uniform_mean. fold n.
      rewrite (sum_list_seq (fun t => table_mass x t / T) tables).
      assert (S : sum_list (fun t => table_mass x t / T) tables * T
                  == sum_list (table_mass x) tables).
      { apply sum_list_scaled, Forall_forall. intros t _. field. lra. }
      rewrite <- HW, <- S. field. split; lra.
    + intros d Hd. rewrite nth_error_lookup.
      destruct (lookup_lt_is_Some_2 tables d Hd) as [t Lt]. rewrite Lt.
      apply (bucket_share_mean x tables d t T Lt).
      rewrite Forall_forall in Hok. apply Hok.
      apply (list_elem_of_lookup_2 _ _ _ Lt).
Qed.

(** The chance is determined by the sampler. *)
Lemma sample_chance_unique x tables (r : nat) (T c1 c2 : Q) :
  Forall (table_ok T) tables ->
  sample_chance x tables r c1 -> sample_chance x tables r c2 -> c1 == c2.
Proof.
  intros Hok (s1 & D1 & E1) (s2 & D2 & E2). rewrite E1, E2.
  apply uniform_mean_ext. intros d Hd.
  apply uniform_mean_ext. intros i Hi.
  destruct (D1 d i Hd Hi) as (m1 & M1 & F1).
  destruct (D2 d i Hd Hi) as (m2 & M2 & F2).
  pose proof (measure_on_unique _ _ _ _ M1 _ M2) as E.
  destruct (lookup_lt_is_Some_2 tables d Hd) as [t Lt].
  assert (Ha : 0 < avg_of tables d).
  { unfold avg_of. rewrite Lt. rewrite Forall_forall in Hok.
    apply (Hok t (list_elem_of_lookup_2 _ _ _ Lt)). }
  rewrite F1, F2 in E.
  apply (Qmult_inj_r _ _ (avg_of tables d)); [lra | exact E].
Qed.

Lemma sample_chance_eq x tables (r : nat) (c c' : Q) :
  c == c' -> sample_chance x tables r c -> sample_chance x tables r c'.
Proof.
  intros E (share & D & M). exists share. split; [exact D|].
  rewrite <- E. exact M.
Qed.

(** The tables of a balanced rank list. *)
Lemma built_tables_ok (default_item : Item) (T : Q)
  (out : list (list (item Item Q))) :
  0 < T -> Forall nonneg out ->
  Forall (fun items => items <> [] /\ local_weight items == T) out ->
  Forall (table_ok T) (map (built_table default_item) out).
Proof.
  intros HT Hnn Hbal. apply Forall_forall. intros t Ht.
  apply list_elem_of_fmap in Ht as (items & -> & Hi).
  rewrite Forall_forall in Hnn, Hbal.
  destruct (Hbal items Hi) as [Ne Eq]. specialize (Hnn items Hi).
  unfold table_ok. cbn [built_table m_local_alias_table m_avg_weight].
  rewrite build_local_length.
  set (n := inject_Z (Z.of_nat (length items))).
  assert (Hn : 0 < n).
  { unfold n. change 0 with (inject_Z 0). rewrite <- Zlt_Qlt.
    destruct items; [contradiction | simpl; lia]. }
  assert (Ea : average items * n == T).
  { unfold average. cbn [div of_nat exact]. fold n. rewrite Eq. field. lra. }
  split; [|split; [|split]].
  - intros E. apply (f_equal (@length _)) in E.
    rewrite build_local_length in E. destruct items; [congruence|].
    discriminate.
  - destruct (Qlt_le_dec 0 (average items)) as [?|Neg]; [assumption|].
    assert (average items * n <= 0) by nra. lra.
  - exact Ea.
  - apply build_local_exact, Hnn.
Qed.

(** X14: with exact arithmetic the tables [build_alias_table] builds
    sample every id with the chance that is its share of the total
    weight.  The chance is taken from the sampler itself: for every rank
    [d] that [async_sample] can draw and every bucket [i] that
    [sample_wrapper] can draw on it, the draws [f] from
    [0, m_avg_weight) on which [async_sample] hands out [x] are
    measured, and the rank and the bucket are averaged over uniformly.
    The chance of the id [x] so obtained is [weight_of x / G], on
    whichever rank [async_sample] is called, and it is the only number
    that fits the sampler. *)
Theorem sample_chance_is_weight_share fuel (default_item : Item)
  (inputs : list (list (item Item Q))) :
  Forall nonneg inputs ->
  0 < ygm_sum (map local_weight inputs) ->
  (Z.of_nat (length inputs) <= int_max)%Z ->
  enough_fuel fuel inputs ->
  exists tables,
    build_alias_table Exclusive fuel default_item inputs = Done tables /\
    forall x r, (r < length tables)%nat ->
      sample_chance x tables r
        (weight_of x (concat inputs) / ygm_sum (map local_weight inputs)) /\
      forall c, sample_chance x tables r c ->
        c == weight_of x (concat inputs) / ygm_sum (map local_weight inputs).
Proof.
  intros Hnn HG Hint Hfuel.
  destruct (balance_weight_exact fuel inputs Hnn HG Hint Hfuel)
    as (out & Hout & Hlen & Hbal & W).
  pose proof (balance_weight_nonneg Exclusive fuel inputs out Hnn HG Hout)
    as Hnn'.
  set (G := ygm_sum (map local_weight inputs)) in *.
  set (n := inject_Z (Z.of_nat (length inputs))) in *.
  assert (Hn : 0 < n).
  { unfold n. change 0 with (inject_Z 0). rewrite <- Zlt_Qlt.
    destruct inputs; [|simpl; lia].
    unfold G, ygm_sum in HG. simpl in HG. lra. }
  assert (HT : 0 < G / n) by (apply Qlt_shift_div_l; lra).
  pose proof (built_tables_ok default_item (G / n) out HT Hnn' Hbal) as Hok.
  unfold build_alias_table. rewrite Hout. cbn [Outcome.bind].
  eexists. split; [reflexivity|]. intros x r Hr.
  assert (M : sum_list (table_mass x) (map (built_table default_item) out)
              == weight_of x (concat inputs)).
  { rewrite sum_list_map, <- (W x), weight_of_concat.
    apply sum_list_eq, Forall_forall. intros items _.
    apply build_local_exact. }
  assert (C : sample_chance x (map (built_table default_item) out) r
                (weight_of x (concat inputs) / G)).
  { apply (sample_chance_eq x _ r
             (weight_of x (concat inputs)
                / (G / n * inject_Z (Z.of_nat
                     (length (map (built_table default_item) out)))))).
    - rewrite length_map, Hlen. fold n. field. split; lra.
    - apply tables_chance; assumption. }
  split; [exact C|]. intros c Hc.
  apply (sample_chance_unique x _ r (G / n) c _ Hok Hc C).
Qed.

End ExactChance.

(** One rank that holds the id 1 with weight 5 and the id 2 with weight
    1.  The table has the bucket [(1, 2, 1)] and the bucket [(3, 1, _)],
    with the average 3: in bucket 0 the draw 1/2 hands out the id 2 and
    the draw 2 the id 1.  The id 2 is handed out with the chance 1/6. *)
Definition five_and_one_rank : list (list (item nat Q)) :=
  [[q_item 1 5; q_item 2 1]].

Lemma sample_chance_is_weight_share_witness :
  exists tables,
    build_alias_table (AR := exact) Exclusive 6 0%nat five_and_one_rank
      = Done tables /\
    async_sample_at tables 0 0 0 (1 # 2) = Some 2%nat /\
    async_sample_at tables 0 0 0 2 = Some 1%nat /\
    (weight_of 2%nat (concat five_and_one_rank)
       / ygm_sum (AR := exact)
           (map (local_weight (AR := exact)) five_and_one_rank)
     == 1 # 6)%Q /\
    forall x r, (r < length tables)%nat ->
      sample_chance x tables r
        (weight_of x (concat five_and_one_rank)
           / ygm_sum (AR := exact)
               (map (local_weight (AR := exact)) five_and_one_rank))%Q /\
      forall c, sample_chance x tables r c ->
        (c == weight_of x (concat five_and_one_rank)
              / ygm_sum (AR := exact)
                  (map (local_weight (AR := exact)) five_and_one_rank))%Q.
Proof.
  destruct (sample_chance_is_weight_share 6 0%nat five_and_one_rank)
    as (tables & B & C).
  - repeat constructor; discriminate.
  - reflexivity.
  - discriminate.
  - repeat constructor.
  - exists tables. split; [exact B|].
    assert (E : Done tables
                = build_alias_table (AR := exact) Exclusive 6 0%nat
                    five_and_one_rank) by (symmetry; exact B).
    vm_compute in E. injection E as ->.
    split; [reflexivity|]. split; [reflexivity|].
    split; [reflexivity | exact C].
Defined.
End AliasTableBuild.


(** ** The logger *)
Module LoggerFacts.
Import Stdlib.Strings.String.
Import Logger.

Section WithMessages.
Context {Msg : Type}.
Context (parent_path : string -> string).
Implicit Types (lg : logger) (events : list (event Msg)) (fs : file_system).

(** The spdlog level of the same name. *)
Definition spdlog_level (level : log_level) : spdlog.level_enum :=
  match level with
  | off => spdlog.off
  | critical => spdlog.critical
  | error => spdlog.err
  | warn => spdlog.warn
  | info => spdlog.info
  | debug => spdlog.debug
  end.

(** The index into the table is in range for every level. *)
Lemma level_lookup (level : log_level) :
  nth_error ygm_level_to_spdlog_level (level_value level)
  = Some (spdlog_level level).
Proof. destruct level; reflexivity. Qed.

(** The messages among the events, with the sink each went to. *)
Definition messages events : list (sink * spdlog.level_enum * Msg) :=
  flat_map (fun e => match e with
                     | logged s lvl msg => [(s, lvl, msg)]
                     | _ => []
                     end) events.

(** The file a message to the file target goes to: the one the file
    logger is open on, or the one it will be opened on. *)
Definition current_file lg : string :=
  match m_file_logger_ptr lg with
  | Some path => path
  | None => m_path lg
  end.

Definition sink_of lg (t : logger_target) : sink :=
  match t with
  | file => file_sink (current_file lg)
  | stdout => stdout_sink
  | stderr => stderr_sink
  end.

(** The settings a logging call leaves alone. *)
Definition same_settings lg lg' : Prop :=
  m_log_level lg' = m_log_level lg /\
  m_logger_target lg' = m_logger_target lg /\
  m_path lg' = m_path lg /\
  current_file lg' = current_file lg.

(** Both calls that open the log file return. *)
Definition file_opens fs lg : bool :=
  can_create_directories fs (parent_path (m_path lg))
  && can_open fs (m_path lg).

(** [not m_file_logger_ptr] *)
Definition no_file_logger lg : bool :=
  match m_file_logger_ptr lg with None => true | Some _ => false end.

Definition is_file (t : logger_target) : bool :=
  match t with file => true | _ => false end.

(** The call has to open the log file and the file system refuses. *)
Definition refused fs lg (targets : list logger_target) : bool :=
  existsb is_file targets && no_file_logger lg && negb (file_opens fs lg).

(** The targets listed before the first [file]. *)
Fixpoint before_file (targets : list logger_target) : list logger_target :=
  match targets with
  | [] => []
  | t :: rest => if is_file t then [] else t :: before_file rest
  end.

Lemma messages_app events1 events2 :
  messages (events1 ++ events2) = messages events1 ++ messages events2.
Proof. unfold messages. apply flat_map_app. Qed.

Lemma same_settings_refl lg : same_settings lg lg.
Proof. repeat split. Qed.

Lemma log_impl_filtered fs (t : logger_target) level (msg : Msg) lg :
  (level_value (m_log_level lg) < level_value level)%nat ->
  log_impl parent_path fs t level msg lg = returned lg [].
Proof.
  intros Lt. unfold log_impl. apply Nat.ltb_lt in Lt. rewrite Lt. reflexivity.
Qed.

(** A call whose level passes: it throws before anything is logged when
    it has to open the file and cannot, and otherwise hands the message
    to the sink of the target. *)
Lemma log_impl_passes fs (t : logger_target) level (msg : Msg) lg :
  (level_value level <= level_value (m_log_level lg))%nat ->
  if refused fs lg [t]
  then exists events,
    log_impl parent_path fs t level msg lg = thrown lg events /\
    messages events = [] /\
    (forall path, open_file path ∉ events)
  else exists lg' events,
    log_impl parent_path fs t level msg lg = returned lg' events /\
    same_settings lg lg' /\
    messages events = [(sink_of lg t, spdlog_level level, msg)] /\
    (forall path, open_file path ∈ events ->
       t = file /\ m_file_logger_ptr lg = None /\ path = m_path lg) /\
    (t = file -> m_file_logger_ptr lg' = Some (current_file lg)) /\
    (t <> file -> lg' = lg).
Proof.
  intros Le. unfold log_impl, refused, no_file_logger, file_opens, spdlog_log.
  apply Nat.ltb_ge in Le. rewrite Le, level_lookup.
  destruct t; cbn [existsb is_file orb andb].
  - destruct (m_file_logger_ptr lg) as [path|] eqn:P; cbn [andb].
    + exists lg, [logged (file_sink path) (spdlog_level level) msg].
      split; [reflexivity|]. split; [apply same_settings_refl|].
      unfold sink_of, current_file. rewrite P.
      split; [reflexivity|]. split; [|split; [auto | congruence]].
      intros q Hq. apply elem_of_cons in Hq as [Hq|Hq];
        [discriminate | inversion Hq].
    + destruct (can_create_directories fs _); cbn [negb andb].
      * destruct (can_open fs _); cbn [negb].
        -- eexists _, _. split; [reflexivity|].
           split; [unfold same_settings, current_file; simpl; rewrite P; auto|].
           unfold sink_of, current_file. rewrite P.
           split; [reflexivity|]. split; [|split; [auto | congruence]].
           intros q Hq. cbn [app] in Hq.
           apply elem_of_cons in Hq as [Hq|Hq]; [discriminate|].
           apply elem_of_cons in Hq as [Hq|Hq]; [injection Hq as ->; auto|].
           apply elem_of_cons in Hq as [Hq|Hq]; [discriminate | inversion Hq].
        -- eexists. split; [reflexivity|]. split; [reflexivity|].
           intros q Hq. apply elem_of_cons in Hq as [Hq|Hq];
             [discriminate | inversion Hq].
      * eexists. split; [reflexivity|]. split; [reflexivity|].
        intros q Hq. inversion Hq.
  - exists lg, [logged stdout_sink (spdlog_level level) msg].
    split; [reflexivity|]. split; [apply same_settings_refl|].
    split; [reflexivity|]. split; [|split; [discriminate | auto]].
    intros q Hq. apply elem_of_cons in Hq as [Hq|Hq];
      [discriminate | inversion Hq].
  - exists lg, [logged stderr_sink (spdlog_level level) msg].
    split; [reflexivity|]. split; [apply same_settings_refl|].
    split; [reflexivity|]. split; [|split; [discriminate | auto]].
    intros q Hq. apply elem_of_cons in Hq as [Hq|Hq];
      [discriminate | inversion Hq].
Qed.

Lemma log_to_filtered fs (targets : list logger_target) level (msg : Msg) lg :
  (level_value (m_log_level lg) < level_value level)%nat ->
  log_to parent_path fs targets level msg lg = returned lg [].
Proof.
  intros Lt. induction targets as [|t rest IH]; simpl; [reflexivity|].
  rewrite (log_impl_filtered _ _ _ _ _ Lt), IH. reflexivity.
Qed.

Lemma log_to_passes fs (targets : list logger_target) level (msg : Msg) :
  forall lg,
  (level_value level <= level_value (m_log_level lg))%nat ->
  if refused fs lg targets
  then exists events,
    log_to parent_path fs targets level msg lg = thrown lg events /\
    messages events =
      map (fun t => (sink_of lg t, spdlog_level level, msg))
        (before_file targets) /\
    (forall path, open_file path ∉ events)
  else exists lg' events,
    log_to parent_path fs targets level msg lg = returned lg' events /\
    same_settings lg lg' /\
    messages events =
      map (fun t => (sink_of lg t, spdlog_level level, msg)) targets.
Proof.
  induction targets as [|t rest IH]; intros lg Le.
  - cbn. exists lg, []. split; [reflexivity|].
    split; [apply same_settings_refl | reflexivity].
  - pose proof (log_impl_passes fs t level msg lg Le) as H1.
    cbn [log_to].
    destruct (refused fs lg [t]) eqn:R1.
    + (* the first target is the file, and it cannot be opened *)
      destruct H1 as (ev1 & -> & M1 & O1).
      assert (Ht : t = file).
      { unfold refused in R1. destruct t; simpl in R1; congruence. }
      subst t.
      assert (R : refused fs lg (file :: rest) = true).
      { unfold refused in *. simpl in *. exact R1. }
      rewrite R. exists ev1. split; [reflexivity|].
      split; [exact M1 | exact O1].
    + destruct H1 as (lg1 & ev1 & -> & S1 & M1 & O1 & F1 & N1).
      destruct S1 as (A1 & B1 & C1 & D1).
      assert (Le1 : (level_value level <= level_value (m_log_level lg1))%nat)
        by (rewrite A1; exact Le).
      specialize (IH lg1 Le1).
      assert (SK : forall t', sink_of lg1 t' = sink_of lg t').
      { intros t'. unfold sink_of. rewrite D1. reflexivity. }
      destruct (is_file t) eqn:Ft.
      * (* the file target was served: the file logger is open now *)
        assert (Ht : t = file) by (destruct t; simpl in Ft; congruence).
        subst t.
        assert (R2 : refused fs lg1 rest = false).
        { unfold refused, no_file_logger. rewrite (F1 eq_refl).
          rewrite andb_false_r. reflexivity. }
        assert (R : refused fs lg (file :: rest) = false).
        { unfold refused in *. simpl in *. exact R1. }
        rewrite R2 in IH. rewrite R.
        destruct IH as (lg2 & ev2 & -> & S2 & M2).
        destruct S2 as (A2 & B2 & C2 & D2).
        exists lg2, (ev1 ++ ev2). split; [reflexivity|].
        split; [repeat split; congruence|].
        rewrite messages_app, M1, M2. simpl. f_equal.
        apply map_ext. intros t'. rewrite SK. reflexivity.
      * assert (E1 : lg1 = lg) by (apply N1; intros ->; discriminate).
        subst lg1.
        assert (R : refused fs lg (t :: rest) = refused fs lg rest).
        { unfold refused. simpl. rewrite Ft. reflexivity. }
        rewrite R.
        destruct (refused fs lg rest).
        -- destruct IH as (ev2 & -> & M2 & O2).
           exists (ev1 ++ ev2). split; [reflexivity|]. split.
           ++ rewrite messages_app, M1, M2. simpl. rewrite Ft. reflexivity.
           ++ intros path Hp. apply elem_of_app in Hp as [Hp|Hp].
              ** destruct (O1 path Hp) as (-> & _). discriminate.
              ** exact (O2 path Hp).
        -- destruct IH as (lg2 & ev2 & -> & S2 & M2).
           exists lg2, (ev1 ++ ev2). split; [reflexivity|].
           split; [exact S2|].
           rewrite messages_app, M1, M2. reflexivity.
Qed.

(** X15: a message is handed to spdlog exactly when its level does not
    exceed the level set in the logger (a logger left at its initial
    level [off] passes on messages of level [off] only).  A message that
    passes is handed on once for every target listed, in order, with the
    spdlog level of the same name (the table lookup is in range for
    every level), and the call changes neither the level nor the target
    nor the path; unless the call has to open the log file and
    [create_directories] or the constructor of the file sink throws:
    then the exception ends the call, the targets listed before [file]
    have been served, no file has been opened, and the logger is as it
    was. *)
Theorem log_filters_by_level fs (targets : list logger_target) level
  (msg : Msg) lg :
  if (level_value (get_log_level lg) <? level_value level)%nat
  then log_to parent_path fs targets level msg lg = returned lg []
  else if refused fs lg targets
  then exists events,
    log_to parent_path fs targets level msg lg = thrown lg events /\
    messages events =
      map (fun t => (sink_of lg t, spdlog_level level, msg))
        (before_file targets) /\
    (forall path, open_file path ∉ events)
  else exists lg' events,
    log_to parent_path fs targets level msg lg = returned lg' events /\
    get_log_level lg' = get_log_level lg /\
    get_logger_target lg' = get_logger_target lg /\
    get_path lg' = get_path lg /\
    messages events =
      map (fun t => (sink_of lg t, spdlog_level level, msg)) targets.
Proof.
  unfold get_log_level.
  destruct (Nat.ltb_spec (level_value (m_log_level lg)) (level_value level))
    as [Lt|Le].
  - apply log_to_filtered, Lt.
  - pose proof (log_to_passes fs targets level msg lg Le) as H.
    destruct (refused fs lg targets); [exact H|].
    destruct H as (lg' & events & L & (A & B & C & _) & M).
    exists lg', events. auto.
Qed.

(** The file logger, when there is one, is open on [m_path]. *)
Definition file_logger_on_path lg : Prop :=
  forall path, m_file_logger_ptr lg = Some path -> path = m_path lg.

(** The logger a call leaves behind. *)
Definition logger_after (r : result Msg) : option logger :=
  match r with
  | returned lg _ | thrown lg _ => Some lg
  | undefined => None
  end.

Lemma log_impl_on_path fs (t : logger_target) level (msg : Msg) lg lg' :
  file_logger_on_path lg ->
  logger_after (log_impl parent_path fs t level msg lg) = Some lg' ->
  file_logger_on_path lg'.
Proof.
  intros I. unfold log_impl, spdlog_log.
  destruct (_ <? _)%nat; [intros [= <-]; exact I|].
  rewrite level_lookup.
  destruct t; [destruct (m_file_logger_ptr lg) eqn:P|..];
    try (intros [= <-]; exact I).
  destruct (can_create_directories fs _); cbn [negb];
    [|intros [= <-]; exact I].
  destruct (can_open fs _); cbn [negb]; [|intros [= <-]; exact I].
  intros [= <-] path. simpl. congruence.
Qed.

Lemma log_to_on_path fs (targets : list logger_target) level (msg : Msg) :
  forall lg lg',
  file_logger_on_path lg ->
  logger_after (log_to parent_path fs targets level msg lg) = Some lg' ->
  file_logger_on_path lg'.
Proof.
  induction targets as [|t rest IH]; intros lg lg' I; simpl.
  - intros [= <-]. exact I.
  - pose proof (log_impl_on_path fs t level msg lg) as H1.
    destruct (log_impl parent_path fs t level msg lg) as [lg1 ev1|lg1 ev1|];
      simpl in *; [|intros [= <-]; apply (H1 lg1 I eq_refl)|discriminate].
    specialize (IH lg1 lg' (H1 lg1 I eq_refl)).
    destruct (log_to parent_path fs rest level msg lg1) as [lg2 ev2|lg2 ev2|];
      simpl in *; [exact IH | exact IH | discriminate].
Qed.

Lemma run_on_path fs (c : call Msg) lg lg' :
  file_logger_on_path lg ->
  logger_after (run parent_path fs c lg) = Some lg' ->
  file_logger_on_path lg'.
Proof.
  intros I. destruct c; simpl.
  - intros [= <-] q. simpl. discriminate.
  - intros [= <-]. exact I.
  - intros [= <-]. exact I.
  - apply log_to_on_path, I.
  - apply log_to_on_path, I.
  - intros [= <-]. exact I.
Qed.

Lemma reachable_on_path lg :
  reachable (Msg := Msg) parent_path lg -> file_logger_on_path lg.
Proof.
  induction 1 as [fs path lg N|fs lg c lg' events R IH Hc
                 |fs lg c lg' events R IH Hc].
  - unfold new_logger in N. destruct (is_directory fs path); [|discriminate].
    injection N as <-. intros q. simpl. discriminate.
  - apply (run_on_path fs c lg lg' IH). rewrite Hc. reflexivity.
  - apply (run_on_path fs c lg lg' IH). rewrite Hc. reflexivity.
Qed.

(** X16: whatever calls were made before, a message for the file target
    that passes the level goes to the file that [get_path] names at the
    time of the call, so a [set_path] takes effect with the next message;
    the file is opened, and its directories created, only if no file
    logger is open, and afterwards the file logger is open on that path.
    When the file has to be opened and [create_directories] or the
    constructor of the file sink throws, the call throws: nothing is
    logged, no file is opened, and the logger is as it was. *)
Theorem file_messages_go_to_current_path fs level (msg : Msg) lg :
  reachable (Msg := Msg) parent_path lg ->
  (level_value level <= level_value (get_log_level lg))%nat ->
  if no_file_logger lg && negb (file_opens fs lg)
  then exists events,
    log_impl parent_path fs file level msg lg = thrown lg events /\
    messages events = [] /\
    (forall path, open_file path ∉ events)
  else exists lg' events,
    log_impl parent_path fs file level msg lg = returned lg' events /\
    messages events = [(file_sink (get_path lg), spdlog_level level, msg)] /\
    m_file_logger_ptr lg' = Some (get_path lg) /\
    get_path lg' = get_path lg /\
    (forall path, open_file path ∈ events ->
       m_file_logger_ptr lg = None /\ path = get_path lg).
Proof.
  intros R Le. pose proof (reachable_on_path lg R) as I.
  pose proof (log_impl_passes fs file level msg lg Le) as H.
  unfold refused in H. cbn [existsb is_file orb andb] in H.
  destruct (no_file_logger lg && negb (file_opens fs lg)); [exact H|].
  destruct H as (lg' & events & L & (_ & _ & C & _) & M & O & F & _).
  assert (E : current_file lg = m_path lg).
  { unfold current_file. destruct (m_file_logger_ptr lg) eqn:P; auto. }
  exists lg', events. split; [exact L|].
  unfold sink_of in M. rewrite E in M. unfold get_path.
  split; [exact M|]. split; [rewrite <- E; apply F; auto|].
  split; [exact C|]. intros path Hp. destruct (O path Hp) as (_ & N & ->).
  auto.
Qed.

End WithMessages.

(** [path::parent_path] for the paths of the runs below, relative paths
    with single separators: what stands before the last separator. *)
Fixpoint before_last_separator (p : string) : string :=
  match p with
  | EmptyString => EmptyString
  | String c rest =>
      if existsb (Ascii.eqb (Ascii.ascii_of_nat 47)) (list_ascii_of_string rest)
      then String c (before_last_separator rest)
      else EmptyString
  end.

(** A file system in which no path is a directory yet and every
    directory and file can be created; [create_directories] of the empty
    path throws. *)
Definition fresh_directory : file_system :=
  {| is_directory := fun _ => Some false;
     can_create_directories := fun dir => negb (String.eqb dir "");
     can_open := fun _ => true |}.

(** A logger built by [logger(rank, "logs/run1.log")]; its level is set
    to [info], a message is logged to the file, and the path is set to
    [p]. *)
Definition after_set_path (p : string) : logger :=
  {| m_logger_target := file;
     m_file_logger_ptr := None;
     m_log_level := info;
     m_path := p |}.

Lemma after_set_path_reachable p :
  reachable (Msg := nat) before_last_separator (after_set_path p).
Proof.
  apply (reach_call _ fresh_directory
           {| m_logger_target := file;
              m_file_logger_ptr := Some "logs/run1.log"%string;
              m_log_level := info;
              m_path := "logs/run1.log"%string |}
           (call_set_path (Msg := nat) p) (after_set_path p) []);
    [|reflexivity].
  apply (reach_call _ fresh_directory
           {| m_logger_target := file;
              m_file_logger_ptr := None;
              m_log_level := info;
              m_path := "logs/run1.log"%string |}
           (call_log info 7%nat) _
           [create_directories "logs"%string;
            open_file "logs/run1.log"%string;
            logged (file_sink "logs/run1.log"%string) spdlog.info 7%nat]);
    [|reflexivity].
  apply (reach_call _ fresh_directory
           {| m_logger_target := file;
              m_file_logger_ptr := None;
              m_log_level := off;
              m_path := "logs/run1.log"%string |}
           (call_set_log_level (Msg := nat) info) _ []); [|reflexivity].
  apply (reach_new _ fresh_directory "logs/run1.log"%string). reflexivity.
Qed.

(** A message of level [warn] for standard output, the file and standard
    error.  With the path "out/run2.log" all three get it.  With the path
    "run2.log" the parent path is empty, [create_directories] throws, and
    only standard output has got the message.  A message of level [debug]
    is dropped. *)
Lemma log_filters_by_level_witness :
  (exists lg' events,
     log_to before_last_separator fresh_directory [stdout; file; stderr]
       warn 8%nat (after_set_path "out/run2.log")
       = returned lg' events /\
     get_log_level lg' = info /\
     get_logger_target lg' = file /\
     get_path lg' = "out/run2.log"%string /\
     messages events =
       [(stdout_sink, spdlog.warn, 8%nat);
        (file_sink "out/run2.log"%string, spdlog.warn, 8%nat);
        (stderr_sink, spdlog.warn, 8%nat)]) /\
  (exists events,
     log_to before_last_separator fresh_directory [stdout; file; stderr]
       warn 8%nat (after_set_path "run2.log")
       = thrown (after_set_path "run2.log") events /\
     messages events = [(stdout_sink, spdlog.warn, 8%nat)] /\
     (forall path, open_file path ∉ events)) /\
  log_to before_last_separator fresh_directory [stdout; file; stderr]
    debug 8%nat (after_set_path "out/run2.log")
    = returned (after_set_path "out/run2.log") [].
Proof.
  split; [|split].
  - exact (log_filters_by_level before_last_separator fresh_directory
             [stdout; file; stderr] warn 8%nat (after_set_path "out/run2.log")).
  - exact (log_filters_by_level before_last_separator fresh_directory
             [stdout; file; stderr] warn 8%nat (after_set_path "run2.log")).
  - exact (log_filters_by_level before_last_separator fresh_directory
             [stdout; file; stderr] debug 8%nat (after_set_path "out/run2.log")).
Defined.

(** After [set_path("out/run2.log")] the next message, of level [warn],
    goes to "out/run2.log", which is opened for it.  After
    [set_path("run2.log")] the call throws, because the parent path is
    empty, and nothing is written. *)
Lemma file_messages_go_to_current_path_witness :
  (exists lg' events,
     log_impl before_last_separator fresh_directory file warn 8%nat
       (after_set_path "out/run2.log") = returned lg' events /\
     messages events = [(file_sink "out/run2.log"%string, spdlog.warn, 8%nat)] /\
     m_file_logger_ptr lg' = Some "out/run2.log"%string /\
     get_path lg' = "out/run2.log"%string /\
     (forall path, open_file path ∈ events ->
        m_file_logger_ptr (after_set_path "out/run2.log") = None /\
        path = "out/run2.log"%string)) /\
  (exists events,
     log_impl before_last_separator fresh_directory file warn 8%nat
       (after_set_path "run2.log") = thrown (after_set_path "run2.log") events /\
     messages events = [] /\
     (forall path, open_file path ∉ events)).
Proof.
  split.
  - apply (file_messages_go_to_current_path before_last_separator
             fresh_directory warn 8%nat (after_set_path "out/run2.log")).
    + apply after_set_path_reachable.
    + simpl. lia.
  - apply (file_messages_go_to_current_path before_last_separator
             fresh_directory warn 8%nat (after_set_path "run2.log")).
    + apply after_set_path_reachable.
    + simpl. lia.
Defined.

End LoggerFacts.
